(** * A thread pool: interleaving model of [src/thread_pool.cpp]

    The class [ThreadPool] owns a vector of worker threads that all run
    [workerLoop] against one mutex-guarded deque of type-erased tasks.
    [submit] wraps a callable into a [std::packaged_task] held by a
    [std::shared_ptr], pushes a closure that invokes it, and returns the
    [std::future].

    The program is concurrent, so it is embedded as a transition system:
    a [state] holds the members of the class, the control point of every
    thread, and the packaged tasks allocated so far; [step] performs one
    atomic action of one thread, chosen by an [event]; [exec] runs a
    schedule (a list of events).  Every statement below is about all
    schedules, or exhibits one.

    Granularity.  The mutex [tasksMutex] is a field of the state, and the
    critical section of [workerLoop] (lines 71-81) is split into its
    statements, so that mutual exclusion is a theorem and not a modelling
    decision.  The two short critical sections of [submit] (lines 58-61)
    and [shutdown] (lines 103-107) contain no control flow; each is one
    step that needs the mutex to be free. *)

From Stdlib Require Import ZArith String.
From stdpp Require Import base tactics option list sorting.

Local Open Scope Z_scope.
Local Open Scope nat_scope.

(** ** Exceptions and futures (the parts of <future> the program uses) *)

(** [std::future_errc]. *)
Inductive future_errc :=
  | broken_promise
  | future_already_retrieved
  | promise_already_satisfied
  | no_state.

(** What a task body can throw.  The handlers of [workerLoop] (lines 84-88)
    tell objects derived from [std::exception] from all others;
    [std::future_error] derives from [std::logic_error]. *)
Inductive exn :=
  | StdException (what : string)
  | FutureError (code : future_errc)
  | NonStd (payload : Z).

Definition future_errc_message (c : future_errc) : string :=
  match c with
  | broken_promise => "Broken promise"
  | future_already_retrieved => "Future already retrieved"
  | promise_already_satisfied => "Promise already satisfied"
  | no_state => "No associated state"
  end.

(** [e.what()] for the exceptions caught by [catch (const std::exception &e)];
    [None] for an object that handler does not catch.  The text of a
    [std::future_error] is the one libstdc++ builds: the name of the class,
    then the message of the error code. *)
Definition what_of (e : exn) : option string :=
  match e with
  | StdException w => Some w
  | FutureError c => Some ("std::future_error: " ++ future_errc_message c)%string
  | NonStd _ => None
  end.

(** Indices into the vector of packaged tasks allocated by [submit]; the
    [std::future] returned by [submit] is identified with the same index. *)
Abbreviation handle := nat (only parsing).

(** Control points of a worker thread inside [workerLoop]. *)
Inductive wpc :=
  | AtLock                    (* line 71: acquiring [tasksMutex] *)
  | AtPred                    (* line 72: evaluating the wait predicate, mutex held *)
  | Waiting                   (* line 72: blocked inside [cv.wait], mutex released *)
  | Woken                     (* line 72: unblocked, re-acquiring the mutex *)
  | AtStopCheck               (* line 73 *)
  | AtTake                    (* lines 74-81 *)
  | Running (h : handle)      (* lines 82-88: [task()] inside the try block *)
  | Finishing (h : handle)    (* line 89 and the end of the iteration *)
  | Exited.                   (* returned from [workerLoop] *)

(** Control points of the thread that owns the pool: it is the only one
    that touches [workers], which no mutex protects. *)
Inductive ctl :=
  | Idle                              (* outside [shutdown] *)
  | InNotify (dtor : bool)            (* line 108 *)
  | InJoin (dtor : bool) (i : nat)    (* lines 109-110, about to join [workers[i]] *)
  | Destroyed.                        (* the destructor has finished *)

Global Instance wpc_eq_dec : EqDecision wpc.
Proof. solve_decision. Defined.
Global Instance ctl_eq_dec : EqDecision ctl.
Proof. solve_decision. Defined.

(** [size_t] is 64 bits wide; [fetch_add] and [fetch_sub] wrap around. *)
Definition size_max_plus_1 : Z := (2 ^ 64)%Z.
Definition fetch_add1 (a : Z) : Z := ((a + 1) mod size_max_plus_1)%Z.
Definition fetch_sub1 (a : Z) : Z := ((a - 1) mod size_max_plus_1)%Z.

Section Pool.

(** The return type of the submitted callables. *)
Context {V : Type}.

(** The result of running a bound callable. *)
Inductive outcome :=
  | Returns (v : V)
  | Throws (e : exn).

(** The shared state behind a [std::future]: not ready, or ready with a
    value or an exception. *)
Inductive shared_state :=
  | Pending
  | Ready (r : outcome).

(** One [std::packaged_task<RetType()>] created by [std::make_shared] at
    line 54, together with the shared state its future reads and the use
    count of the [shared_ptr]s that own it. *)
Record packaged_task := PackagedTask {
  body : unit -> outcome;
  sstate : shared_state;
  use_count : nat
}.

(** [std::bind(f, args...)]: the zero-argument callable stored in the task. *)
Definition bind_call {A : Type} (f : A -> outcome) (a : A) : unit -> outcome :=
  fun _ => f a.

(** [future::get]: blocks ([None]) until the state is ready, then returns
    the value or rethrows the stored exception. *)
Definition future_get (p : shared_state) : option outcome :=
  match p with
  | Pending => None
  | Ready r => Some r
  end.

(** [packaged_task::operator()]: runs the stored callable and makes the
    shared state ready with its value, or with the exception it throws;
    nothing escapes in that case.  Invoked on a state that is already
    ready it throws [future_error(promise_already_satisfied)]. *)
Definition invoke (t : packaged_task) : packaged_task * option exn :=
  match sstate t with
  | Pending => (PackagedTask (body t) (Ready (body t tt)) (use_count t), None)
  | Ready _ => (t, Some (FutureError promise_already_satisfied))
  end.

(** [~packaged_task] abandons the shared state: a state that is not ready
    is made ready with [future_error(broken_promise)]. *)
Definition abandon (t : packaged_task) : packaged_task :=
  match sstate t with
  | Pending =>
      PackagedTask (body t) (Ready (Throws (FutureError broken_promise))) (use_count t)
  | Ready _ => t
  end.

(** Destruction of one [shared_ptr] owner (a closure [[taskPack]() {...}] or
    the local [taskPack] of [submit]); the last owner destroys the task. *)
Definition release (t : packaged_task) : packaged_task :=
  let t' := PackagedTask (body t) (sstate t) (use_count t - 1) in
  if decide (use_count t' = 0) then abandon t' else t'.

(** ** The state *)

Record state := State {
  (* members of [ThreadPool] *)
  workers : list wpc;            (* [std::vector<std::thread>], with each thread's control point *)
  tasks : list handle;           (* [std::deque<std::function<void()>>]; a closure is the task it captures *)
  tasksMutex : option nat;       (* the worker that holds the mutex *)
  stopping : bool;
  activeWorkers : Z;
  (* the rest of the process *)
  heap : list packaged_task;     (* the tasks allocated so far *)
  returning : list handle;       (* calls of [submit] between lines 61 and 63 *)
  caller : ctl;
  cerr : list string;            (* lines written to [std::cerr] *)
  (* observation logs: written, never read, by the transitions *)
  dequeued : list handle;        (* tasks in the order workers popped them *)
  started : list handle;         (* tasks in the order workers invoked them *)
  discarded : list handle;       (* closures destroyed while still in the deque *)
  spawned : nat;                 (* threads created *)
  joined : nat                   (* calls of [join] that returned *)
}.

Definition with_workers (x : list wpc) (s : state) : state :=
  State x (tasks s) (tasksMutex s) (stopping s) (activeWorkers s) (heap s) (returning s) (caller s) (cerr s) (dequeued s) (started s) (discarded s) (spawned s) (joined s).
Definition with_tasks (x : list handle) (s : state) : state :=
  State (workers s) x (tasksMutex s) (stopping s) (activeWorkers s) (heap s) (returning s) (caller s) (cerr s) (dequeued s) (started s) (discarded s) (spawned s) (joined s).
Definition with_tasksMutex (x : option nat) (s : state) : state :=
  State (workers s) (tasks s) x (stopping s) (activeWorkers s) (heap s) (returning s) (caller s) (cerr s) (dequeued s) (started s) (discarded s) (spawned s) (joined s).
Definition with_stopping (x : bool) (s : state) : state :=
  State (workers s) (tasks s) (tasksMutex s) x (activeWorkers s) (heap s) (returning s) (caller s) (cerr s) (dequeued s) (started s) (discarded s) (spawned s) (joined s).
Definition with_activeWorkers (x : Z) (s : state) : state :=
  State (workers s) (tasks s) (tasksMutex s) (stopping s) x (heap s) (returning s) (caller s) (cerr s) (dequeued s) (started s) (discarded s) (spawned s) (joined s).
Definition with_heap (x : list packaged_task) (s : state) : state :=
  State (workers s) (tasks s) (tasksMutex s) (stopping s) (activeWorkers s) x (returning s) (caller s) (cerr s) (dequeued s) (started s) (discarded s) (spawned s) (joined s).
Definition with_returning (x : list handle) (s : state) : state :=
  State (workers s) (tasks s) (tasksMutex s) (stopping s) (activeWorkers s) (heap s) x (caller s) (cerr s) (dequeued s) (started s) (discarded s) (spawned s) (joined s).
Definition with_caller (x : ctl) (s : state) : state :=
  State (workers s) (tasks s) (tasksMutex s) (stopping s) (activeWorkers s) (heap s) (returning s) x (cerr s) (dequeued s) (started s) (discarded s) (spawned s) (joined s).
Definition with_cerr (x : list string) (s : state) : state :=
  State (workers s) (tasks s) (tasksMutex s) (stopping s) (activeWorkers s) (heap s) (returning s) (caller s) x (dequeued s) (started s) (discarded s) (spawned s) (joined s).
Definition with_dequeued (x : list handle) (s : state) : state :=
  State (workers s) (tasks s) (tasksMutex s) (stopping s) (activeWorkers s) (heap s) (returning s) (caller s) (cerr s) x (started s) (discarded s) (spawned s) (joined s).
Definition with_started (x : list handle) (s : state) : state :=
  State (workers s) (tasks s) (tasksMutex s) (stopping s) (activeWorkers s) (heap s) (returning s) (caller s) (cerr s) (dequeued s) x (discarded s) (spawned s) (joined s).
Definition with_discarded (x : list handle) (s : state) : state :=
  State (workers s) (tasks s) (tasksMutex s) (stopping s) (activeWorkers s) (heap s) (returning s) (caller s) (cerr s) (dequeued s) (started s) x (spawned s) (joined s).
Definition with_spawned (x : nat) (s : state) : state :=
  State (workers s) (tasks s) (tasksMutex s) (stopping s) (activeWorkers s) (heap s) (returning s) (caller s) (cerr s) (dequeued s) (started s) (discarded s) x (joined s).
Definition with_joined (x : nat) (s : state) : state :=
  State (workers s) (tasks s) (tasksMutex s) (stopping s) (activeWorkers s) (heap s) (returning s) (caller s) (cerr s) (dequeued s) (started s) (discarded s) (spawned s) x.

(** Worker [w] moves to control point [pc]. *)
Definition goto (w : nat) (pc : wpc) (s : state) : state :=
  with_workers (<[w := pc]> (workers s)) s.

(** ** Members of [ThreadPool] *)

(** [increaseSize] (lines 93-99): every new thread starts at the top of
    [workerLoop].  The guard at line 94 keeps the subtraction at line 95
    from wrapping, so the counts are natural numbers. *)
Definition increaseSize (newSize : nat) (s : state) : state :=
  if decide (newSize <= length (workers s)) then s
  else
    let add := newSize - length (workers s) in
    with_spawned (spawned s + add)
      (with_workers (workers s ++ replicate add AtLock) s).

(** The members as their default initialisers leave them (lines 33-38),
    in a process that has allocated no task yet. *)
Definition fresh : state :=
  State [] [] None false 0%Z [] [] Idle [] [] [] [] 0 0.

(** The constructor (lines 41-44). *)
Definition ThreadPool (numThreads : nat) : state :=
  let numThreads := if decide (numThreads = 0) then 1 else numThreads in
  increaseSize numThreads fresh.

(** [getActiveWorkerCount] (lines 113-115) and [getQueuedTaskCount]
    (lines 117-120): snapshots of the state. *)
Definition getActiveWorkerCount (s : state) : Z := activeWorkers s.
Definition getQueuedTaskCount (s : state) : nat := length (tasks s).

(** [submit], lines 53-61: allocate the packaged task (one owner, the local
    [taskPack]), take its future, and under the mutex append the closure
    that captures a second owner. *)
Definition submit (f : unit -> outcome) (s : state) : handle * state :=
  let h := length (heap s) in
  (h, with_returning (returning s ++ [h])
        (with_tasks (tasks s ++ [h])
          (with_heap (heap s ++ [PackagedTask f Pending 2]) s))).

(** [cv.notify_one()] wakes exactly one waiting thread if there is one. *)
Definition notify_one (wake : option nat) (s : state) : option state :=
  match wake with
  | Some w =>
      match workers s !! w with
      | Some Waiting => Some (goto w Woken s)
      | _ => None
      end
  | None => if decide (Waiting ∈ workers s) then None else Some s
  end.

Definition wake (pc : wpc) : wpc :=
  match pc with
  | Waiting => Woken
  | _ => pc
  end.

(** [cv.notify_all()]. *)
Definition notify_all (s : state) : state :=
  with_workers (wake <$> workers s) s.

(** [submit], lines 62-63: notify, return the future, destroy the local
    [taskPack]. *)
Definition submit_return (h : handle) (wake : option nat) (s : state) : option state :=
  if decide (h ∈ returning s) then
    s1 ← notify_one wake s;
    Some (with_returning (filter (λ x, x ≠ h) (returning s1))
            (with_heap (alter release h (heap s1)) s1))
  else None.

(** Destruction of every closure in the deque ([tasks.clear()] at line 105,
    or the destructor of the member [tasks]). *)
Definition clear (s : state) : state :=
  with_discarded (discarded s ++ tasks s)
    (with_tasks []
      (with_heap (foldr (λ h hp, alter release h hp) (heap s) (tasks s)) s)).

(** [shutdown], lines 103-107. *)
Definition shutdown_begin (waitForTasks dtor : bool) (s : state) : state :=
  let s1 := if waitForTasks then s else clear s in
  with_caller (InNotify dtor) (with_stopping true s1).

(** [shutdown], lines 108-110, one step at a time; [join] blocks ([None])
    until the joined thread has returned.  After the destructor's
    [shutdown(true)] the members are destroyed, [tasks] among them. *)
Definition shutdown_step (s : state) : option state :=
  match caller s with
  | InNotify d => Some (with_caller (InJoin d 0) (notify_all s))
  | InJoin d i =>
      match workers s !! i with
      | Some Exited => Some (with_caller (InJoin d (S i)) (with_joined (S (joined s)) s))
      | Some _ => None
      | None =>
          let s1 := with_workers [] s in
          Some (if d then with_caller Destroyed (clear s1) else with_caller Idle s1)
      end
  | _ => None
  end.

(** The two handlers of [workerLoop], lines 84-88. *)
Definition report (e : exn) : string :=
  match what_of e with
  | Some w => "Task exception: " ++ w
  | None => "Task unknown exception"
  end.

(** One step of worker [w] in [workerLoop] (lines 67-91). *)
Definition workerLoop (w : nat) (s : state) : option state :=
  match workers s !! w with
  | Some AtLock | Some Woken =>
      match tasksMutex s with
      | None => Some (goto w AtPred (with_tasksMutex (Some w) s))
      | Some _ => None
      end
  | Some AtPred =>
      if stopping s || negb (bool_decide (tasks s = []))
      then Some (goto w AtStopCheck s)
      else Some (goto w Waiting (with_tasksMutex None s))
  | Some Waiting => None
  | Some AtStopCheck =>
      if stopping s && bool_decide (tasks s = [])
      then Some (goto w Exited (with_tasksMutex None s))
      else Some (goto w AtTake s)
  | Some AtTake =>
      match tasks s with
      | h :: q =>
          Some (goto w (Running h)
                  (with_tasksMutex None
                    (with_dequeued (dequeued s ++ [h])
                      (with_activeWorkers (fetch_add1 (activeWorkers s))
                        (with_tasks q s)))))
      | [] => Some (goto w AtLock (with_tasksMutex None s))
      end
  | Some (Running h) =>
      t ← heap s !! h;
      let '(t', thrown) := invoke t in
      let s1 := with_started (started s ++ [h]) (with_heap (<[h := t']> (heap s)) s) in
      let s2 := match thrown with
                | Some e => with_cerr (cerr s1 ++ [report e]) s1
                | None => s1
                end in
      Some (goto w (Finishing h) s2)
  | Some (Finishing h) =>
      Some (goto w AtLock
              (with_heap (alter release h (heap s))
                (with_activeWorkers (fetch_sub1 (activeWorkers s)) s)))
  | Some Exited => None
  | None => None
  end.

(** ** Schedules *)

Inductive event :=
  | Submit (f : unit -> outcome)              (* a thread runs lines 53-61 of [submit] *)
  | SubmitReturn (h : handle) (wake : option nat)  (* and later lines 62-63 *)
  | IncreaseSize (newSize : nat)              (* the owner calls [increaseSize] *)
  | Shutdown (waitForTasks : bool)            (* the owner runs lines 103-107 of [shutdown] *)
  | Destroy                                   (* the owner runs the destructor up to line 107 *)
  | Owner                                     (* the owner's next step inside [shutdown] *)
  | Worker (w : nat)                          (* worker [w]'s next step *)
  | Spurious (w : nat).                       (* [cv.wait] of worker [w] unblocks spuriously *)

(** The object is in its lifetime and not under destruction: member
    functions other than the destructor may be called. *)
Definition alive (s : state) : bool :=
  match caller s with
  | Idle | InNotify false | InJoin false _ => true
  | _ => false
  end.

Definition mutex_free (s : state) : bool := bool_decide (tasksMutex s = None).

Definition step (e : event) (s : state) : option state :=
  match e with
  | Submit f =>
      if alive s && mutex_free s then Some (submit f s).2 else None
  | SubmitReturn h wake =>
      if alive s then submit_return h wake s else None
  | IncreaseSize n =>
      if decide (caller s = Idle) then Some (increaseSize n s) else None
  | Shutdown waitForTasks =>
      if bool_decide (caller s = Idle) && mutex_free s
      then Some (shutdown_begin waitForTasks false s) else None
  | Destroy =>
      if bool_decide (caller s = Idle) && mutex_free s && bool_decide (returning s = [])
      then Some (shutdown_begin true true s) else None
  | Owner => shutdown_step s
  | Worker w => workerLoop w s
  | Spurious w =>
      match workers s !! w with
      | Some Waiting => Some (goto w Woken s)
      | _ => None
      end
  end.

Fixpoint exec (tr : list event) (s : state) : option state :=
  match tr with
  | [] => Some s
  | e :: tr' =>
      match step e s with
      | Some s' => exec tr' s'
      | None => None
      end
  end.

(** The callables submitted by a schedule, in order. *)
Definition submitted (tr : list event) : list (unit -> outcome) :=
  tr ≫= (λ e, match e with Submit f => [f] | _ => [] end).

End Pool.

Arguments outcome : clear implicits.
Arguments shared_state : clear implicits.
Arguments packaged_task : clear implicits.
Arguments state : clear implicits.
Arguments event : clear implicits.

(** * Invariants of the reachable states *)

Section Invariants.
Context {V : Type}.
Implicit Types (s : state V) (e : event V).

Definition critical (pc : wpc) : bool :=
  match pc with AtPred | AtStopCheck | AtTake => true | _ => false end.

Inductive trans : event V -> state V -> state V -> Prop :=
  | t_submit f s :
      alive s = true -> tasksMutex s = None ->
      trans (Submit f) s (submit f s).2
  | t_return h s :
      alive s = true -> h ∈ returning s -> Waiting ∉ workers s ->
      trans (SubmitReturn h None) s
        (with_returning (filter (λ x, x ≠ h) (returning s))
           (with_heap (alter release h (heap s)) s))
  | t_return_wake h w s :
      alive s = true -> h ∈ returning s -> workers s !! w = Some Waiting ->
      trans (SubmitReturn h (Some w)) s
        (goto w Woken
           (with_returning (filter (λ x, x ≠ h) (returning s))
              (with_heap (alter release h (heap s)) s)))
  | t_increase n s :
      caller s = Idle ->
      trans (IncreaseSize n) s (increaseSize n s)
  | t_shutdown b s :
      caller s = Idle -> tasksMutex s = None ->
      trans (Shutdown b) s (shutdown_begin b false s)
  | t_destroy s :
      caller s = Idle -> tasksMutex s = None -> returning s = [] ->
      trans Destroy s (shutdown_begin true true s)
  | t_notify d s :
      caller s = InNotify d ->
      trans Owner s (with_caller (InJoin d 0) (notify_all s))
  | t_join d i s :
      caller s = InJoin d i -> workers s !! i = Some Exited ->
      trans Owner s (with_caller (InJoin d (S i)) (with_joined (S (joined s)) s))
  | t_joined d i s :
      caller s = InJoin d i -> workers s !! i = None ->
      trans Owner s
        (if d then with_caller Destroyed (clear (with_workers [] s))
         else with_caller Idle (with_workers [] s))
  | t_lock w s :
      workers s !! w = Some AtLock -> tasksMutex s = None ->
      trans (Worker w) s (goto w AtPred (with_tasksMutex (Some w) s))
  | t_relock w s :
      workers s !! w = Some Woken -> tasksMutex s = None ->
      trans (Worker w) s (goto w AtPred (with_tasksMutex (Some w) s))
  | t_pred_pass w s :
      workers s !! w = Some AtPred -> stopping s = true \/ tasks s <> [] ->
      trans (Worker w) s (goto w AtStopCheck s)
  | t_pred_wait w s :
      workers s !! w = Some AtPred -> stopping s = false -> tasks s = [] ->
      trans (Worker w) s (goto w Waiting (with_tasksMutex None s))
  | t_exit w s :
      workers s !! w = Some AtStopCheck -> stopping s = true -> tasks s = [] ->
      trans (Worker w) s (goto w Exited (with_tasksMutex None s))
  | t_stay w s :
      workers s !! w = Some AtStopCheck -> stopping s = false \/ tasks s <> [] ->
      trans (Worker w) s (goto w AtTake s)
  | t_take w h q s :
      workers s !! w = Some AtTake -> tasks s = h :: q ->
      trans (Worker w) s
        (goto w (Running h)
           (with_tasksMutex None
              (with_dequeued (dequeued s ++ [h])
                 (with_activeWorkers (fetch_add1 (activeWorkers s))
                    (with_tasks q s)))))
  | t_continue w s :
      workers s !! w = Some AtTake -> tasks s = [] ->
      trans (Worker w) s (goto w AtLock (with_tasksMutex None s))
  | t_run w h t s :
      workers s !! w = Some (Running h) -> heap s !! h = Some t -> sstate t = Pending ->
      trans (Worker w) s
        (goto w (Finishing h)
           (with_started (started s ++ [h])
              (with_heap (<[h := PackagedTask (body t) (Ready (body t tt)) (use_count t)]> (heap s)) s)))
  | t_rerun w h t r s :
      workers s !! w = Some (Running h) -> heap s !! h = Some t -> sstate t = Ready r ->
      trans (Worker w) s
        (goto w (Finishing h)
           (with_cerr (cerr s ++ [report (FutureError promise_already_satisfied)])
              (with_started (started s ++ [h])
                 (with_heap (<[h := t]> (heap s)) s))))
  | t_finish w h s :
      workers s !! w = Some (Finishing h) ->
      trans (Worker w) s
        (goto w AtLock
           (with_heap (alter release h (heap s))
              (with_activeWorkers (fetch_sub1 (activeWorkers s)) s)))
  | t_spurious w s :
      workers s !! w = Some Waiting ->
      trans (Spurious w) s (goto w Woken s).

Lemma step_trans e s s' : step e s = Some s' -> trans e s s'.
Proof.
  intros H. destruct e as [f|h wk|n|b| | |w|w]; simpl in H.
  - destruct (alive s) eqn:Ha; [|done]. unfold mutex_free in H.
    case_bool_decide; simplify_eq/=. by constructor.
  - destruct (alive s) eqn:Ha; [|done]. unfold submit_return in H.
    case_decide; [|done]. unfold notify_one in H.
    destruct wk as [w|].
    + destruct (workers s !! w) as [[]|] eqn:Hw; simplify_eq/=. by constructor.
    + case_decide; simplify_eq/=. by constructor.
  - case_decide; simplify_eq. by constructor.
  - unfold mutex_free in H. repeat case_bool_decide; simplify_eq/=. by constructor.
  - unfold mutex_free in H. repeat case_bool_decide; simplify_eq/=. by constructor.
  - unfold shutdown_step in H. destruct (caller s) eqn:Hc; try done.
    + simplify_eq. by constructor.
    + destruct (workers s !! i) as [[]|] eqn:Hw; simplify_eq/=.
      * by eapply t_join.
      * by eapply t_joined.
  - unfold workerLoop in H.
    destruct (workers s !! w) as [[]|] eqn:Hw; try done.
    + destruct (tasksMutex s) eqn:Hm; simplify_eq. by apply t_lock.
    + destruct (stopping s) eqn:Hst; simpl in H.
      * simplify_eq. constructor; auto.
      * case_bool_decide; simplify_eq/=; constructor; auto.
    + destruct (tasksMutex s) eqn:Hm; simplify_eq. by apply t_relock.
    + destruct (stopping s) eqn:Hst; simpl in H.
      * case_bool_decide; simplify_eq/=; constructor; auto.
      * simplify_eq. constructor; auto.
    + destruct (tasks s) eqn:Ht; simplify_eq; by constructor.
    + destruct (heap s !! h) as [t|] eqn:Hh; simplify_eq/=.
      unfold invoke in H. destruct (sstate t) eqn:Hs; simplify_eq/=.
      * by eapply t_run.
      * by eapply t_rerun.
    + simplify_eq. by constructor.
  - destruct (workers s !! w) as [[]|] eqn:Hw; simplify_eq. by constructor.
Qed.

Record wf (s : state V) : Prop := Wf {
  wf_owner w pc : workers s !! w = Some pc -> critical pc = true -> tasksMutex s = Some w;
  wf_held w : tasksMutex s = Some w -> exists pc, workers s !! w = Some pc /\ critical pc = true;
  wf_join d i j : caller s = InJoin d i -> j < i -> workers s !! j = Some Exited;
  wf_destroyed : caller s = Destroyed -> workers s = [];
  wf_stopcheck w : workers s !! w = Some AtStopCheck -> stopping s = true \/ tasks s <> [];
  wf_take w : workers s !! w = Some AtTake -> tasks s <> []
}.

Lemma wf_exclusive s w1 w2 pc1 pc2 :
  wf s -> workers s !! w1 = Some pc1 -> workers s !! w2 = Some pc2 ->
  critical pc1 = true -> critical pc2 = true -> w1 = w2.
Proof.
  intros Hwf H1 H2 C1 C2.
  pose proof (wf_owner s Hwf _ _ H1 C1). pose proof (wf_owner s Hwf _ _ H2 C2). congruence.
Qed.

Lemma wf_free s w pc :
  wf s -> tasksMutex s = None -> workers s !! w = Some pc -> critical pc = false.
Proof.
  intros Hwf Hm Hw. destruct (critical pc) eqn:C; [|done].
  pose proof (wf_owner s Hwf _ _ Hw C). congruence.
Qed.

Ltac lookup_cases :=
  repeat match goal with
  | H : <[_ := _]> _ !! _ = Some _ |- _ =>
      apply list_lookup_insert_Some in H as [(? & ? & ?) | (? & H)]
  | H : (wake <$> _) !! _ = Some _ |- _ =>
      rewrite list_lookup_fmap in H; apply fmap_Some in H as (? & H & ?)
  | H : (_ ++ replicate _ _) !! _ = Some _ |- _ =>
      apply lookup_app_Some in H as [H | [? H]]; [| apply lookup_replicate in H as [? ?]]
  end.


Lemma all_exited_free s i :
  wf s -> (forall j, j < i -> workers s !! j = Some Exited) -> workers s !! i = None ->
  tasksMutex s = None.
Proof.
  intros Hwf Hj Hi. destruct (tasksMutex s) as [w|] eqn:Hm; [|done].
  destruct (wf_held s Hwf w Hm) as (pc & Hw & C).
  assert (w < i) as Hlt.
  { apply lookup_lt_Some in Hw. apply lookup_ge_None in Hi. lia. }
  rewrite (Hj _ Hlt) in Hw. by simplify_eq.
Qed.



Ltac use_wf Hwf :=
  repeat match goal with
  | H : workers ?s !! ?w = Some ?pc |- _ =>
      lazymatch goal with
      | _ : tasksMutex s = Some w |- _ => fail
      | _ => idtac
      end;
      assert (tasksMutex s = Some w)
        by (apply (wf_owner s Hwf w pc H); first [reflexivity | assumption])
  | H : tasksMutex ?s = Some ?w |- _ =>
      lazymatch goal with
      | _ : workers s !! w = Some _ |- _ => fail
      | _ => idtac
      end;
      let pc := fresh "pc" in
      destruct (wf_held s Hwf w H) as (pc & ? & ?)
  | H : caller ?s = InJoin ?d ?i, H' : ?j < ?i |- _ =>
      lazymatch goal with
      | _ : workers s !! j = Some _ |- _ => fail
      | _ => idtac
      end;
      pose proof (wf_join s Hwf d i j H H')
  | H : caller ?s = Destroyed |- _ =>
      lazymatch goal with
      | _ : workers s = [] |- _ => fail
      | _ => idtac
      end;
      pose proof (wf_destroyed s Hwf H)
  | H : workers ?s !! ?w = Some AtStopCheck |- _ =>
      lazymatch goal with
      | _ : stopping s = true \/ tasks s <> [] |- _ => fail
      | _ => idtac
      end;
      pose proof (wf_stopcheck s Hwf w H)
  | H : workers ?s !! ?w = Some AtTake |- _ =>
      lazymatch goal with
      | _ : tasks s <> [] |- _ => fail
      | _ => idtac
      end;
      pose proof (wf_take s Hwf w H)
  end.

Ltac goal_lookup :=
  repeat match goal with
  | |- context [<[?w := _]> ?l !! ?j] =>
      first
        [ rewrite list_lookup_insert_eq by (eapply lookup_lt_Some; eassumption)
        | rewrite list_lookup_insert_ne by done
        | destruct (decide (w = j)); simplify_eq ]
  | |- context [(_ <$> _) !! _] => rewrite list_lookup_fmap
  | |- context [(?l ++ _) !! _] => rewrite lookup_app_l by (eapply lookup_lt_Some; eassumption)
  | H : ?l !! ?i = Some _ |- context [?l !! ?i] => rewrite H
  end.

Lemma step_wf e s s' : wf s -> step e s = Some s' -> wf s'.
Proof.
  intros Hwf H. apply step_trans in H.
  destruct H; try (destruct d); try (destruct b);
    unfold increaseSize; try case_decide;
    (split; simpl; unfold notify_all; simpl;
     [ intros w' pc' Hw' C | intros w' Hm | intros d' i' j' Hc Hj | intros Hc
     | intros w' Hw' | intros w' Hw' ]);
    lookup_cases; simplify_eq/=; try done.
  all: try (by eauto using wf_owner, wf_held, wf_join, wf_destroyed, wf_stopcheck, wf_take).
  all: try match goal with
       | Hj : ?j < S ?i |- workers _ !! ?j = Some Exited =>
           destruct (decide (j = i)); [by simplify_eq | eapply wf_join; eauto with lia]
       | Hi : workers ?s !! ?i = None, Hc : caller ?s = InJoin _ ?i, Hm : tasksMutex ?s = Some _ |- _ =>
           rewrite (all_exited_free s i Hwf) in Hm by eauto using wf_join; done
       end.
  all: try match goal with x : wpc |- _ => destruct x; simplify_eq/= end.
  all: use_wf Hwf; simplify_eq/=; goal_lookup; simplify_eq/=; eauto.
  all: try lia.
  all: try by (match goal with H : workers ?s = [], H' : workers ?s !! _ = Some _ |- _ => rewrite H in H'; done end).
  all: try congruence.
  all: try by (match goal with pc : wpc |- _ => destruct pc; simplify_eq/=; eauto end).
  all: intuition congruence.
Qed.

(** ** The life cycle of a task *)

(** The task a worker is about to invoke. *)
Definition running_of (pc : wpc) : list handle :=
  match pc with
  | Running h => [h]
  | _ => []
  end.

(** Tasks popped from the deque and not yet invoked. *)
Definition torun (s : state V) : list handle := workers s ≫= running_of.

Lemma bind_insert_perm {A B} (f : A -> list B) (l : list A) i x y :
  l !! i = Some x -> f x ++ (<[i := y]> l ≫= f) ≡ₚ f y ++ (l ≫= f).
Proof.
  intros Hi. rewrite insert_take_drop by eauto using lookup_lt_Some.
  rewrite <-(take_drop_middle l i x) at 3 by done.
  rewrite !bind_app, !bind_cons. solve_Permutation.
Qed.

Lemma torun_goto_idle (ws : list wpc) w pc pc' :
  ws !! w = Some pc -> running_of pc = [] -> running_of pc' = [] ->
  <[w := pc']> ws ≫= running_of ≡ₚ ws ≫= running_of.
Proof.
  intros Hw E E'. pose proof (bind_insert_perm running_of ws w pc pc' Hw) as P.
  by rewrite E, E' in P.
Qed.

Lemma torun_goto_start (ws : list wpc) w pc h :
  ws !! w = Some pc -> running_of pc = [] ->
  <[w := Running h]> ws ≫= running_of ≡ₚ h :: (ws ≫= running_of).
Proof.
  intros Hw E. pose proof (bind_insert_perm running_of ws w pc (Running h) Hw) as P.
  by rewrite E in P.
Qed.

Lemma torun_goto_stop (ws : list wpc) w h pc' :
  ws !! w = Some (Running h) -> running_of pc' = [] ->
  h :: (<[w := pc']> ws ≫= running_of) ≡ₚ ws ≫= running_of.
Proof.
  intros Hw E'. pose proof (bind_insert_perm running_of ws w (Running h) pc' Hw) as P.
  by rewrite E' in P.
Qed.

Lemma torun_wake (ws : list wpc) : (wake <$> ws) ≫= running_of = ws ≫= running_of.
Proof.
  induction ws as [|pc ws IH]; [done|]. rewrite fmap_cons, !bind_cons, IH. by destruct pc.
Qed.

Lemma torun_replicate n : replicate n AtLock ≫= running_of = [].
Proof. induction n as [|n IH]; [done|]. by rewrite replicate_S, bind_cons, IH. Qed.

Lemma elem_of_torun s h : h ∈ torun s <-> exists w, workers s !! w = Some (Running h).
Proof.
  unfold torun. rewrite list_elem_of_bind. split.
  - intros (pc & Hh & Hpc). destruct pc; simpl in Hh; try by apply elem_of_nil in Hh.
    apply list_elem_of_singleton in Hh as ->. by apply list_elem_of_lookup in Hpc.
  - intros (w & Hw). exists (Running h). split; [by apply list_elem_of_singleton|].
    apply list_elem_of_lookup; eauto.
Qed.

Lemma torun_all_exited (ws : list wpc) :
  (forall j pc, ws !! j = Some pc -> pc = Exited) -> ws ≫= running_of = [].
Proof.
  induction ws as [|pc ws IH]; intros H; [done|]. rewrite bind_cons.
  rewrite (H 0 pc eq_refl); simpl. apply IH. intros j pc' Hj. by apply (H (S j)).
Qed.


Lemma length_release_all (l : list handle) (hp : list (packaged_task V)) :
  length (foldr (λ h hp, alter release h hp) hp l) = length hp.
Proof. induction l as [|h l IH]; simpl; [done|]. by rewrite length_alter. Qed.

Record ids (s : state V) : Prop := Ids {
  ids_perm : tasks s ++ torun s ++ started s ++ discarded s ≡ₚ seq 0 (length (heap s));
  ids_finishing w h : workers s !! w = Some (Finishing h) -> h ∈ started s;
  ids_returning_nodup : NoDup (returning s);
  ids_returning h : h ∈ returning s -> h < length (heap s)
}.

Lemma all_exited s i :
  wf s -> (exists d, caller s = InJoin d i) -> workers s !! i = None ->
  forall j pc, workers s !! j = Some pc -> pc = Exited.
Proof.
  intros Hwf [d Hc] Hi j pc Hj.
  assert (j < i) as Hlt.
  { apply lookup_lt_Some in Hj. apply lookup_ge_None in Hi. lia. }
  rewrite (wf_join s Hwf d i j Hc Hlt) in Hj. by simplify_eq.
Qed.

Ltac torun_norm Hperm :=
  repeat first
    [ rewrite torun_wake
    | rewrite bind_app, torun_replicate, app_nil_r
    | match goal with
      | H : ?ws !! ?w = Some _ |- context [<[?w := Running ?h]> ?ws ≫= running_of] =>
          rewrite (torun_goto_start ws w _ h H) by done
      | H : ?ws !! ?w = Some (Running ?h) |- context [<[?w := ?pc]> ?ws ≫= running_of] =>
          rewrite <-(torun_goto_stop ws w h pc H) in Hperm by done
      | H : ?ws !! ?w = Some _ |- context [<[?w := ?pc]> ?ws ≫= running_of] =>
          rewrite (torun_goto_idle ws w _ pc H) by done
      end ].

Lemma step_ids e s s' : wf s -> ids s -> step e s = Some s' -> ids s'.
Proof.
  intros Hwf [Hperm Hfin Hnd Hret] H. apply step_trans in H.
  unfold torun in Hperm.
  destruct H; try (destruct d); try (destruct b);
    unfold increaseSize; try case_decide;
    (split; unfold torun; simpl; unfold notify_all; simpl;
     rewrite ?length_alter, ?length_insert, ?length_release_all, ?length_app;
     [ | intros w' h' Hw' | | intros h' Hh' ]);
    lookup_cases; simplify_eq/=; try done; eauto.
  all: try match goal with x : wpc |- _ => destruct x; simplify_eq/=; by eauto end.
  all: try (by apply NoDup_filter).
  all: try (apply list_elem_of_filter in Hh' as [_ Hh']; by eauto).
  all: try (rewrite elem_of_app; by eauto).
  all: try (rewrite elem_of_app, list_elem_of_singleton; by eauto).
  all: try (apply NoDup_app; split_and!; [done| |apply NoDup_singleton];
            intros x Hx%Hret ->%list_elem_of_singleton; lia).
  all: try (apply elem_of_app in Hh' as [Hh'%Hret| ->%list_elem_of_singleton]; lia).
  all: try match goal with
       | |- _ ≡ₚ _ =>
           try (erewrite (torun_all_exited (workers _)) in Hperm by (eapply all_exited; eauto));
           torun_norm Hperm;
           try match goal with H : tasks _ = _ |- _ => rewrite H in Hperm; rewrite ?H end;
           rewrite ?Nat.add_1_r, ?seq_S; simpl;
           rewrite <-Hperm; solve_Permutation
       end.
Qed.


(** Tasks owned by a closure that has not been invoked yet. *)
Definition pend (s : state V) : list handle := tasks s ++ torun s.

(** What one transition does to the packaged tasks and to the lists that
    classify them. *)
Inductive effect (s s' : state V) : Prop :=
  | eff_none :
      heap s' = heap s -> returning s' = returning s -> pend s' ≡ₚ pend s ->
      started s' = started s -> discarded s' = discarded s -> effect s s'
  | eff_submit f :
      heap s' = heap s ++ [PackagedTask f Pending 2] ->
      returning s' = returning s ++ [length (heap s)] ->
      pend s' ≡ₚ pend s ++ [length (heap s)] ->
      started s' = started s -> discarded s' = discarded s -> effect s s'
  | eff_return h :
      h ∈ returning s ->
      heap s' = alter release h (heap s) ->
      returning s' = filter (λ x, x ≠ h) (returning s) -> pend s' ≡ₚ pend s ->
      started s' = started s -> discarded s' = discarded s -> effect s s'
  | eff_finish h :
      h ∈ started s ->
      heap s' = alter release h (heap s) ->
      returning s' = returning s -> pend s' ≡ₚ pend s ->
      started s' = started s -> discarded s' = discarded s -> effect s s'
  | eff_clear :
      heap s' = foldr (λ h hp, alter release h hp) (heap s) (tasks s) ->
      returning s' = returning s -> pend s' ≡ₚ torun s ->
      started s' = started s -> discarded s' = discarded s ++ tasks s -> effect s s'
  | eff_run h t :
      heap s !! h = Some t -> sstate t = Pending ->
      heap s' = <[h := PackagedTask (body t) (Ready (body t tt)) (use_count t)]> (heap s) ->
      returning s' = returning s -> pend s ≡ₚ h :: pend s' ->
      started s' = started s ++ [h] -> discarded s' = discarded s -> effect s s'
  | eff_rerun h t r :
      h ∈ torun s -> heap s !! h = Some t -> sstate t = Ready r -> effect s s'.

Lemma trans_effect e s s' : wf s -> ids s -> trans e s s' -> effect s s'.
Proof.
  intros Hwf Hids H.
  destruct H; try (destruct d); try (destruct b);
    unfold increaseSize; try case_decide.
  all: try (apply eff_none; unfold pend, torun; simpl; unfold notify_all; simpl; try done;
            by torun_norm False).
  - by eapply eff_submit; unfold pend, torun; simpl; try done; solve_Permutation.
  - by eapply eff_return.
  - eapply eff_return; unfold pend, torun; simpl; try done. by torun_norm False.
  - apply eff_clear; unfold pend, torun; simpl; done.
  - apply eff_clear; unfold pend, torun; simpl; try done.
    by rewrite (torun_all_exited (workers s)) by eauto using all_exited.
  - apply eff_none; unfold pend, torun; simpl; try done.
    by rewrite (torun_all_exited (workers s)) by eauto using all_exited.
  - apply eff_none; unfold pend, torun; simpl; try done.
    torun_norm False. rewrite H0. solve_Permutation.
  - eapply eff_run; unfold pend, torun; simpl; try done.
    assert (Hp := torun_goto_stop (workers s) w h (Finishing h) H eq_refl).
    rewrite <-Hp. solve_Permutation.
  - eapply eff_rerun; try done. apply elem_of_torun; eauto.
  - eapply eff_finish; unfold pend, torun; simpl; try done.
    + eapply ids_finishing; eauto.
    + by torun_norm False.
Qed.


(** The state of a future whose task was destroyed before it ran. *)
Definition broken : shared_state V := Ready (Throws (FutureError broken_promise)).

Record entry_ok (s : state V) (h : handle) (t : packaged_task V) : Prop := EntryOk {
  ok_pend :
    h ∈ pend s ->
    sstate t = Pending /\ use_count t = (if decide (h ∈ returning s) then 2 else 1);
  ok_started : h ∈ started s -> sstate t = Ready (body t tt);
  ok_discarded :
    h ∈ discarded s ->
    if decide (h ∈ returning s) then sstate t = Pending /\ use_count t = 1
    else sstate t = broken
}.

Definition life (s : state V) : Prop :=
  forall h t, heap s !! h = Some t -> entry_ok s h t.

Lemma body_release (t : packaged_task V) : body (release t) = body t.
Proof. unfold release, abandon. simpl. repeat case_match; done. Qed.

Lemma release_ready (t : packaged_task V) r :
  sstate t = Ready r -> sstate (release t) = Ready r.
Proof. intros E. unfold release, abandon. simpl. rewrite E. by case_decide. Qed.

Lemma release_shared (t : packaged_task V) :
  sstate t = Pending -> use_count t = 2 ->
  sstate (release t) = Pending /\ use_count (release t) = 1.
Proof. intros E C. unfold release. simpl. rewrite C. by case_decide. Qed.

Lemma release_last (t : packaged_task V) :
  sstate t = Pending -> use_count t = 1 -> sstate (release t) = broken.
Proof.
  intros E C. unfold release, abandon. simpl. rewrite C, E. by case_decide.
Qed.

Lemma lookup_release_all (l : list handle) (hp : list (packaged_task V)) h :
  NoDup l ->
  foldr (λ h hp, alter release h hp) hp l !! h =
  if decide (h ∈ l) then release <$> hp !! h else hp !! h.
Proof.
  induction l as [|x l IH]; intros Hnd; cbn [foldr].
  - case_decide as Hin; [by apply elem_of_nil in Hin | done].
  - apply NoDup_cons in Hnd as [Hx Hnd].
    destruct (decide (x = h)) as [->|Hne].
    + rewrite list_lookup_alter_eq, IH by done. rewrite decide_False by done.
      rewrite decide_True; [done | apply list_elem_of_here].
    + rewrite list_lookup_alter_ne, IH by done. case_decide as Hin.
      * rewrite decide_True; [done | by apply list_elem_of_further].
      * rewrite decide_False; [done|]. rewrite elem_of_cons. naive_solver.
Qed.

Lemma ids_nodup s : ids s -> NoDup (tasks s ++ torun s ++ started s ++ discarded s).
Proof. intros H. rewrite (ids_perm s H). apply NoDup_seq. Qed.

Lemma ids_bound s h :
  ids s -> h ∈ tasks s ++ torun s ++ started s ++ discarded s <-> h < length (heap s).
Proof. intros H. rewrite (ids_perm s H), elem_of_seq. lia. Qed.

Lemma ids_pend_nodup s : ids s -> NoDup (pend s).
Proof.
  intros H%ids_nodup. rewrite app_assoc in H. by apply NoDup_app in H as [? _].
Qed.

Lemma ids_pend_started s h : ids s -> h ∈ pend s -> h ∈ started s -> False.
Proof.
  intros H%ids_nodup Hp Hs. rewrite app_assoc in H.
  apply NoDup_app in H as (_ & H & _). apply (H h Hp). rewrite !elem_of_app; auto.
Qed.

Lemma ids_pend_discarded s h : ids s -> h ∈ pend s -> h ∈ discarded s -> False.
Proof.
  intros H%ids_nodup Hp Hs. rewrite app_assoc in H.
  apply NoDup_app in H as (_ & H & _). apply (H h Hp). rewrite !elem_of_app; auto.
Qed.

Lemma ids_started_discarded s h : ids s -> h ∈ started s -> h ∈ discarded s -> False.
Proof.
  intros H%ids_nodup Hp Hs. rewrite app_assoc in H.
  apply NoDup_app in H as (_ & _ & H). apply NoDup_app in H as (_ & H & _). by apply (H h).
Qed.

Lemma ids_tasks_torun s h : ids s -> h ∈ tasks s -> h ∈ torun s -> False.
Proof.
  intros H%ids_nodup Hp Hs. apply NoDup_app in H as (_ & H & _).
  apply (H h Hp). rewrite !elem_of_app; auto.
Qed.


Lemma effect_life s s' : ids s -> life s -> effect s s' -> life s'.
Proof.
  intros Hids Hlife Heff h t'.
  destruct Heff as
    [Hh Hr Hp Hs Hd | f Hh Hr Hp Hs Hd | h0 Hin Hh Hr Hp Hs Hd | h0 Hin Hh Hr Hp Hs Hd
    | Hh Hr Hp Hs Hd | h0 t0 Ht0 Hpend0 Hh Hr Hp Hs Hd | h0 t0 r Hin Ht0 Hr0 ].
  - (* nothing happens to the tasks *)
    rewrite Hh. intros Ht. destruct (Hlife h t' Ht) as [O1 O2 O3].
    split; rewrite ?Hp, ?Hr, ?Hs, ?Hd; done.
  - (* submit *)
    rewrite Hh. intros [Ht | [Hlen Ht]]%lookup_app_Some.
    + destruct (Hlife h t' Ht) as [O1 O2 O3]. apply lookup_lt_Some in Ht.
      assert (h ∈ returning s ++ [length (heap s)] <-> h ∈ returning s) as Hiff.
      { rewrite elem_of_app, list_elem_of_singleton. split; [intros [?|?]; [done|lia]|auto]. }
      split; rewrite ?Hp, ?Hr, ?Hs, ?Hd.
      * rewrite elem_of_app, list_elem_of_singleton. intros [Hi| ->]; [|lia].
        destruct (O1 Hi) as [? ?]. split; [done|]. by rewrite (decide_ext _ _ _ _ Hiff).
      * done.
      * intros Hi. specialize (O3 Hi). by rewrite (decide_ext _ _ _ _ Hiff).
    + apply list_lookup_singleton_Some in Ht as [Hz <-].
      assert (h = length (heap s)) as -> by lia.
      split; rewrite ?Hp, ?Hr, ?Hs, ?Hd; simpl.
      * intros _. split; [done|]. rewrite decide_True; [done|].
        rewrite elem_of_app, list_elem_of_singleton. auto.
      * intros Hi. assert (length (heap s) < length (heap s)); [|lia].
        apply (ids_bound s _ Hids). rewrite !elem_of_app. auto.
      * intros Hi. assert (length (heap s) < length (heap s)); [|lia].
        apply (ids_bound s _ Hids). rewrite !elem_of_app. auto.
  - (* submit returns *)
    rewrite Hh. destruct (decide (h0 = h)) as [->|Hne].
    + rewrite list_lookup_alter_eq. intros (t & Ht & ->)%fmap_Some.
      destruct (Hlife h t Ht) as [O1 O2 O3].
      assert (h ∉ filter (λ x, x ≠ h) (returning s)) as Hout.
      { rewrite list_elem_of_filter. naive_solver. }
      split; rewrite ?Hp, ?Hr, ?Hs, ?Hd, ?body_release.
      * intros Hi. destruct (O1 Hi) as [E C]. rewrite decide_True in C by done.
        rewrite decide_False by done. by apply release_shared.
      * intros Hi. by apply release_ready, O2.
      * intros Hi. specialize (O3 Hi). rewrite decide_True in O3 by done.
        rewrite decide_False by done. destruct O3. by apply release_last.
    + rewrite list_lookup_alter_ne by done. intros Ht.
      destruct (Hlife h t' Ht) as [O1 O2 O3].
      assert (h ∈ filter (λ x, x ≠ h0) (returning s) <-> h ∈ returning s) as Hiff.
      { rewrite list_elem_of_filter. naive_solver. }
      split; rewrite ?Hp, ?Hr, ?Hs, ?Hd; rewrite ?(decide_ext _ _ _ _ Hiff); done.
  - (* a worker drops its closure *)
    rewrite Hh. destruct (decide (h0 = h)) as [->|Hne].
    + rewrite list_lookup_alter_eq. intros (t & Ht & ->)%fmap_Some.
      destruct (Hlife h t Ht) as [O1 O2 O3].
      split; rewrite ?Hp, ?Hr, ?Hs, ?Hd, ?body_release.
      * intros Hi. destruct (ids_pend_started s h Hids Hi Hin).
      * intros Hi. by apply release_ready, O2.
      * intros Hi. destruct (ids_started_discarded s h Hids Hin Hi).
    + rewrite list_lookup_alter_ne by done. intros Ht.
      destruct (Hlife h t' Ht) as [O1 O2 O3].
      split; rewrite ?Hp, ?Hr, ?Hs, ?Hd; done.
  - (* the deque is emptied *)
    assert (NoDup (tasks s)) as Hnd.
    { pose proof (ids_nodup s Hids) as H. by apply NoDup_app in H as [? _]. }
    rewrite Hh, lookup_release_all by done. case_decide as Hq.
    + intros (t & Ht & ->)%fmap_Some.
      assert (h ∈ pend s) as Hi by (unfold pend; rewrite elem_of_app; auto).
      destruct (Hlife h t Ht) as [O1 O2 O3]. destruct (O1 Hi) as [E C].
      split; rewrite ?Hp, ?Hr, ?Hs, ?Hd, ?body_release.
      * intros Hi'. destruct (ids_tasks_torun s h Hids Hq Hi').
      * intros Hi'. destruct (ids_pend_started s h Hids Hi Hi').
      * intros _. case_decide; [by apply release_shared | by apply release_last].
    + intros Ht. destruct (Hlife h t' Ht) as [O1 O2 O3].
      split; rewrite ?Hp, ?Hr, ?Hs, ?Hd.
      * intros Hi. apply O1. unfold pend. rewrite elem_of_app. auto.
      * done.
      * rewrite elem_of_app. intros [Hi|Hi]; [by apply O3 | done].
  - (* a task runs *)
    assert (NoDup (h0 :: pend s')) as [Hout Hnd]%NoDup_cons.
    { rewrite <-Hp. by apply ids_pend_nodup. }
    assert (h0 ∈ pend s) as Hin0 by (rewrite Hp; apply list_elem_of_here).
    rewrite Hh. destruct (decide (h0 = h)) as [->|Hne].
    + rewrite list_lookup_insert_eq by eauto using lookup_lt_Some.
      intros [= <-]. split; rewrite ?Hr, ?Hs, ?Hd; simpl.
      * done.
      * done.
      * intros Hi. destruct (ids_pend_discarded s h Hids Hin0 Hi).
    + rewrite list_lookup_insert_ne by done. intros Ht.
      destruct (Hlife h t' Ht) as [O1 O2 O3].
      split; rewrite ?Hr, ?Hs, ?Hd.
      * intros Hi. apply O1. rewrite Hp. by apply list_elem_of_further.
      * rewrite elem_of_app, list_elem_of_singleton. intros [Hi|Hi]; [auto | done].
      * done.
  - (* a task that is about to run has not run *)
    destruct (Hlife h0 t0 Ht0) as [O1 _ _].
    destruct O1 as [E _]; [unfold pend; rewrite elem_of_app; auto | congruence].
Qed.

Lemma step_life e s s' : wf s -> ids s -> life s -> step e s = Some s' -> life s'.
Proof. eauto using effect_life, trans_effect, step_trans. Qed.


(** ** Reachable states *)

Definition inv (s : state V) : Prop := wf s /\ ids s /\ life s.

Lemma workers_ThreadPool n :
  workers (ThreadPool (V := V) n) = replicate (if decide (n = 0) then 1 else n) AtLock.
Proof.
  unfold ThreadPool, increaseSize. simpl.
  case_decide as Hn; [|by rewrite Nat.sub_0_r].
  assert ((if decide (n = 0) then 1 else n) = 0) as E by lia.
  case_decide; lia.
Qed.

Lemma fields_ThreadPool n :
  let s := ThreadPool (V := V) n in
  tasks s = [] /\ tasksMutex s = None /\ stopping s = false /\ activeWorkers s = 0%Z /\
  heap s = [] /\ returning s = [] /\ caller s = Idle /\ cerr s = [] /\
  dequeued s = [] /\ started s = [] /\ discarded s = [] /\ joined s = 0.
Proof. unfold ThreadPool, increaseSize. simpl. by case_decide. Qed.

Lemma inv_ThreadPool n : inv (ThreadPool n).
Proof.
  pose proof (workers_ThreadPool n) as Hw.
  destruct (fields_ThreadPool n) as (Ht & Hm & Hst & Ha & Hh & Hr & Hc & He & Hd & Hs & Hx & Hj).
  split; [|split].
  - split; rewrite ?Hw, ?Hm, ?Hc; try done.
    + intros w pc [-> _]%lookup_replicate. done.
    + intros w [? _]%lookup_replicate. done.
    + intros w [? _]%lookup_replicate. done.
  - split; unfold torun; rewrite ?Hw, ?Ht, ?Hs, ?Hx, ?Hh, ?Hr, ?torun_replicate; try done.
    + intros w h [? _]%lookup_replicate. done.
    + apply NoDup_nil_2.
    + intros h Hin. by apply elem_of_nil in Hin.
  - intros h t. by rewrite Hh.
Qed.

Lemma step_inv e s s' : inv s -> step e s = Some s' -> inv s'.
Proof.
  intros (Hwf & Hids & Hlife) H.
  split_and!; eauto using step_wf, step_ids, step_life.
Qed.

Lemma exec_app (tr1 tr2 : list (event V)) s :
  exec (tr1 ++ tr2) s = exec tr1 s ≫= exec tr2.
Proof.
  revert s. induction tr1 as [|e tr1 IH]; intros s; simpl; [done|].
  destruct (step e s); [apply IH | done].
Qed.

Lemma exec_app_Some (tr1 tr2 : list (event V)) s s' :
  exec (tr1 ++ tr2) s = Some s' <-> exists s1, exec tr1 s = Some s1 /\ exec tr2 s1 = Some s'.
Proof. rewrite exec_app, bind_Some. done. Qed.

(** Induction along a schedule whose events all satisfy [A]. *)
Lemma exec_ind (A : event V -> Prop) (P : state V -> Prop) :
  (forall e s s', A e -> P s -> step e s = Some s' -> P s') ->
  forall tr s s', Forall A tr -> P s -> exec tr s = Some s' -> P s'.
Proof.
  intros Hstep tr. induction tr as [|e tr IH]; intros s s' HA HP H; simpl in H.
  - by simplify_eq.
  - apply Forall_cons in HA as [He HA].
    destruct (step e s) as [s1|] eqn:Hs; [|done]. eauto.
Qed.

Lemma exec_inv tr s s' : inv s -> exec tr s = Some s' -> inv s'.
Proof.
  intros Hs H. eapply (exec_ind (λ _, True)); [| |exact Hs|exact H].
  - eauto using step_inv.
  - by apply Forall_true.
Qed.

Lemma reachable_inv n tr s : exec tr (ThreadPool n) = Some s -> inv s.
Proof. apply exec_inv, inv_ThreadPool. Qed.

(** A worker never re-invokes a task, so nothing is ever written to [cerr],
    and the bodies of the tasks are the submitted callables. *)
Lemma step_cerr e s s' : inv s -> step e s = Some s' -> cerr s' = cerr s.
Proof.
  intros (Hwf & Hids & Hlife) H. apply step_trans in H.
  destruct H; try (destruct d); try (destruct b);
    unfold increaseSize; try case_decide; try done.
  destruct (Hlife h t H0) as [O1 _ _].
  destruct O1 as [E _]; [|congruence].
  unfold pend. rewrite elem_of_app, elem_of_torun. eauto.
Qed.

Lemma body_alter_release h (hp : list (packaged_task V)) :
  body <$> alter release h hp = body <$> hp.
Proof.
  apply list_eq. intros i. rewrite !list_lookup_fmap.
  destruct (decide (h = i)) as [->|];
    [rewrite list_lookup_alter_eq | by rewrite list_lookup_alter_ne].
  destruct (hp !! i); simpl; [by rewrite body_release | done].
Qed.

Lemma body_release_all (l : list handle) (hp : list (packaged_task V)) :
  body <$> foldr (λ h hp, alter release h hp) hp l = body <$> hp.
Proof.
  induction l as [|h l IH]; simpl; [done|]. by rewrite body_alter_release.
Qed.

Lemma step_bodies e s s' :
  step e s = Some s' ->
  body <$> heap s' = (body <$> heap s) ++ submitted [e].
Proof.
  intros H. apply step_trans in H.
  destruct H; try (destruct d); try (destruct b);
    unfold increaseSize; try case_decide; unfold submitted; simpl;
    rewrite ?app_nil_r, ?body_release_all, ?body_alter_release; try done.
  - by rewrite fmap_app.
  - rewrite list_fmap_insert. simpl. apply list_insert_id.
    by rewrite list_lookup_fmap, H0.
  - rewrite list_fmap_insert. simpl. apply list_insert_id.
    by rewrite list_lookup_fmap, H0.
Qed.

Lemma submitted_app (tr1 tr2 : list (event V)) :
  submitted (tr1 ++ tr2) = submitted tr1 ++ submitted tr2.
Proof. apply bind_app. Qed.

Lemma exec_bodies tr s s' :
  exec tr s = Some s' -> body <$> heap s' = (body <$> heap s) ++ submitted tr.
Proof.
  revert s. induction tr as [|e tr IH]; intros s H; simpl in H.
  - simplify_eq. by rewrite app_nil_r.
  - destruct (step e s) as [s1|] eqn:Hs; [|done].
    rewrite (IH s1 H), (step_bodies e s s1 Hs), <-app_assoc.
    by rewrite <-submitted_app.
Qed.

Lemma exec_cerr tr s s' : inv s -> exec tr s = Some s' -> cerr s' = cerr s.
Proof.
  revert s. induction tr as [|e tr IH]; intros s Hinv H; simpl in H.
  - by simplify_eq.
  - destruct (step e s) as [s1|] eqn:Hs; [|done].
    rewrite (IH s1); eauto using step_inv, step_cerr.
Qed.


(** * Pool size *)

Lemma workers_increaseSize t s :
  workers (increaseSize t s) = workers s ++ replicate (t - length (workers s)) AtLock.
Proof.
  unfold increaseSize. case_decide as Hle; simpl; [|done].
  replace (t - length (workers s)) with 0 by lia. by rewrite app_nil_r.
Qed.

Lemma length_workers_increaseSize t s :
  length (workers (increaseSize t s)) = t `max` length (workers s).
Proof. rewrite workers_increaseSize, length_app, length_replicate. lia. Qed.

(** The only step that makes the worker set smaller is line 110 of
    [shutdown], which empties it. *)
Lemma step_workers_length e s s' :
  step e s = Some s' ->
  length (workers s) <= length (workers s') \/
  (e = Owner /\ (exists d i, caller s = InJoin d i) /\ workers s' = []).
Proof.
  intros H. apply step_trans in H.
  destruct H; try (destruct d);
    try (left; simpl; unfold notify_all; simpl;
         rewrite ?length_insert, ?length_fmap, ?length_workers_increaseSize; try done; lia).
  - left. by destruct b.
  - right. eauto.
  - right. eauto.
Qed.

(** C8: [increaseSize t] (the spec's [grow_to]) changes nothing when [t] is
    at most the current worker count [c]; otherwise it appends exactly
    [t - c] threads, each at the top of [workerLoop], after the existing [c]
    workers, whose control points it leaves as they are, and touches no
    other member.  So growing to 4 and then to 2 leaves 4 workers, growing to
    4 and then to 10 leaves 10, and the only step of any thread that makes
    the worker set smaller is the end of [shutdown], which empties it. *)
Theorem C8_increaseSize_monotonic (s : state V) (t : nat) :
  let c := length (workers s) in
  (t <= c -> increaseSize t s = s) /\
  (c < t ->
     workers (increaseSize t s) = workers s ++ replicate (t - c) AtLock /\
     length (workers (increaseSize t s)) = t /\
     spawned (increaseSize t s) = spawned s + (t - c) /\
     (forall w pc, workers s !! w = Some pc -> workers (increaseSize t s) !! w = Some pc) /\
     with_spawned (spawned s) (with_workers (workers s) (increaseSize t s)) = s) /\
  (c <= 4 -> length (workers (increaseSize 2 (increaseSize 4 s))) = 4) /\
  (c <= 10 -> length (workers (increaseSize 10 (increaseSize 4 s))) = 10) /\
  (forall e s', step e s = Some s' ->
     c <= length (workers s') \/
     (e = Owner /\ (exists d i, caller s = InJoin d i) /\ workers s' = [])).
Proof.
  intros c. subst c. split_and!.
  - intros Hle. unfold increaseSize. by rewrite decide_True.
  - intros Hlt. rewrite length_workers_increaseSize, workers_increaseSize.
    split_and!; try done; try lia.
    + unfold increaseSize. rewrite decide_False by lia. done.
    + intros w pc Hw. by apply lookup_app_l_Some.
    + unfold increaseSize. rewrite decide_False by lia. by destruct s.
  - intros Hle. rewrite !length_workers_increaseSize. lia.
  - intros Hle. rewrite !length_workers_increaseSize. lia.
  - intros e s'. apply step_workers_length.
Qed.

(** C9: the constructor starts exactly [max n 1] workers, each at the top of
    [workerLoop]: a request for 0 becomes 1, every other request is taken as
    it is, and no request is rejected.  The other members keep their default
    initialisers. *)
Theorem C9_constructor_coerces (n : nat) :
  workers (ThreadPool (V := V) n) = replicate (n `max` 1) AtLock /\
  length (workers (ThreadPool (V := V) n)) = n `max` 1 /\
  spawned (ThreadPool (V := V) n) = n `max` 1 /\
  length (workers (ThreadPool (V := V) 0)) = 1 /\
  with_spawned 0 (with_workers [] (ThreadPool (V := V) n)) = fresh.
Proof.
  rewrite workers_ThreadPool, length_replicate.
  assert ((if decide (n = 0) then 1 else n) = n `max` 1) as -> by (case_decide; lia).
  split_and!; try done.
  unfold ThreadPool, increaseSize. simpl. repeat case_decide; simpl; lia.
  unfold ThreadPool, increaseSize. simpl. repeat case_decide; simpl; done.
Qed.


(** ** Order of the deque *)

Record order (s : state V) : Prop := Order {
  ord_perm : dequeued s ≡ₚ started s ++ torun s;
  ord_sorted : StronglySorted lt (dequeued s ++ tasks s);
  ord_exact : discarded s = [] -> dequeued s ++ tasks s = seq 0 (length (heap s))
}.

Lemma order_bound s h : ids s -> order s -> h ∈ dequeued s ++ tasks s -> h < length (heap s).
Proof.
  intros Hids Hord Hin. apply (ids_bound s h Hids).
  rewrite elem_of_app, (ord_perm s Hord) in Hin. rewrite !elem_of_app in *. tauto.
Qed.

Lemma step_order e s s' : wf s -> ids s -> order s -> step e s = Some s' -> order s'.
Proof.
  intros Hwf Hids [Hperm Hsort Hexact] H.
  assert (Hbound := λ h, order_bound s h Hids (Order _ Hperm Hsort Hexact)).
  apply step_trans in H. unfold torun in Hperm.
  destruct H; try (destruct d); try (destruct b);
    unfold increaseSize; try case_decide;
    (split; unfold torun; simpl; unfold notify_all; simpl;
     rewrite ?length_alter, ?length_insert, ?length_release_all, ?length_app;
     [ | | intros Hnil ]); try done; eauto.
  all: try match goal with
       | |- _ ≡ₚ _ =>
           try (erewrite (torun_all_exited (workers _)) in Hperm by (eapply all_exited; eauto));
           torun_norm Hperm;
           rewrite Hperm; solve_Permutation
       end.
  all: try match goal with
       | H : tasks _ = ?h :: ?q |- context [(_ ++ [?h]) ++ ?q] =>
           rewrite <-app_assoc; simpl; rewrite <-H; by auto
       | |- StronglySorted _ (_ ++ []) =>
           rewrite app_nil_r; by eapply StronglySorted_app_1_l
       | Hnil : discarded _ ++ tasks _ = [] |- _ =>
           apply app_eq_nil in Hnil as [Hnil Ht]; rewrite <-Hexact, Ht by done; done
       end.
  - rewrite app_assoc. apply StronglySorted_app_2; [|done|repeat constructor].
    intros x1 x2 Hx1 ->%list_elem_of_singleton. by apply Hbound.
  - simpl. by rewrite Nat.add_1_r, seq_S, app_assoc, Hexact.
Qed.

Lemma order_ThreadPool n : order (ThreadPool n).
Proof.
  destruct (fields_ThreadPool n) as (Ht & Hm & Hst & Ha & Hh & Hr & Hc & He & Hd & Hs & Hx & Hj).
  split; unfold torun; rewrite ?workers_ThreadPool, ?torun_replicate, ?Ht, ?Hd, ?Hs, ?Hh; try done.
  constructor.
Qed.

Lemma reachable_order n tr s : exec tr (ThreadPool n) = Some s -> order s.
Proof.
  intros H.
  cut (inv s /\ order s); [tauto|].
  eapply (exec_ind (λ _, True) (λ s, inv s /\ order s)); [| |split|exact H].
  - intros e s1 s2 _ [Hinv Hord] Hstep. split; [by eapply step_inv|].
    destruct Hinv as (? & ? & ?). by eapply step_order.
  - by apply Forall_true.
  - apply inv_ThreadPool.
  - apply order_ThreadPool.
Qed.


(** ** A pool that never has more than one worker *)

Definition small (e : event V) : Prop :=
  match e with
  | IncreaseSize n => n <= 1
  | _ => True
  end.

Record single (s : state V) : Prop := Single {
  single_workers : length (workers s) <= 1;
  single_order : started s ++ torun s = dequeued s
}.

Lemma step_single e s s' :
  wf s -> small e -> single s -> step e s = Some s' -> single s'.
Proof.
  intros Hwf He [Hlen Hord] H. apply step_trans in H. unfold torun in Hord.
  destruct (workers s) as [|pc [|pc' ws]] eqn:Hws; simpl in Hlen; try lia.
  - (* no worker *)
    destruct H; try (destruct d); try (destruct b);
      unfold increaseSize; try case_decide;
      rewrite ?Hws in *; simplify_eq/=;
      (split; unfold torun; simpl; unfold notify_all; simpl; rewrite ?Hws; simpl;
       rewrite ?length_replicate, ?torun_replicate; try done; try lia).
  - (* one worker *)
    simpl in Hord. rewrite app_nil_r in Hord.
    destruct H; try (destruct d); try (destruct b);
      unfold increaseSize; try case_decide;
      rewrite ?Hws in *;
      repeat match goal with
      | H : [_] !! ?w = Some _ |- _ => destruct w as [|?]; simplify_eq/=
      end;
      (split; unfold torun; simpl; unfold notify_all; simpl; rewrite ?Hws; simpl;
       rewrite ?length_replicate, ?torun_replicate, ?app_nil_r in *; try done; try lia).
    + by destruct pc.
    + by destruct pc.
    + rewrite <-Hws in H0.
      assert (pc = Exited) as ->.
      { apply (all_exited s i Hwf (ex_intro _ _ H) H0 0). by rewrite Hws. }
      by rewrite app_nil_r in Hord.
    + rewrite <-Hws in H0.
      assert (pc = Exited) as ->.
      { apply (all_exited s i Hwf (ex_intro _ _ H) H0 0). by rewrite Hws. }
      by rewrite app_nil_r in Hord.
    + by rewrite Hord.
Qed.

Lemma single_ThreadPool n : n <= 1 -> single (ThreadPool n).
Proof.
  intros Hn.
  destruct (fields_ThreadPool n) as (Ht & Hm & Hst & Ha & Hh & Hr & Hc & He & Hd & Hs & Hx & Hj).
  split; unfold torun; rewrite ?workers_ThreadPool, ?torun_replicate, ?Hd, ?Hs; try done.
  rewrite length_replicate. case_decide; lia.
Qed.

Lemma reachable_single n tr s :
  n <= 1 -> Forall small tr -> exec tr (ThreadPool n) = Some s -> single s.
Proof.
  intros Hn Htr H.
  cut (inv s /\ single s); [tauto|].
  eapply (exec_ind small (λ s, inv s /\ single s)); [|exact Htr|split|exact H].
  - intros e s1 s2 He [Hinv Hsin] Hstep. split; [by eapply step_inv|].
    destruct Hinv as (? & ? & ?). by eapply step_single.
  - apply inv_ThreadPool.
  - by apply single_ThreadPool.
Qed.


(** * Shutdown that waits for the tasks *)

(** Events of a pool on which neither [shutdown] nor the destructor has
    been called. *)
Definition calm (e : event V) : Prop :=
  match e with
  | Shutdown _ | Destroy => False
  | _ => True
  end.

(** Events of the workers, of the thread inside [shutdown], and of calls of
    [submit] that are already past line 61: no new call of a member. *)
Definition quiet (e : event V) : Prop :=
  match e with
  | Submit _ | IncreaseSize _ | Shutdown _ | Destroy => False
  | _ => True
  end.

(** Before the first [shutdown]. *)
Record serving (s : state V) : Prop := Serving {
  srv_caller : caller s = Idle;
  srv_stopping : stopping s = false;
  srv_workers : 1 <= length (workers s);
  srv_live w : workers s !! w <> Some Exited;
  srv_discarded : discarded s = [];
  srv_joined : joined s = 0;
  srv_spawned : spawned s = length (workers s)
}.

Lemma serving_ThreadPool n : serving (ThreadPool n).
Proof.
  destruct (fields_ThreadPool n) as (Ht & Hm & Hst & Ha & Hh & Hr & Hc & He & Hd & Hs & Hx & Hj).
  split; rewrite ?workers_ThreadPool, ?length_replicate; try done.
  - case_decide; lia.
  - intros w [? _]%lookup_replicate. done.
  - unfold ThreadPool, increaseSize. simpl. repeat case_decide; simpl; lia.
Qed.

Lemma step_serving e s s' : calm e -> serving s -> step e s = Some s' -> serving s'.
Proof.
  intros He [Hc Hst Hlen Hlive Hd Hj Hsp] H. apply step_trans in H.
  destruct H; try done; try congruence;
    unfold increaseSize; try case_decide;
    (split; simpl; rewrite ?length_insert, ?length_app, ?length_replicate;
     try done; try lia; try congruence).
  all: intros w' Hw'; lookup_cases; simplify_eq/=; by eapply Hlive.
Qed.


(** After [shutdown(true)] has set [stopping], by the owner ([d = false]) or
    by the destructor ([d = true]). *)
Record draining (d : bool) (s : state V) : Prop := Draining {
  dr_stopping : stopping s = true;
  dr_discarded : discarded s = [];
  dr_exited w : workers s !! w = Some Exited -> tasks s = [];
  dr_phase :
    match caller s with
    | InNotify d' =>
        d' = d /\ 1 <= length (workers s) /\ joined s = 0 /\
        spawned s = length (workers s)
    | InJoin d' i =>
        d' = d /\ 1 <= length (workers s) /\ joined s = i /\
        i <= length (workers s) /\ spawned s = length (workers s)
    | Idle => d = false /\ workers s = [] /\ tasks s = [] /\ joined s = spawned s
    | Destroyed => d = true /\ workers s = [] /\ tasks s = [] /\ joined s = spawned s
    end
}.

Lemma begin_draining d s : serving s -> draining d (shutdown_begin true d s).
Proof.
  intros [Hc Hst Hlen Hlive Hd Hj Hsp]. split; simpl; try done.
  intros w Hw. by destruct (Hlive w).
Qed.

Lemma step_draining d e s s' :
  wf s -> quiet e \/ d = true -> draining d s -> step e s = Some s' -> draining d s'.
Proof.
  intros Hwf He [Hst Hd Hex Hph] H. apply step_trans in H.
  destruct H; try (destruct d0); try (destruct b);
    unfold increaseSize; try case_decide;
    try (destruct He as [He| ->]; [done|]);
    unfold alive in *; destruct (caller s) eqn:Hc; simplify_eq/=; destruct_and?;
    simplify_eq/=;
    try match goal with
    | H : workers ?s = [], H' : workers ?s !! _ = Some _ |- _ => by rewrite H in H'
    end;
    (split; simpl; unfold notify_all; simpl;
     rewrite ?Hc, ?length_insert, ?length_fmap; try done;
     try (intros w' Hw'; lookup_cases; simplify_eq/=; by eauto)).
  all: try (intros w' Hw'; lookup_cases;
            match goal with x : wpc |- _ => destruct x; simplify_eq/=; by eauto end).
  all: try (intros w' Hw'; lookup_cases; simplify_eq/=;
            match goal with
            | H : workers _ !! _ = Some Exited |- _ => apply Hex in H; congruence
            end).
  all: try match goal with
       | H : workers _ !! _ = Some _ |- _ => apply lookup_lt_Some in H
       | H : workers _ !! _ = None |- _ =>
           assert (tasks s = []) as Hnil
             by (apply (Hex 0), (wf_join s Hwf _ _ 0 Hc); apply lookup_ge_None in H; lia);
           apply lookup_ge_None in H
       end.
  all: rewrite ?Hnil, ?Hd; split_and?; try done; try lia.
Qed.


Lemma draining_not_alive s : draining true s -> alive s = false.
Proof.
  intros [_ _ _ Hph]. unfold alive. destruct (caller s) as [|[]|[]|]; try done.
  all: by destruct Hph as [? _].
Qed.


Lemma exec_serving tr s s' :
  Forall calm tr -> inv s -> serving s -> exec tr s = Some s' -> inv s' /\ serving s'.
Proof.
  intros Htr Hinv Hsrv H.
  eapply (exec_ind calm (λ s, inv s /\ serving s)); [|exact Htr|split; eassumption|exact H].
  intros e s1 s2 He [Hi Hs] Hstep. split; [by eapply step_inv | by eapply step_serving].
Qed.

Lemma exec_draining d tr s s' :
  d = true \/ Forall quiet tr -> inv s -> draining d s -> exec tr s = Some s' ->
  inv s' /\ draining d s' /\ body <$> heap s' = body <$> heap s.
Proof.
  intros Hd. revert s. induction tr as [|e tr IH]; intros s Hinv Hdr H; simpl in H.
  - by simplify_eq.
  - destruct (step e s) as [s1|] eqn:Hs; [|done].
    assert (quiet e \/ d = true) as He.
    { destruct Hd as [->|[He _]%Forall_cons]; auto. }
    assert (d = true \/ Forall quiet tr) as Hd'.
    { destruct Hd as [->|[_ Htr]%Forall_cons]; auto. }
    destruct (IH Hd' s1) as (Hinv' & Hdr' & Hb); try done.
    + by eapply step_inv.
    + destruct Hinv as (Hwf & _). by eapply step_draining.
    + split_and!; try done. rewrite Hb, (step_bodies e s s1 Hs).
      destruct He as [He| ->].
      * destruct e; try done; unfold submitted; simpl; by rewrite app_nil_r.
      * destruct e; try (unfold submitted; simpl; by rewrite app_nil_r).
        simpl in Hs. by rewrite (draining_not_alive s Hdr) in Hs.
Qed.

(** Once nothing is queued, held or discarded, every task has run. *)
Lemma all_started s :
  inv s -> tasks s = [] -> workers s = [] -> discarded s = [] ->
  forall h t, heap s !! h = Some t -> h ∈ started s /\ sstate t = Ready (body t tt).
Proof.
  intros (Hwf & Hids & Hlife) Ht Hw Hd h t Hh.
  assert (h ∈ started s) as Hin.
  { pose proof (lookup_lt_Some _ _ _ Hh) as Hlt.
    apply (ids_bound s h Hids) in Hlt. unfold torun in Hlt.
    by rewrite Ht, Hw, Hd, app_nil_r in Hlt. }
  split; [done|]. by apply (Hlife h t Hh).
Qed.

(** After [shutdown(true)] was called, by the owner ([d = false]) or by the
    destructor ([d = true]), on a pool that was never shut down before. *)
Lemma draining_reached d n tr1 tr2 s :
  Forall calm tr1 -> d = true \/ Forall quiet tr2 ->
  exec (tr1 ++ (if d then Destroy else Shutdown true) :: tr2) (ThreadPool n) = Some s ->
  inv s /\ draining d s /\ body <$> heap s = submitted tr1.
Proof.
  intros Hcalm Hquiet [s1 [H1 H2]]%exec_app_Some. simpl in H2.
  destruct (exec_serving tr1 _ s1 Hcalm (inv_ThreadPool n) (serving_ThreadPool n) H1)
    as [Hinv1 Hsrv1].
  pose proof (exec_bodies _ _ _ H1) as Hb1.
  rewrite (proj1 (proj2 (proj2 (proj2 (proj2 (fields_ThreadPool n)))))) in Hb1.
  set (ev := if d then Destroy else Shutdown true) in *.
  destruct (step ev s1) as [s2|] eqn:Hs; [|done].
  assert (s2 = shutdown_begin true d s1) as ->.
  { subst ev. destruct d; simpl in Hs; case_match; by simplify_eq. }
  assert (Hinv2 := step_inv _ _ _ Hinv1 Hs).
  destruct (exec_draining d tr2 _ s Hquiet Hinv2 (begin_draining d s1 Hsrv1) H2)
    as (Hinv & Hdr & Hb).
  split_and!; try done. by rewrite Hb.
Qed.

(** And when that call has run to its end. *)
Lemma drained d n tr1 tr2 s :
  Forall calm tr1 -> d = true \/ Forall quiet tr2 ->
  exec (tr1 ++ (if d then Destroy else Shutdown true) :: tr2) (ThreadPool n) = Some s ->
  caller s = (if d then Destroyed else Idle) ->
  tasks s = [] /\ workers s = [] /\ discarded s = [] /\ joined s = spawned s /\
  body <$> heap s = submitted tr1 /\
  (forall h t, heap s !! h = Some t -> h ∈ started s /\ sstate t = Ready (body t tt)) /\
  NoDup (started s).
Proof.
  intros Hcalm Hquiet H Hc.
  destruct (draining_reached d n tr1 tr2 s Hcalm Hquiet H) as (Hinv & [Hst Hd Hex Hph] & Hb).
  rewrite Hc in Hph.
  assert (workers s = [] /\ tasks s = [] /\ joined s = spawned s) as (Hw & Ht & Hj).
  { destruct d; tauto. }
  split_and!; try done.
  - by apply all_started.
  - destruct Hinv as (_ & Hids & _). pose proof (ids_nodup s Hids) as Hnd.
    apply NoDup_app in Hnd as (_ & _ & Hnd). apply NoDup_app in Hnd as (_ & _ & Hnd).
    by apply NoDup_app in Hnd as (Hnd & _).
Qed.


Lemma trans_step e s s' : trans e s s' -> step e s = Some s'.
Proof.
  intros H. destruct H; simpl; unfold workerLoop, shutdown_step, submit_return,
    notify_one, mutex_free, invoke;
    repeat match goal with
    | H : _ = _ |- _ => rewrite H
    end; simpl; try done.
  - by rewrite decide_True, decide_False by done.
  - by rewrite decide_True by done.
  - destruct H0 as [->|Hne]; [done|]. rewrite bool_decide_false by done.
    by rewrite orb_true_r.
  - destruct H0 as [->|Hne]; [done|]. rewrite bool_decide_false by done.
    by rewrite andb_false_r.
  - by rewrite H1.
  - by rewrite H1.
Qed.

Lemma exec_cons e (tr : list (event V)) s s1 :
  step e s = Some s1 -> exec (e :: tr) s = exec tr s1.
Proof. intros H. simpl. by rewrite H. Qed.


(** * The claims about single steps of a worker *)

(** The four steps of a dequeue: worker [w] takes the mutex, passes the
    predicate of line 72 and the test of line 73, and pops the head. *)
Lemma dequeue_exec s w h q :
  workers s !! w = Some AtLock \/ workers s !! w = Some Woken ->
  tasksMutex s = None -> tasks s = h :: q ->
  exists s', exec (replicate 4 (Worker w)) s = Some s' /\
    workers s' !! w = Some (Running h) /\ tasks s' = q /\
    dequeued s' = dequeued s ++ [h] /\ tasksMutex s' = None /\
    forall w', w' <> w -> workers s' !! w' = workers s !! w'.
Proof.
  intros Hw Hm Ht. simpl replicate.
  assert (w < length (workers s)) as Hlt by (destruct Hw; eauto using lookup_lt_Some).
  set (s1 := goto w AtPred (with_tasksMutex (Some w) s)).
  set (s2 := goto w AtStopCheck s1).
  set (s3 := goto w AtTake s2).
  set (s4 := goto w (Running h)
               (with_tasksMutex None
                  (with_dequeued (dequeued s3 ++ [h])
                     (with_activeWorkers (fetch_add1 (activeWorkers s3))
                        (with_tasks q s3))))).
  rewrite (exec_cons _ _ s s1)
    by (destruct Hw; [by apply trans_step, t_lock | by apply trans_step, t_relock]).
  rewrite (exec_cons _ _ s1 s2)
    by (apply trans_step, t_pred_pass; simpl;
        [by rewrite list_lookup_insert_eq | right; by rewrite Ht]).
  rewrite (exec_cons _ _ s2 s3)
    by (apply trans_step, t_stay; simpl;
        [by rewrite list_lookup_insert_eq by by rewrite length_insert | right; by rewrite Ht]).
  rewrite (exec_cons _ _ s3 s4)
    by (apply trans_step, t_take; simpl;
        [by rewrite list_lookup_insert_eq by by rewrite !length_insert | done]).
  exists s4. simpl. split_and!; try done.
  - by rewrite list_lookup_insert_eq by by rewrite !length_insert.
  - intros w' Hne. by rewrite !list_lookup_insert_ne by done.
Qed.

(** In a reachable state the deque is not empty at line 74: the step pops
    its head. *)
Lemma take_pops s w :
  wf s -> workers s !! w = Some AtTake ->
  exists h s', step (Worker w) s = Some s' /\ tasks s = h :: tasks s' /\
    workers s' !! w = Some (Running h) /\ dequeued s' = dequeued s ++ [h].
Proof.
  intros Hwf Hw. pose proof (wf_take s Hwf w Hw) as Hne.
  destruct (tasks s) as [|h q] eqn:Ht; [done|]. exists h. eexists.
  split; [by apply trans_step, t_take|]. simpl. split_and!; try done.
  apply list_lookup_insert_eq. eauto using lookup_lt_Some.
Qed.


(** C6: the dequeue of a worker, in every reachable state.  At the check of
    line 73 the worker can always step: when [stopping] is set and the deque
    is empty it returns from [workerLoop], and in every other state it goes
    on to lines 74-77, where the deque is never empty: its next step exists,
    pops the head, and the worker holds it (the [continue] of line 79 is never
    taken).  A step makes a worker leave [workerLoop] exactly in the first
    case.  A worker at the predicate of line 72 can always step: it goes on
    to line 73 when [stopping] is set or a task is queued and blocks with the
    deque untouched otherwise.  A blocked worker does not step by itself; a
    notification or a spurious wake-up only lets it re-acquire the mutex and
    evaluate the predicate again, so a worker woken spuriously with neither
    [stopping] nor a task there is back in [cv.wait] after three steps, having
    neither returned nor popped.  No step pops from an empty deque. *)
Theorem C6_dequeue_or_stop n tr (s : state V) w :
  exec tr (ThreadPool n) = Some s ->
  (workers s !! w = Some AtStopCheck ->
     exists s', step (Worker w) s = Some s' /\ tasks s' = tasks s /\ dequeued s' = dequeued s /\
       (stopping s = true -> tasks s = [] -> workers s' !! w = Some Exited) /\
       (~ (stopping s = true /\ tasks s = []) ->
          workers s' !! w = Some AtTake /\ tasks s <> [])) /\
  (workers s !! w = Some AtTake ->
     exists h s', step (Worker w) s = Some s' /\ tasks s = h :: tasks s' /\
       workers s' !! w = Some (Running h) /\ dequeued s' = dequeued s ++ [h]) /\
  (workers s !! w = Some AtPred ->
     exists s', step (Worker w) s = Some s' /\ tasks s' = tasks s /\ dequeued s' = dequeued s /\
       (stopping s = true \/ tasks s <> [] -> workers s' !! w = Some AtStopCheck) /\
       (stopping s = false -> tasks s = [] -> workers s' !! w = Some Waiting)) /\
  (workers s !! w = Some Woken \/ workers s !! w = Some AtLock -> tasksMutex s = None ->
     exists s', step (Worker w) s = Some s' /\ workers s' !! w = Some AtPred /\
       tasks s' = tasks s /\ dequeued s' = dequeued s) /\
  (workers s !! w = Some Waiting ->
     step (Worker w) s = None /\ step (Spurious w) s = Some (goto w Woken s) /\
     (stopping s = false -> tasks s = [] -> tasksMutex s = None ->
        exists s', exec [Spurious w; Worker w; Worker w] s = Some s' /\
          workers s' !! w = Some Waiting /\ tasks s' = [] /\ dequeued s' = dequeued s)) /\
  (workers s !! w = Some Exited -> step (Worker w) s = None) /\
  (forall s', step (Worker w) s = Some s' ->
     (workers s' !! w = Some Exited <->
        workers s !! w = Some AtStopCheck /\ stopping s = true /\ tasks s = []) /\
     (dequeued s' = dequeued s \/
      exists h, tasks s = h :: tasks s' /\ dequeued s' = dequeued s ++ [h])) /\
  (forall w' s1, step (Spurious w') s = Some s1 ->
     workers s !! w' = Some Waiting /\ s1 = goto w' Woken s).
Proof.
  intros Hreach. destruct (reachable_inv n tr s Hreach) as (Hwf & _ & _).
  split_and!.
  - intros Hw. assert (w < length (workers s)) as Hlt by eauto using lookup_lt_Some.
    destruct (decide (stopping s = true /\ tasks s = [])) as [[Hst Ht]|Hn].
    + eexists. split; [by apply trans_step, t_exit|]. simpl.
      split_and!; try done; [by intros; apply list_lookup_insert_eq | by intros []].
    + assert (stopping s = false \/ tasks s <> []) as Hor.
      { destruct (stopping s); [right; intros ?; by apply Hn | by left]. }
      eexists. split; [by apply trans_step, t_stay|]. simpl.
      split_and!; try done; [by intros; destruct Hn|].
      intros _. split; [by apply list_lookup_insert_eq|].
      destruct (wf_stopcheck s Hwf w Hw) as [Hst|Hne]; [|done].
      intros Hnil. by apply Hn.
  - intros Hw. by apply take_pops.
  - intros Hw. assert (w < length (workers s)) as Hlt by eauto using lookup_lt_Some.
    destruct (decide (stopping s = true \/ tasks s <> [])) as [Hor|Hn].
    + eexists. split; [by apply trans_step, t_pred_pass|]. simpl.
      split_and!; try done; [by intros; apply list_lookup_insert_eq|].
      intros Hst Ht. destruct Hor; congruence.
    + assert (stopping s = false /\ tasks s = []) as [Hst Ht].
      { destruct (stopping s); [destruct Hn; by left|].
        split; [done|]. destruct (tasks s); [done|]. destruct Hn. by right. }
      eexists. split; [by apply trans_step, t_pred_wait|]. simpl.
      split_and!; try done; first [by intros; destruct Hn | by intros; apply list_lookup_insert_eq].
  - intros Hw Hm. assert (w < length (workers s)) as Hlt by (destruct Hw; eauto using lookup_lt_Some).
    eexists. split.
    { destruct Hw; [by apply trans_step, t_relock | by apply trans_step, t_lock]. }
    simpl. split_and!; try done. by apply list_lookup_insert_eq.
  - intros Hw. assert (w < length (workers s)) as Hlt by eauto using lookup_lt_Some.
    split_and!.
    + simpl. unfold workerLoop. by rewrite Hw.
    + by apply trans_step, t_spurious.
    + intros Hst Ht Hm.
      set (s1 := goto w Woken s).
      set (s2 := goto w AtPred (with_tasksMutex (Some w) s1)).
      set (s3 := goto w Waiting (with_tasksMutex None s2)).
      exists s3.
      rewrite (exec_cons _ _ s s1) by by apply trans_step, t_spurious.
      rewrite (exec_cons _ _ s1 s2)
        by (apply trans_step, t_relock; simpl; [by rewrite list_lookup_insert_eq | done]).
      rewrite (exec_cons _ _ s2 s3)
        by (apply trans_step, t_pred_wait; simpl;
            [by rewrite list_lookup_insert_eq by by rewrite length_insert | done | done]).
      simpl. split_and!; try done.
      by rewrite list_lookup_insert_eq by by rewrite !length_insert.
  - intros Hw. simpl. unfold workerLoop. by rewrite Hw.
  - intros s' H. apply step_trans in H. split.
    + inversion H; subst; simpl; rewrite ?list_lookup_insert_eq by eauto using lookup_lt_Some;
        split; intros; destruct_and?; simplify_eq; try done; try congruence;
        destruct_or?; congruence.
    + inversion H; subst; simpl; eauto.
  - intros w' s1 Hs. simpl in Hs.
    destruct (workers s !! w') as [[]|]; by simplify_eq.
Qed.

Lemma NoDup_bind_lookup {A B} (f : A -> list B) (l : list A) i j x y a :
  NoDup (l ≫= f) -> l !! i = Some x -> l !! j = Some y -> a ∈ f x -> a ∈ f y -> i = j.
Proof.
  revert i j. induction l as [|z l IH]; intros i j Hnd Hi Hj Hx Hy; [done|].
  rewrite bind_cons in Hnd. apply NoDup_app in Hnd as (_ & Hdis & Hnd).
  destruct i as [|i], j as [|j]; simplify_eq/=; try done.
  - destruct (Hdis a Hx). apply list_elem_of_bind. exists y.
    split; [done | by eapply list_elem_of_lookup_2].
  - destruct (Hdis a Hy). apply list_elem_of_bind. exists x.
    split; [done | by eapply list_elem_of_lookup_2].
  - f_equal. by apply IH.
Qed.

(** C7: in every reachable state at most one worker is inside the critical
    section of lines 71-81, and that worker is the owner of [tasksMutex]; so
    the test of the deque and the removal of its head cannot interleave with
    another worker's.  No task is popped twice ([dequeued] has no
    duplicates), no two workers hold the same task, and no task is invoked
    twice ([started] has no duplicates). *)
Theorem C7_at_most_one_dequeue n tr (s : state V) :
  exec tr (ThreadPool n) = Some s ->
  (forall w1 w2 pc1 pc2,
     workers s !! w1 = Some pc1 -> workers s !! w2 = Some pc2 ->
     critical pc1 = true -> critical pc2 = true -> w1 = w2) /\
  (forall w pc, workers s !! w = Some pc -> critical pc = true -> tasksMutex s = Some w) /\
  NoDup (dequeued s) /\
  (forall w1 w2 h,
     workers s !! w1 = Some (Running h) -> workers s !! w2 = Some (Running h) -> w1 = w2) /\
  (forall h, h ∈ tasks s -> h ∉ dequeued s) /\
  NoDup (started s).
Proof.
  intros Hreach. destruct (reachable_inv n tr s Hreach) as (Hwf & Hids & _).
  destruct (reachable_order n tr s Hreach) as [Hperm _ _].
  pose proof (ids_nodup s Hids) as Hnd.
  apply NoDup_app in Hnd as (Hnd1 & Hdis1 & Hnd).
  apply NoDup_app in Hnd as (Hnd2 & Hdis2 & Hnd).
  apply NoDup_app in Hnd as (Hnd3 & Hdis3 & Hnd4).
  split_and!.
  - intros w1 w2 pc1 pc2. by apply wf_exclusive.
  - intros w pc. by apply wf_owner.
  - rewrite Hperm. apply NoDup_app. split_and!; try done.
    intros h Hs Ht. apply (Hdis2 h Ht). rewrite elem_of_app. auto.
  - intros w1 w2 h H1 H2.
    eapply (NoDup_bind_lookup running_of (workers s) w1 w2 _ _ h Hnd2 H1 H2);
      by apply list_elem_of_singleton.
  - intros h Ht. rewrite Hperm. intros Hd. apply (Hdis1 h Ht).
    rewrite !elem_of_app in *. tauto.
  - done.
Qed.


(** * Order *)

Lemma step_discarded e s s' :
  step e s = Some s' -> exists l, discarded s' = discarded s ++ l.
Proof.
  intros H. apply step_trans in H.
  destruct H; try (destruct d); try (destruct b);
    unfold increaseSize; try case_decide; simpl;
    try (exists []; by rewrite app_nil_r); eauto.
Qed.

Lemma exec_discarded tr s s' :
  exec tr s = Some s' -> exists l, discarded s' = discarded s ++ l.
Proof.
  revert s. induction tr as [|e tr IH]; intros s H; simpl in H.
  - simplify_eq. exists []. by rewrite app_nil_r.
  - destruct (step e s) as [s1|] eqn:Hs; [|done].
    destruct (step_discarded e s s1 Hs) as [l1 E1]. destruct (IH s1 H) as [l2 E2].
    exists (l1 ++ l2). by rewrite E2, E1, app_assoc.
Qed.

(** C5: the deque is first-in first-out.  A call of [submit] that finds
    the mutex free can step, and it appends at the tail; the handle it returns
    is the number of submissions before it.  A worker at line 74 can step, and
    its step removes the head; a worker that finds the mutex free and a task
    queued removes the head in four steps; no other step of a worker changes
    the deque.  So on a pool that has discarded nothing, the tasks popped so
    far followed by the tasks still queued are the submissions in their order,
    however enqueues and dequeues interleave: in particular [N] enqueues
    followed by dequeues are popped in submission order.  The pop order is
    increasing in submission order even after tasks were discarded.  With a
    single worker the tasks are also invoked in the order they were popped. *)
Theorem C5_fifo n tr (s : state V) :
  exec tr (ThreadPool n) = Some s ->
  (forall f, alive s = true -> tasksMutex s = None ->
     exists s', step (Submit f) s = Some s') /\
  (forall f s', step (Submit f) s = Some s' ->
     tasks s' = tasks s ++ [length (heap s)] /\
     heap s' !! length (heap s) = Some (PackagedTask f Pending 2) /\
     dequeued s' = dequeued s) /\
  (forall w, workers s !! w = Some AtTake ->
     exists h s', step (Worker w) s = Some s' /\ tasks s = h :: tasks s' /\
       workers s' !! w = Some (Running h) /\ dequeued s' = dequeued s ++ [h]) /\
  (forall w h q,
     workers s !! w = Some AtLock \/ workers s !! w = Some Woken ->
     tasksMutex s = None -> tasks s = h :: q ->
     exists s', exec (replicate 4 (Worker w)) s = Some s' /\
       workers s' !! w = Some (Running h) /\ tasks s' = q /\
       dequeued s' = dequeued s ++ [h]) /\
  (forall w s', step (Worker w) s = Some s' -> workers s !! w <> Some AtTake ->
     tasks s' = tasks s /\ dequeued s' = dequeued s) /\
  body <$> heap s = submitted tr /\
  (discarded s = [] -> dequeued s ++ tasks s = seq 0 (length (submitted tr))) /\
  StronglySorted lt (dequeued s ++ tasks s) /\
  (n <= 1 -> Forall small tr -> started s `prefix_of` dequeued s).
Proof.
  intros Hreach. destruct (reachable_order n tr s Hreach) as [Hperm Hsort Hexact].
  destruct (reachable_inv n tr s Hreach) as (Hwf & _ & _).
  pose proof (exec_bodies _ _ _ Hreach) as Hb.
  rewrite (proj1 (proj2 (proj2 (proj2 (proj2 (fields_ThreadPool n)))))) in Hb. simpl in Hb.
  split_and!; try done.
  - intros f Ha Hm. eexists. by apply trans_step, t_submit.
  - intros f s' H. simpl in H. case_match; simplify_eq/=.
    split_and!; try done. by rewrite lookup_app_r, Nat.sub_diag.
  - intros w Hw. by apply take_pops.
  - intros w h q Hw Hm Ht.
    destruct (dequeue_exec s w h q Hw Hm Ht) as (s' & H & Hw' & Ht' & Hd' & _). eauto.
  - intros w s' H Hw. apply step_trans in H.
    inversion H; subst; simpl; first [done | congruence].
  - intros Hd. rewrite <-Hb, length_fmap. auto.
  - intros Hn Hsmall. destruct (reachable_single n tr s Hn Hsmall Hreach) as [_ <-].
    by exists (torun s).
Qed.


(** * A schedule that runs every task and completes the shutdown *)

(** One iteration of [workerLoop] by worker 0: lock, predicate, stop check,
    pop, invoke, finish. *)
Definition round : list (event V) := replicate 6 (Worker 0).

(** Worker [w] finds [stopping] set and the deque empty, and returns. *)
Definition leave (w : nat) : list (event V) := replicate 3 (Worker w).

(** What the schedules below keep fixed. *)
Definition same_frame (s s' : state V) : Prop :=
  caller s' = caller s /\ stopping s' = stopping s /\ returning s' = returning s /\
  length (heap s') = length (heap s) /\ tasksMutex s' = tasksMutex s.

Lemma round_exec s h q ws :
  workers s = AtLock :: ws -> tasksMutex s = None -> tasks s = h :: q ->
  h < length (heap s) ->
  exists s', exec round s = Some s' /\ workers s' = AtLock :: ws /\ tasks s' = q /\
             same_frame s s'.
Proof.
  intros Hw Hm Ht Hh. apply lookup_lt_is_Some in Hh as [t Hh]. unfold round. simpl replicate.
  set (s1 := goto 0 AtPred (with_tasksMutex (Some 0) s)).
  set (s2 := goto 0 AtStopCheck s1).
  set (s3 := goto 0 AtTake s2).
  set (s4 := goto 0 (Running h)
               (with_tasksMutex None
                  (with_dequeued (dequeued s3 ++ [h])
                     (with_activeWorkers (fetch_add1 (activeWorkers s3))
                        (with_tasks q s3))))).
  rewrite (exec_cons _ _ s s1) by (apply trans_step, t_lock; [by rewrite Hw | done]).
  rewrite (exec_cons _ _ s1 s2)
    by (apply trans_step, t_pred_pass; simpl; [by rewrite Hw | right; by rewrite Ht]).
  rewrite (exec_cons _ _ s2 s3)
    by (apply trans_step, t_stay; simpl; [by rewrite Hw | right; by rewrite Ht]).
  rewrite (exec_cons _ _ s3 s4)
    by (apply trans_step, t_take; simpl; [by rewrite Hw | done]).
  destruct (step (Worker 0) s4) as [s5|] eqn:H5.
  2: { simpl in H5. unfold workerLoop in H5. simpl in H5. rewrite Hw in H5. simpl in H5.
       rewrite Hh in H5. simpl in H5. by destruct (invoke t). }
  rewrite (exec_cons _ _ s4 s5) by done.
  assert (workers s5 = Finishing h :: ws /\ tasks s5 = q /\ same_frame s s5)
    as (Hw5 & Ht5 & Hc5 & Hst5 & Hr5 & Hl5 & Hm5).
  { simpl in H5. unfold workerLoop in H5. simpl in H5. rewrite Hw in H5. simpl in H5.
    rewrite Hh in H5. simpl in H5. destruct (invoke t) as [t' [e|]]; simplify_eq/=;
      rewrite Hw, ?length_insert; unfold same_frame; simpl; rewrite ?length_insert; by rewrite ?Hm. }
  set (s6 := goto 0 AtLock
               (with_heap (alter release h (heap s5))
                  (with_activeWorkers (fetch_sub1 (activeWorkers s5)) s5))).
  rewrite (exec_cons _ _ s5 s6) by (apply trans_step, t_finish; by rewrite Hw5).
  exists s6. unfold same_frame. simpl. rewrite Hw5, length_alter. by split_and!.
Qed.


Lemma same_frame_refl s : same_frame s s.
Proof. by unfold same_frame. Qed.

Lemma same_frame_trans s1 s2 s3 : same_frame s1 s2 -> same_frame s2 s3 -> same_frame s1 s3.
Proof. unfold same_frame. intros (? & ? & ? & ? & ?) (? & ? & ? & ? & ?). split_and!; congruence. Qed.

(** Worker 0 empties the deque. *)
Lemma rounds_exec q : forall s ws,
  workers s = AtLock :: ws -> tasksMutex s = None -> tasks s = q ->
  Forall (λ h, h < length (heap s)) q ->
  exists s', exec (mjoin (replicate (length q) round)) s = Some s' /\
             workers s' = AtLock :: ws /\ tasks s' = [] /\ same_frame s s'.
Proof.
  induction q as [|h q IH]; intros s ws Hw Hm Ht Hb.
  - exists s. simpl. split_and!; first [done | apply same_frame_refl].
  - apply Forall_cons in Hb as [Hh Hb].
    destruct (round_exec s h q ws Hw Hm Ht Hh) as (s1 & H1 & Hw1 & Ht1 & Hf1).
    destruct (IH s1 ws) as (s2 & H2 & Hw2 & Ht2 & Hf2); try done.
    + destruct Hf1 as (_ & _ & _ & _ & ->). done.
    + destruct Hf1 as (_ & _ & _ & -> & _). done.
    + exists s2. split_and!; try done; [|by eapply same_frame_trans].
      change (mjoin (replicate (length (h :: q)) round))
        with (round ++ mjoin (replicate (length q) round)).
      by rewrite exec_app, H1.
Qed.

Lemma leave_exec s w :
  workers s !! w = Some AtLock -> tasksMutex s = None -> tasks s = [] -> stopping s = true ->
  exists s', exec (leave w) s = Some s' /\ workers s' = <[w := Exited]> (workers s) /\
             tasks s' = [] /\ same_frame s s'.
Proof.
  intros Hw Hm Ht Hst. unfold leave. simpl replicate.
  assert (w < length (workers s)) as Hlt by eauto using lookup_lt_Some.
  set (s1 := goto w AtPred (with_tasksMutex (Some w) s)).
  set (s2 := goto w AtStopCheck s1).
  set (s3 := goto w Exited (with_tasksMutex None s2)).
  rewrite (exec_cons _ _ s s1) by by apply trans_step, t_lock.
  rewrite (exec_cons _ _ s1 s2)
    by (apply trans_step, t_pred_pass; simpl; [by rewrite list_lookup_insert_eq | by left]).
  rewrite (exec_cons _ _ s2 s3)
    by (apply trans_step, t_exit; simpl;
        [by rewrite list_lookup_insert_eq by (by rewrite length_insert) | done | done]).
  exists s3. unfold same_frame. simpl. rewrite !list_insert_insert_eq. by split_and!.
Qed.

(** The workers return one after the other. *)
Lemma leaves_exec todo : forall s done,
  workers s = done ++ replicate todo AtLock -> tasksMutex s = None -> tasks s = [] ->
  stopping s = true ->
  exists s', exec (seq (length done) todo ≫= leave) s = Some s' /\
             workers s' = done ++ replicate todo Exited /\ tasks s' = [] /\ same_frame s s'.
Proof.
  induction todo as [|todo IH]; intros s done Hw Hm Ht Hst.
  - exists s. simpl. split_and!; first [done | apply same_frame_refl].
  - destruct (leave_exec s (length done)) as (s1 & H1 & Hw1 & Ht1 & Hf1); try done.
    { rewrite Hw. by rewrite lookup_app_r, Nat.sub_diag. }
    assert (workers s1 = (done ++ [Exited]) ++ replicate todo AtLock) as Hw1'.
    { rewrite Hw1, Hw. rewrite insert_app_r_alt, Nat.sub_diag by done.
      simpl. by rewrite <-app_assoc. }
    destruct (IH s1 (done ++ [Exited])) as (s2 & H2 & Hw2 & Ht2 & Hf2); try done.
    + destruct Hf1 as (_ & _ & _ & _ & ->). done.
    + destruct Hf1 as (_ & -> & _). done.
    + exists s2. split_and!; try done; [| |by eapply same_frame_trans].
      * rewrite length_app, Nat.add_1_r in H2.
        change (seq (length done) (S todo) ≫= leave)
          with (leave (length done) ++ (seq (S (length done)) todo ≫= leave)).
        by rewrite exec_app, H1.
      * rewrite Hw2, <-app_assoc. done.
Qed.

(** The owner joins the threads, which have all returned, and clears the
    vector. *)
Lemma joins_exec m : forall s d i k,
  caller s = InJoin d i -> workers s = replicate k Exited -> i + m = k ->
  exists s', exec (replicate (S m) Owner) s = Some s' /\
             caller s' = (if d then Destroyed else Idle) /\ workers s' = [].
Proof.
  induction m as [|m IH]; intros s d i k Hc Hw Hk.
  - exists (if d then with_caller Destroyed (clear (with_workers [] s))
            else with_caller Idle (with_workers [] s)).
    split; [|by destruct d]. simpl. unfold shutdown_step. rewrite Hc, Hw.
    rewrite (proj1 (lookup_replicate_None _ _ _)) by lia. done.
  - set (s1 := with_caller (InJoin d (S i)) (with_joined (S (joined s)) s)).
    destruct (IH s1 d (S i) k) as (s2 & H2 & Hc2 & Hw2); try done; [lia|].
    exists s2. split; [|done].
    rewrite replicate_S, (exec_cons _ _ s s1); [done|].
    apply trans_step, t_join; [done|]. rewrite Hw. apply lookup_replicate_2. lia.
Qed.


Lemma exec_app_eq (tr1 tr2 : list (event V)) s s1 :
  exec tr1 s = Some s1 -> exec (tr1 ++ tr2) s = exec tr2 s1.
Proof. intros H. by rewrite exec_app, H. Qed.

Lemma submits_exec (fs : list (unit -> outcome V)) : forall s,
  alive s = true -> tasksMutex s = None ->
  exists s', exec (Submit <$> fs) s = Some s' /\
             workers s' = workers s /\
             tasks s' = tasks s ++ seq (length (heap s)) (length fs) /\
             returning s' = returning s ++ seq (length (heap s)) (length fs) /\
             length (heap s') = length (heap s) + length fs /\
             caller s' = caller s /\ stopping s' = stopping s /\ tasksMutex s' = None.
Proof.
  induction fs as [|f fs IH]; intros s Ha Hm.
  - exists s. simpl. rewrite !app_nil_r, Nat.add_0_r. by split_and!.
  - destruct (IH (submit f s).2) as (s' & H' & Hw & Ht & Hr & Hl & Hc & Hst & Hm'); try done.
    exists s'. simpl in *. rewrite length_app in *. simpl in *.
    rewrite Nat.add_1_r in *. rewrite <-!app_assoc in *. simpl in *.
    split_and!; try done; [|lia].
    unfold mutex_free. by rewrite Ha, Hm.
Qed.

Lemma filter_ne_notin (h : nat) (l : list nat) : h ∉ l -> filter (λ x, x ≠ h) l = l.
Proof.
  induction l as [|x l IH]; intros Hh; [done|].
  apply not_elem_of_cons in Hh as [Hne Hh].
  rewrite filter_cons_True by done. by rewrite IH.
Qed.

Lemma returns_exec (l : list nat) : forall s,
  alive s = true -> Waiting ∉ workers s -> returning s = l -> NoDup l ->
  exists s', exec ((λ h, SubmitReturn h None) <$> l) s = Some s' /\
             returning s' = [] /\ workers s' = workers s /\ tasks s' = tasks s /\
             length (heap s') = length (heap s) /\
             caller s' = caller s /\ stopping s' = stopping s /\
             tasksMutex s' = tasksMutex s.
Proof.
  induction l as [|h l IH]; intros s Ha Hw Hr Hnd.
  - exists s. simpl. by split_and!.
  - apply NoDup_cons in Hnd as [Hh Hnd].
    set (s1 := with_returning (filter (λ x, x ≠ h) (returning s))
                 (with_heap (alter release h (heap s)) s)).
    assert (returning s1 = l) as Hr1.
    { simpl. rewrite Hr, filter_cons_False by naive_solver.
      by apply filter_ne_notin. }
    destruct (IH s1) as (s' & H' & Hr' & Hw' & Ht' & Hl' & Hc' & Hst' & Hm'); try done.
    simpl in Hw', Ht', Hl', Hc', Hst', Hm'. rewrite length_alter in Hl'.
    exists s'. split_and!; try done.
    rewrite fmap_cons, (exec_cons _ _ s s1); [done|].
    apply trans_step, t_return; try done. rewrite Hr. apply list_elem_of_here.
Qed.

(** After the stop flag is set: the owner notifies, worker 0 runs the [N]
    queued tasks, the [k] workers return, the owner joins them and clears the
    vector. *)
Definition finish_schedule (k N : nat) : list (event V) :=
  Owner :: mjoin (replicate N round) ++ (seq 0 k ≫= leave) ++ replicate (S k) Owner.

(** [N] calls of [submit] that all return before anything else happens. *)
Definition submit_schedule (fs : list (unit -> outcome V)) : list (event V) :=
  (Submit <$> fs) ++ ((λ h, SubmitReturn h None) <$> seq 0 (length fs)).

Lemma shutdown_completes (d : bool) n (fs : list (unit -> outcome V)) :
  exists s,
    exec (submit_schedule fs ++ (if d then Destroy else Shutdown true)
            :: finish_schedule (n `max` 1) (length fs)) (ThreadPool n) = Some s /\
    caller s = (if d then Destroyed else Idle).
Proof.
  set (k := n `max` 1). set (N := length fs).
  destruct (fields_ThreadPool n) as (Ht & Hm & Hst & Ha & Hh & Hr & Hc & He & Hd & Hs & Hx & Hj).
  assert (workers (ThreadPool (V := V) n) = replicate k AtLock) as Hw.
  { rewrite workers_ThreadPool. f_equal. subst k. case_decide; lia. }
  destruct (submits_exec fs (ThreadPool n)) as (s1 & H1 & Hw1 & Ht1 & Hr1 & Hl1 & Hc1 & Hst1 & Hm1);
    [by unfold alive; rewrite Hc | done |].
  rewrite Hw in Hw1. rewrite Ht, Hh in Ht1. rewrite Hr, Hh in Hr1.
  rewrite Hh in Hl1. rewrite Hc in Hc1. rewrite Hst in Hst1. simpl in *.
  assert (Waiting ∉ replicate k AtLock) as Hnw.
  { intros [? ?]%elem_of_replicate. done. }
  destruct (returns_exec (seq 0 N) s1) as (s2 & H2 & Hr2 & Hw2 & Ht2 & Hl2 & Hc2 & Hst2 & Hm2);
    [by unfold alive; rewrite Hc1 | by rewrite Hw1 | done | apply NoDup_seq |].
  rewrite Hw1 in Hw2. rewrite Ht1 in Ht2. rewrite Hl1 in Hl2. rewrite Hc1 in Hc2.
  rewrite Hst1 in Hst2. rewrite Hm1 in Hm2.
  set (s3 := shutdown_begin true d s2).
  assert (step (if d then Destroy else Shutdown true) s2 = Some s3) as H3.
  { destruct d; simpl; unfold mutex_free; by rewrite Hc2, Hm2, ?Hr2. }
  set (s4 := with_caller (InJoin d 0) (notify_all s3)).
  assert (step Owner s3 = Some s4) as H4 by done.
  assert (workers s4 = AtLock :: replicate (k - 1) AtLock) as Hw4.
  { simpl. unfold notify_all. simpl. rewrite Hw2.
    replace k with (S (k - 1)) at 1 by lia. simpl. f_equal.
    rewrite <-list_fmap_id. apply list_fmap_ext. intros i x [-> _]%lookup_replicate. done. }
  destruct (rounds_exec (seq 0 N) s4 (replicate (k - 1) AtLock))
    as (s5 & H5 & Hw5 & Ht5 & Hc5 & Hst5 & Hr5 & Hl5 & Hm5); try done.
  { simpl. rewrite Hl2. apply Forall_forall. intros h Hin%elem_of_seq. lia. }
  rewrite length_seq in H5. simpl in Hc5, Hst5, Hm5. rewrite Hm2 in Hm5.
  destruct (leaves_exec k s5 []) as (s6 & H6 & Hw6 & Ht6 & Hc6 & Hst6 & Hr6 & Hl6 & Hm6);
    try done.
  { rewrite Hw5. simpl. by replace k with (S (k - 1)) at 2 by lia. }
  simpl in H6, Hw6.
  destruct (joins_exec k s6 d 0 k) as (s7 & H7 & Hc7 & Hw7); try done.
  { by rewrite Hc6, Hc5. }
  exists s7. split; [|done].
  unfold submit_schedule, finish_schedule. rewrite <-app_assoc.
  rewrite (exec_app_eq _ _ _ _ H1), (exec_app_eq _ _ _ _ H2).
  rewrite (exec_cons _ _ _ _ H3), (exec_cons _ _ _ _ H4).
  by rewrite (exec_app_eq _ _ _ _ H5), (exec_app_eq _ _ _ _ H6).
Qed.

Lemma finish_schedule_quiet k N : Forall quiet (finish_schedule k N).
Proof.
  unfold finish_schedule. apply Forall_cons. split; [done|].
  rewrite !Forall_app. split_and!.
  - apply Forall_forall. intros e (l & Hl & [-> _]%elem_of_replicate)%list_elem_of_join.
    apply elem_of_replicate in Hl as [-> _]. done.
  - apply Forall_forall. intros e (w & [-> _]%elem_of_replicate & _)%list_elem_of_bind. done.
  - apply Forall_forall. intros e [-> _]%elem_of_replicate. done.
Qed.

Lemma submit_schedule_calm fs : Forall calm (submit_schedule fs).
Proof.
  unfold submit_schedule. rewrite Forall_app, !Forall_fmap. split; by apply Forall_true.
Qed.

Lemma submitted_submit_schedule fs : submitted (submit_schedule fs) = fs.
Proof.
  unfold submit_schedule. rewrite submitted_app.
  assert (submitted ((λ h, SubmitReturn (V := V) h None) <$> seq 0 (length fs)) = []) as ->.
  { generalize (seq 0 (length fs)). intros l. induction l as [|h l IH]; [done|].
    rewrite fmap_cons. unfold submitted in *. by rewrite bind_cons, IH. }
  rewrite app_nil_r. induction fs as [|f fs IH]; [done|].
  rewrite fmap_cons. unfold submitted in *. rewrite bind_cons, IH. done.
Qed.


(** * The claims about results *)

Lemma entry_cases s h t :
  inv s -> heap s !! h = Some t ->
  (h ∈ pend s /\ sstate t = Pending) \/
  (h ∈ started s /\ sstate t = Ready (body t tt)) \/
  (h ∈ discarded s /\
   (if decide (h ∈ returning s) then sstate t = Pending else sstate t = broken)).
Proof.
  intros (Hwf & Hids & Hlife) Hh. destruct (Hlife h t Hh) as [O1 O2 O3].
  pose proof (lookup_lt_Some _ _ _ Hh) as Hlt. apply (ids_bound s h Hids) in Hlt.
  rewrite app_assoc in Hlt. fold (pend s) in Hlt.
  apply elem_of_app in Hlt as [Hp|[Hs|Hd]%elem_of_app].
  - left. split; [done|]. by apply O1.
  - right. left. auto.
  - right. right. split; [done|]. specialize (O3 Hd). case_decide; tauto.
Qed.

Lemma exec_reach n tr tr' s s' :
  exec tr (ThreadPool n) = Some s -> exec tr' s = Some s' ->
  exec (tr ++ tr') (ThreadPool (V := V) n) = Some s'.
Proof. intros H H'. apply exec_app_Some. eauto. Qed.

(** The handle returned by a call of [submit] on a reachable state, at any
    later state. *)
Lemma submitted_handle n tr1 s1 g tr2 s h :
  exec tr1 (ThreadPool n) = Some s1 -> exec (Submit g :: tr2) s1 = Some s ->
  h = (submit g s1).1 ->
  exists t, heap s !! h = Some t /\ body t = g /\
    (((h ∉ started s) /\ sstate t = Pending) \/
     (h ∈ started s /\ sstate t = Ready (g tt)) \/
     (h ∈ discarded s /\ (h ∉ started s) /\ (sstate t = Pending \/ sstate t = broken))).
Proof.
  intros H1 H ->. pose proof (reachable_inv _ _ _ (exec_reach _ _ _ _ _ H1 H)) as Hinv.
  simpl in H. destruct (alive s1 && mutex_free s1) eqn:Hen; [|done].
  pose proof (exec_bodies _ _ _ H) as Hb. simpl in Hb.
  assert ((body <$> heap s) !! length (heap s1) = Some g) as Hg.
  { rewrite Hb, fmap_app, <-app_assoc. rewrite lookup_app_r by by rewrite length_fmap.
    by rewrite length_fmap, Nat.sub_diag. }
  rewrite list_lookup_fmap in Hg. apply fmap_Some in Hg as (t & Ht & ->).
  exists t. simpl. split_and!; try done.
  destruct (entry_cases s _ t Hinv Ht) as [[Hp E]|[[Hs E]|[Hd E]]]; auto.
  { left. split; [|done]. intros Hs. destruct Hinv as (_ & Hids & _).
    by eapply ids_pend_started. }
  right. right. split_and!; try done.
  - intros Hs. destruct Hinv as (_ & Hids & _). by eapply ids_started_discarded.
  - case_decide; auto.
Qed.

(** What [get] returns when it returns a value. *)
Definition value_of (t : packaged_task V) : option V :=
  match future_get (sstate t) with
  | Some (Returns v) => Some v
  | _ => None
  end.

(** Reading every future in submission order, as lines 156-157 of [main] do;
    [None] when some [get] blocks or throws. *)
Definition read_all (s : state V) : option (list V) := mapM value_of (heap s).

Lemma reads_results n tr s (outs vs : list V) :
  exec tr (ThreadPool n) = Some s ->
  Forall2 (λ f v, f tt = Returns v) (submitted tr) outs ->
  read_all s = Some vs -> vs = outs.
Proof.
  intros Hreach Hout Hread. pose proof (reachable_inv _ _ _ Hreach) as Hinv.
  pose proof (exec_bodies _ _ _ Hreach) as Hb.
  rewrite (proj1 (proj2 (proj2 (proj2 (proj2 (fields_ThreadPool n)))))) in Hb. simpl in Hb.
  rewrite <-Hb in Hout. apply Forall2_fmap_l in Hout.
  apply mapM_Some in Hread.
  apply list_eq_same_length with (length (heap s));
    [by apply Forall2_length in Hout | by apply Forall2_length in Hread |].
  intros h v v' Hlt Hv Hv'.
  destruct (lookup_lt_is_Some_2 (heap s) h Hlt) as [t Ht].
  pose proof (Forall2_lookup_lr _ _ _ _ _ _ Hread Ht Hv) as Hval.
  pose proof (Forall2_lookup_lr _ _ _ _ _ _ Hout Ht Hv') as Hret. simpl in Hret.
  unfold value_of in Hval.
  destruct (entry_cases s h t Hinv Ht) as [[_ E]|[[Hs E]|[Hd E]]].
  - by rewrite E in Hval.
  - rewrite E, Hret in Hval. simpl in Hval. by simplify_eq.
  - case_decide; rewrite E in Hval; done.
Qed.




(** C4: [shutdown(false)] destroys every closure still in the deque.  The
    future of such a task is never fulfilled by a worker; once the call of
    [submit] that created the task has returned, which is when a caller can
    hold the future, its shared state is ready with
    [future_error(broken_promise)]: [get] throws that error and does not
    block.  This stays so in every later state. *)
Theorem C4_discarded_broken_promise n tr (s s' : state V) h :
  exec tr (ThreadPool n) = Some s ->
  step (Shutdown false) s = Some s' ->
  h ∈ tasks s ->
  tasks s' = [] /\
  forall tr2 s2, exec tr2 s' = Some s2 ->
    h ∈ discarded s2 /\ (h ∉ started s2) /\ (h ∉ tasks s2) /\
    exists t, heap s2 !! h = Some t /\
      (h ∉ returning s2 ->
       future_get (sstate t) = Some (Throws (FutureError broken_promise))).
Proof.
  intros Hreach Hstep Hin.
  pose proof (reachable_inv _ _ _ Hreach) as Hinv.
  pose proof (step_inv _ _ _ Hinv Hstep) as Hinv'.
  assert (tasks s' = [] /\ h ∈ discarded s') as [Hnil Hd'].
  { simpl in Hstep. case_match; simplify_eq/=. split; [done|].
    rewrite elem_of_app. auto. }
  split; [done|]. intros tr2 s2 H2.
  pose proof (exec_inv _ _ _ Hinv' H2) as Hinv2.
  destruct (exec_discarded _ _ _ H2) as [l Hl].
  assert (h ∈ discarded s2) as Hd2 by (rewrite Hl, elem_of_app; auto).
  destruct Hinv2 as (Hwf2 & Hids2 & Hlife2).
  assert (h < length (heap s2)) as Hlt.
  { apply (ids_bound s2 h Hids2). rewrite !elem_of_app. auto. }
  destruct (lookup_lt_is_Some_2 _ _ Hlt) as [t Ht].
  split_and!; try done.
  - intros Hs. by eapply ids_started_discarded.
  - intros Hq. eapply ids_pend_discarded; [done| |done].
    unfold pend. rewrite elem_of_app. auto.
  - exists t. split; [done|]. intros Hret.
    destruct (Hlife2 h t Ht) as [_ _ O3]. specialize (O3 Hd2).
    rewrite decide_False in O3 by done. by rewrite O3.
Qed.


(** * The claims about shutdown *)

Lemma drained_handles s (fs : list (unit -> outcome V)) :
  body <$> heap s = fs ->
  (forall h t, heap s !! h = Some t -> h ∈ started s /\ sstate t = Ready (body t tt)) ->
  forall h f, fs !! h = Some f ->
    exists t, heap s !! h = Some t /\ h ∈ started s /\ future_get (sstate t) = Some (f tt).
Proof.
  intros <- Hall h f Hf. rewrite list_lookup_fmap in Hf.
  apply fmap_Some in Hf as (t & Ht & ->). exists t.
  destruct (Hall h t Ht) as [Hs E]. by rewrite E.
Qed.

(** C2: take a pool on which [shutdown] was never called, let [N] tasks be
    submitted in any interleaving with the workers, call [shutdown(true)],
    and let no member be called after that.  When [shutdown] returns, the
    deque is empty ([getQueuedTaskCount] is 0), every one of the [N] tasks
    has been invoked, exactly once, and its future holds the result of its
    body, every thread that was created has been joined, and the worker
    set is empty.  For every pool size and every list of tasks there is a
    schedule in which [shutdown] returns. *)
Theorem C2_drain_shutdown n :
  (forall tr1 tr2 (s : state V),
     Forall calm tr1 -> Forall quiet tr2 ->
     exec (tr1 ++ Shutdown true :: tr2) (ThreadPool n) = Some s ->
     caller s = Idle ->
     getQueuedTaskCount s = 0 /\ workers s = [] /\ joined s = spawned s /\
     discarded s = [] /\ length (heap s) = length (submitted tr1) /\
     NoDup (started s) /\
     forall h f, submitted tr1 !! h = Some f ->
       exists t, heap s !! h = Some t /\ h ∈ started s /\
                 future_get (sstate t) = Some (f tt)) /\
  (forall fs : list (unit -> outcome V), exists tr2 s,
     Forall quiet tr2 /\ Forall calm (submit_schedule fs) /\
     submitted (submit_schedule fs) = fs /\
     exec (submit_schedule fs ++ Shutdown true :: tr2) (ThreadPool n) = Some s /\
     caller s = Idle).
Proof.
  split.
  - intros tr1 tr2 s Hcalm Hquiet H Hc.
    destruct (drained false n tr1 tr2 s Hcalm (or_intror Hquiet) H Hc)
      as (Ht & Hw & Hd & Hj & Hb & Hall & Hnd).
    unfold getQueuedTaskCount. rewrite Ht. split_and!; try done.
    + by rewrite <-Hb, length_fmap.
    + by apply drained_handles.
  - intros fs. destruct (shutdown_completes false n fs) as (s & H & Hc).
    exists (finish_schedule (n `max` 1) (length fs)), s.
    split_and!; try done.
    + apply finish_schedule_quiet.
    + apply submit_schedule_calm.
    + apply submitted_submit_schedule.
Qed.

(** C10: the destructor runs [shutdown(true)].  On a pool on which
    [shutdown] was never called, no queued task is destroyed at any point
    of the destruction, whatever the threads do; when the destructor has
    finished, every task that was submitted has been invoked, exactly once,
    and its future holds the result of its body, every thread that was
    created has been joined, and nothing is left in the deque to destroy.
    For every pool size and every list of tasks there is a schedule in
    which the destructor finishes. *)
Theorem C10_destructor_drains n :
  (forall s : state V,
     step Destroy s = (if bool_decide (returning s = []) then step (Shutdown true) s else None)
       ≫= λ s', Some (with_caller (InNotify true) s')) /\
  (forall tr1 tr2 (s : state V),
     Forall calm tr1 ->
     exec (tr1 ++ Destroy :: tr2) (ThreadPool n) = Some s ->
     discarded s = [] /\ stopping s = true /\
     (caller s = Destroyed ->
        tasks s = [] /\ workers s = [] /\ joined s = spawned s /\
        length (heap s) = length (submitted tr1) /\ NoDup (started s) /\
        forall h f, submitted tr1 !! h = Some f ->
          exists t, heap s !! h = Some t /\ h ∈ started s /\
                    future_get (sstate t) = Some (f tt))) /\
  (forall fs : list (unit -> outcome V), exists tr2 s,
     Forall calm (submit_schedule fs) /\ submitted (submit_schedule fs) = fs /\
     exec (submit_schedule fs ++ Destroy :: tr2) (ThreadPool n) = Some s /\
     caller s = Destroyed).
Proof.
  split_and!.
  - intros s. simpl. unfold mutex_free.
    destruct (bool_decide (caller s = Idle)), (bool_decide (tasksMutex s = None)),
      (bool_decide (returning s = [])); done.
  - intros tr1 tr2 s Hcalm H.
    destruct (draining_reached true n tr1 tr2 s Hcalm (or_introl eq_refl) H)
      as (Hinv & [Hst Hd Hex Hph] & Hb).
    split_and!; try done. intros Hc.
    destruct (drained true n tr1 tr2 s Hcalm (or_introl eq_refl) H Hc)
      as (Ht & Hw & _ & Hj & _ & Hall & Hnd).
    split_and!; try done.
    + by rewrite <-Hb, length_fmap.
    + by apply drained_handles.
  - intros fs. destruct (shutdown_completes true n fs) as (s & H & Hc).
    exists (finish_schedule (n `max` 1) (length fs)), s.
    split_and!; try done.
    + apply submit_schedule_calm.
    + apply submitted_submit_schedule.
Qed.



End Invariants.

(** * Tasks that return integers *)

(** The task of the spec's example: [f(i) = i * i]. *)
Definition sq (i : Z) : outcome Z := Returns (i * i)%Z.

(** The calls [submit(f, i)] for [i] in [[0, N)]. *)
Definition squares (N : nat) : list (unit -> outcome Z) :=
  (λ i : nat, bind_call sq (Z.of_nat i)) <$> seq 0 N.

(** Summing what the futures return, as line 157 of [main] does. *)
Definition total (vs : list Z) : Z := foldr Z.add 0%Z vs.


(** The state a schedule leads to, for schedules that can run. *)
Definition run (n : nat) (tr : list (event Z)) : state Z :=
  default fresh (exec tr (ThreadPool n)).


(** * Concrete runs *)

Ltac computed := vm_compute; reflexivity.

(** Two workers, three tasks submitted while the workers are already
    popping and running them; then [shutdown(true)]. *)
Definition busy_schedule : list (event Z) :=
  [Submit (bind_call sq 3%Z); Worker 0; Worker 0; Worker 0; Worker 0;
   Submit (bind_call sq 4%Z); SubmitReturn 0 None;
   Worker 1; Worker 1; Worker 1; Worker 1; SubmitReturn 1 None;
   Submit (bind_call sq 5%Z); Worker 0; Worker 1].

Definition drain_schedule : list (event Z) :=
  [Owner; Worker 0; Worker 0; Worker 0; Worker 0; Worker 0; Worker 0; Worker 0;
   Worker 1; Worker 1; Worker 1; Worker 1;
   Worker 0; Worker 0; Worker 0; SubmitReturn 2 None; Owner; Owner; Owner].

Lemma C2_drain_shutdown_witness :
  let s := run 2 (busy_schedule ++ Shutdown true :: drain_schedule) in
  getQueuedTaskCount s = 0 /\ workers s = [] /\ joined s = spawned s /\
  discarded s = [] /\ length (heap s) = 3.
Proof.
  destruct (C2_drain_shutdown (V := Z) 2) as [H _].
  assert (Forall calm busy_schedule) as Hcalm by (repeat constructor).
  assert (Forall quiet drain_schedule) as Hquiet by (repeat constructor).
  assert (exec (busy_schedule ++ Shutdown true :: drain_schedule) (ThreadPool 2) =
          Some (run 2 (busy_schedule ++ Shutdown true :: drain_schedule))) as Hrun by computed.
  assert (caller (run 2 (busy_schedule ++ Shutdown true :: drain_schedule)) = Idle) as Hidle
    by computed.
  destruct (H busy_schedule drain_schedule
              (run 2 (busy_schedule ++ Shutdown true :: drain_schedule))
              Hcalm Hquiet Hrun Hidle) as (A & B & C & D & E & _).
  cbv zeta. split_and!; [exact A | exact B | exact C | exact D |].
  rewrite E. computed.
Defined.



(** One worker is running the first task while two more are queued;
    [shutdown(false)] discards those two. *)
Definition queued_schedule : list (event Z) :=
  [Submit (bind_call sq 1%Z); SubmitReturn 0 None; Worker 0; Worker 0; Worker 0; Worker 0;
   Submit (bind_call sq 2%Z); Submit (bind_call sq 3%Z); SubmitReturn 1 None].

Lemma C4_discarded_broken_promise_witness :
  exists t, heap (run 1 (queued_schedule ++ [Shutdown false])) !! 1 = Some t /\
            future_get (sstate t) = Some (Throws (FutureError broken_promise)).
Proof.
  assert (exec queued_schedule (ThreadPool 1) = Some (run 1 queued_schedule)) as Hrun
    by computed.
  assert (step (Shutdown false) (run 1 queued_schedule) =
          Some (run 1 (queued_schedule ++ [Shutdown false]))) as Hstep by computed.
  destruct (C4_discarded_broken_promise (V := Z) 1 queued_schedule
              (run 1 queued_schedule) (run 1 (queued_schedule ++ [Shutdown false])) 1
              Hrun Hstep) as (_ & H).
  { vm_compute. apply list_elem_of_here. }
  destruct (H [] _ eq_refl) as (_ & _ & _ & t & Ht & Hget).
  exists t. split; [exact Ht|]. apply Hget. vm_compute. intros Hin.
  apply list_elem_of_singleton in Hin. discriminate Hin.
Defined.

(** Three tasks enqueued before the single worker dequeues and runs two of
    them; its next four steps dequeue the third. *)
Definition fifo_schedule : list (event Z) :=
  [Submit (bind_call sq 1%Z); Submit (bind_call sq 2%Z); Submit (bind_call sq 3%Z)]
  ++ replicate 12 (Worker 0).

Lemma C5_fifo_witness :
  let s := run 1 fifo_schedule in
  dequeued s ++ tasks s = seq 0 (length (submitted fifo_schedule)) /\
  started s `prefix_of` dequeued s /\
  exists s', exec (replicate 4 (Worker 0)) s = Some s' /\
    workers s' !! 0 = Some (Running 2) /\ tasks s' = [] /\ dequeued s' = [0; 1; 2].
Proof.
  assert (exec fifo_schedule (ThreadPool 1) = Some (run 1 fifo_schedule)) as Hrun by computed.
  assert (discarded (run 1 fifo_schedule) = []) as Hd by computed.
  assert (workers (run 1 fifo_schedule) !! 0 = Some AtLock) as Hw by computed.
  assert (tasksMutex (run 1 fifo_schedule) = None) as Hm by computed.
  assert (tasks (run 1 fifo_schedule) = [2]) as Ht by computed.
  assert (dequeued (run 1 fifo_schedule) = [0; 1]) as Hq by computed.
  destruct (C5_fifo (V := Z) 1 fifo_schedule (run 1 fifo_schedule) Hrun)
    as (_ & _ & _ & P & _ & _ & A & _ & B).
  destruct (P 0 2 [] (or_introl Hw) Hm Ht) as (s' & Hs & Hw' & Ht' & Hd').
  cbv zeta. split_and!; [exact (A Hd) | apply B; [lia | repeat constructor] |].
  exists s'. split_and!; [exact Hs | exact Hw' | exact Ht' |]. by rewrite Hd', Hq.
Defined.

(** A worker that waits on the empty deque is woken spuriously. *)
Definition spurious_schedule : list (event Z) :=
  [Worker 0; Worker 0; Spurious 0; Worker 0].

(** The single worker at the check of line 73 after [shutdown(true)] on an
    empty deque, and at line 74 after one task was submitted. *)
Definition stop_schedule : list (event Z) :=
  [Shutdown true; Worker 0; Worker 0].

Definition take_schedule : list (event Z) :=
  [Submit (bind_call sq 2%Z); Worker 0; Worker 0; Worker 0].

Lemma C6_dequeue_or_stop_witness :
  (exists s', step (Worker 0) (run 1 stop_schedule) = Some s' /\
     workers s' !! 0 = Some Exited) /\
  (exists h s', step (Worker 0) (run 1 take_schedule) = Some s' /\
     tasks (run 1 take_schedule) = h :: tasks s' /\ workers s' !! 0 = Some (Running h)) /\
  (exists s', exec [Spurious 0; Worker 0; Worker 0] (run 1 (spurious_schedule ++ [Worker 0]))
                = Some s' /\
     workers s' !! 0 = Some Waiting /\ tasks s' = []).
Proof.
  assert (exec stop_schedule (ThreadPool 1) = Some (run 1 stop_schedule)) as Hstop by computed.
  assert (exec take_schedule (ThreadPool 1) = Some (run 1 take_schedule)) as Htake by computed.
  assert (exec (spurious_schedule ++ [Worker 0]) (ThreadPool 1) =
          Some (run 1 (spurious_schedule ++ [Worker 0]))) as Hwait by computed.
  split_and!.
  - destruct (C6_dequeue_or_stop (V := Z) 1 stop_schedule _ 0 Hstop) as (H & _).
    destruct H as (s' & Hs & _ & _ & Hexit & _); [computed|].
    exists s'. split; [exact Hs|]. apply Hexit; computed.
  - destruct (C6_dequeue_or_stop (V := Z) 1 take_schedule _ 0 Htake) as (_ & H & _).
    destruct H as (h & s' & Hs & Ht & Hw & _); [computed|]. eauto.
  - destruct (C6_dequeue_or_stop (V := Z) 1 _ _ 0 Hwait) as (_ & _ & _ & _ & H & _).
    destruct H as (_ & _ & H); [computed|].
    destruct H as (s' & Hs & Hw & Ht & _); [computed..|]. eauto.
Defined.

(** Two workers pop one task each. *)
Definition contended_schedule : list (event Z) :=
  [Submit (bind_call sq 1%Z); Submit (bind_call sq 2%Z);
   Worker 0; Worker 0; Worker 0; Worker 0; Worker 1; Worker 1; Worker 1; Worker 1].

Lemma C7_at_most_one_dequeue_witness :
  let s := run 2 contended_schedule in
  NoDup (dequeued s) /\ NoDup (started s) /\
  (forall w1 w2 h,
     workers s !! w1 = Some (Running h) -> workers s !! w2 = Some (Running h) -> w1 = w2).
Proof.
  assert (exec contended_schedule (ThreadPool 2) = Some (run 2 contended_schedule)) as Hrun
    by computed.
  destruct (C7_at_most_one_dequeue (V := Z) 2 contended_schedule
              (run 2 contended_schedule) Hrun) as (_ & _ & A & B & _ & C).
  cbv zeta. split_and!; [exact A | exact C | exact B].
Defined.

(** On a pool built with one worker: 4 then 2 leaves 4, 4 then 10 leaves 10. *)
Lemma C8_increaseSize_monotonic_witness :
  length (workers (increaseSize 2 (increaseSize 4 (ThreadPool (V := Z) 1)))) = 4 /\
  length (workers (increaseSize 10 (increaseSize 4 (ThreadPool (V := Z) 1)))) = 10.
Proof.
  pose proof (C8_increaseSize_monotonic (ThreadPool (V := Z) 1) 0) as (_ & _ & H4 & H10 & _).
  split; [apply H4 | apply H10]; vm_compute; lia.
Defined.

(** The destructor runs on a pool of one worker with two queued tasks. *)
Definition destroyed_schedule : list (event Z) :=
  submit_schedule (squares 2) ++ Destroy :: finish_schedule 1 2.

Lemma C10_destructor_drains_witness :
  let s := run 1 destroyed_schedule in
  discarded s = [] /\ tasks s = [] /\ workers s = [] /\ joined s = spawned s /\
  NoDup (started s).
Proof.
  destruct (C10_destructor_drains (V := Z) 1) as (_ & H & _).
  assert (exec destroyed_schedule (ThreadPool 1) = Some (run 1 destroyed_schedule)) as Hrun
    by computed.
  assert (caller (run 1 destroyed_schedule) = Destroyed) as Hc by computed.
  destruct (H (submit_schedule (squares 2)) (finish_schedule 1 2) (run 1 destroyed_schedule)
              (submit_schedule_calm _) Hrun) as (A & _ & B).
  destruct (B Hc) as (C & D & E & _ & F & _).
  cbv zeta. split_and!; [exact A | exact C | exact D | exact E | exact F].
Defined.



(** * Further properties of the pool *)

Section More.

Context {V : Type}.
Implicit Types (s : state V) (e : event V).

Ltac lookup_cases :=
  repeat match goal with
  | H : <[_ := _]> _ !! _ = Some _ |- _ =>
      apply list_lookup_insert_Some in H as [(? & ? & ?) | (? & H)]
  | H : (wake <$> _) !! _ = Some _ |- _ =>
      rewrite list_lookup_fmap in H; apply fmap_Some in H as (? & H & ?)
  | H : (_ ++ replicate _ _) !! _ = Some _ |- _ =>
      apply lookup_app_Some in H as [H | [? H]]; [| apply lookup_replicate in H as [? ?]]
  end.

(** ** The counter of active workers *)

(** Workers between the [fetch_add] of line 77 and the [fetch_sub] of
    line 89. *)
Definition active_of (pc : wpc) : list unit :=
  match pc with
  | Running _ | Finishing _ => [tt]
  | _ => []
  end.

Definition active (s : state V) : nat := length (workers s ≫= active_of).

Lemma active_insert (ws : list wpc) w pc pc' :
  ws !! w = Some pc ->
  length (active_of pc) + length (<[w := pc']> ws ≫= active_of) =
  length (active_of pc') + length (ws ≫= active_of).
Proof.
  intros Hw. rewrite <-!length_app. by rewrite (bind_insert_perm active_of ws w pc pc' Hw).
Qed.

Lemma active_le (ws : list wpc) : length (ws ≫= active_of) <= length ws.
Proof.
  induction ws as [|pc ws IH]; [done|]. rewrite bind_cons, length_app. simpl.
  destruct pc; simpl; lia.
Qed.

Lemma active_wake (ws : list wpc) : (wake <$> ws) ≫= active_of = ws ≫= active_of.
Proof.
  induction ws as [|pc ws IH]; [done|]. rewrite fmap_cons, !bind_cons, IH. by destruct pc.
Qed.

Lemma active_replicate n : replicate n AtLock ≫= active_of = [].
Proof. induction n as [|n IH]; [done|]. by rewrite replicate_S, bind_cons, IH. Qed.

Lemma active_all_exited (ws : list wpc) :
  (forall j pc, ws !! j = Some pc -> pc = Exited) -> ws ≫= active_of = [].
Proof.
  induction ws as [|pc ws IH]; intros H; [done|]. rewrite bind_cons.
  rewrite (H 0 pc eq_refl); simpl. apply IH. intros j pc' Hj. by apply (H (S j)).
Qed.

Lemma step_active e s s' :
  wf s -> activeWorkers s = (Z.of_nat (active s) mod size_max_plus_1)%Z ->
  step e s = Some s' ->
  activeWorkers s' = (Z.of_nat (active s') mod size_max_plus_1)%Z.
Proof.
  intros Hwf Hact H. apply step_trans in H. unfold active in *.
  destruct H as [f s Ha Hm | h s Ha Hin Hnw | h w s Ha Hin Hw | n s Hc | b s Hc Hm
    | s Hc Hm Hr | d s Hc | d i s Hc Hw | d i s Hc Hw | w s Hw Hm | w s Hw Hm
    | w s Hw Hp | w s Hw Hst Ht | w s Hw Hst Ht | w s Hw Hp | w h q s Hw Ht
    | w s Hw Ht | w h t s Hw Hh Hp | w h t r s Hw Hh Hp | w h s Hw | w s Hw ];
    try (destruct d); try (destruct b); unfold increaseSize; try case_decide;
    simpl; unfold notify_all; simpl;
    rewrite ?active_wake, ?bind_app, ?active_replicate, ?app_nil_r; try done.
  all: try (rewrite Hact, (active_all_exited (workers s)) by eauto using all_exited; done).
  all: match goal with
       | |- context [<[?w := ?pc']> (workers ?s) ≫= active_of] =>
           pose proof (active_insert (workers s) w _ pc' Hw) as E; simpl in E
       end.
  all: rewrite Hact; unfold fetch_add1, fetch_sub1;
    rewrite ?Zplus_mod_idemp_l, ?Zminus_mod_idemp_l; f_equal; lia.
Qed.

Lemma reachable_active n tr s :
  exec tr (ThreadPool n) = Some s ->
  activeWorkers s = (Z.of_nat (active s) mod size_max_plus_1)%Z.
Proof.
  intros H.
  cut (inv s /\ activeWorkers s = (Z.of_nat (active s) mod size_max_plus_1)%Z); [tauto|].
  eapply (exec_ind (λ _, True)
            (λ s, inv s /\ activeWorkers s = (Z.of_nat (active s) mod size_max_plus_1)%Z));
    [| |split|exact H].
  - intros e0 s1 s2 _ [Hinv Hact] Hstep. split; [by eapply step_inv|].
    destruct Hinv as (? & ? & ?). by eapply step_active.
  - by apply Forall_true.
  - apply inv_ThreadPool.
  - unfold active. rewrite workers_ThreadPool, active_replicate.
    by destruct (fields_ThreadPool (V := V) n) as (_ & _ & _ & -> & _).
Qed.

(** X1: [getActiveWorkerCount] is the number of workers between the
    [fetch_add] of line 77 and the [fetch_sub] of line 89 (modulo [2^64], the
    width of the counter): with fewer than [2^64] threads it is exactly that
    number, so it never exceeds the number of worker threads, the
    [fetch_sub] never wraps below zero, and it is 0 when the worker set is
    empty. *)
Theorem X1_active_count n tr s :
  exec tr (ThreadPool n) = Some s ->
  getActiveWorkerCount s = (Z.of_nat (active s) mod size_max_plus_1)%Z /\
  ((Z.of_nat (length (workers s)) < size_max_plus_1)%Z ->
     getActiveWorkerCount s = Z.of_nat (active s) /\
     (0 <= getActiveWorkerCount s <= Z.of_nat (length (workers s)))%Z) /\
  (workers s = [] -> getActiveWorkerCount s = 0%Z) /\
  (forall w h, workers s !! w = Some (Finishing h) ->
     (Z.of_nat (length (workers s)) < size_max_plus_1)%Z ->
     (1 <= getActiveWorkerCount s)%Z).
Proof.
  intros H. pose proof (reachable_active n tr s H) as Hact.
  unfold getActiveWorkerCount. pose proof (active_le (workers s)) as Hle.
  fold (active s) in Hle. split_and!.
  - done.
  - intros Hlt. rewrite Hact, Z.mod_small by lia. lia.
  - intros Hw. rewrite Hact. unfold active. by rewrite Hw.
  - intros w h Hw Hlt. rewrite Hact, Z.mod_small by lia.
    assert (0 < active s); [|lia]. unfold active.
    pose proof (active_insert (workers s) w _ AtLock Hw) as E. simpl in E. lia.
Qed.

(** ** The number of queued tasks *)


(** ** Threads created and threads joined *)

(** The position of the join loop of line 109. *)
Definition join_pos (s : state V) : nat :=
  match caller s with
  | InJoin _ i => i
  | _ => 0
  end.

Record threads_ok (s : state V) : Prop := ThreadsOk {
  thr_count : spawned s + join_pos s = joined s + length (workers s);
  thr_pos : join_pos s <= length (workers s)
}.

Lemma step_threads e s s' : threads_ok s -> step e s = Some s' -> threads_ok s'.
Proof.
  intros [Hcount Hpos] H. apply step_trans in H. unfold join_pos in *.
  destruct H as [f s Ha Hm | h s Ha Hin Hnw | h w s Ha Hin Hw | n s Hc | b s Hc Hm
    | s Hc Hm Hr | d s Hc | d i s Hc Hw | d i s Hc Hw | w s Hw Hm | w s Hw Hm
    | w s Hw Hp | w s Hw Hst Ht | w s Hw Hst Ht | w s Hw Hp | w h q s Hw Ht
    | w s Hw Ht | w h t s Hw Hh Hp | w h t r s Hw Hh Hp | w h s Hw | w s Hw ];
    try (destruct d); try (destruct b); unfold increaseSize; try case_decide;
    try rewrite Hc in *;
    (split; unfold join_pos; simpl; unfold notify_all; simpl; rewrite ?Hc;
     rewrite ?length_insert, ?length_fmap, ?length_app, ?length_replicate; try done; try lia).
  all: try (apply lookup_lt_Some in Hw; lia).
  all: apply lookup_ge_None in Hw; lia.
Qed.

Lemma reachable_threads n tr s : exec tr (ThreadPool n) = Some s -> threads_ok s.
Proof.
  intros H. eapply (exec_ind (λ _, True) threads_ok); [| | |exact H].
  - intros e0 s1 s2 _. apply step_threads.
  - by apply Forall_true.
  - destruct (C9_constructor_coerces (V := V) n) as (_ & Hl & Hsp & _).
    destruct (fields_ThreadPool (V := V) n) as (_ & _ & _ & _ & _ & _ & Hc & _ & _ & _ & _ & Hj).
    split; unfold join_pos; rewrite Hc, ?Hl, ?Hsp, ?Hj; lia.
Qed.

(** X3: threads are never lost.  In every reachable state the threads
    created so far are the threads joined so far plus those in the vector
    that the loop of line 109 has not reached.  The step of line 110, in
    either mode of [shutdown] and in the destructor, happens only when every
    thread in the vector has returned from [workerLoop] and been joined; it
    leaves the vector empty, every created thread joined, and
    [getActiveWorkerCount] at 0. *)
Theorem X3_threads_joined n tr s :
  exec tr (ThreadPool n) = Some s ->
  spawned s + join_pos s = joined s + length (workers s) /\
  (forall d i s', caller s = InJoin d i -> workers s !! i = None ->
     step Owner s = Some s' ->
     (forall j pc, workers s !! j = Some pc -> pc = Exited) /\
     i = length (workers s) /\
     workers s' = [] /\ joined s' = spawned s' /\ getActiveWorkerCount s' = 0%Z /\
     caller s' = (if d then Destroyed else Idle)) /\
  (forall d i j, caller s = InJoin d i -> workers s !! i = None ->
     j < length (workers s) -> workers s !! j = Some Exited).
Proof.
  intros H. destruct (reachable_threads n tr s H) as [Hcount Hpos].
  destruct (reachable_inv n tr s H) as (Hwf & _ & _).
  split_and!; [done| |].
  - intros d i s' Hc Hw Hstep.
    assert (forall j pc, workers s !! j = Some pc -> pc = Exited) as Hall
      by (apply (all_exited s i); eauto).
    assert (exec (tr ++ [Owner]) (ThreadPool n) = Some s') as H'.
    { apply exec_app_Some. exists s. split; [done|]. by rewrite (exec_cons _ _ _ _ Hstep). }
    destruct (X1_active_count n _ s' H') as (_ & _ & Hzero & _).
    destruct (reachable_threads n _ s' H') as [Hcount' _].
    unfold join_pos in *. rewrite Hc in *.
    simpl in Hstep. unfold shutdown_step in Hstep. rewrite Hc, Hw in Hstep.
    assert (workers s' = [] /\ caller s' = (if d then Destroyed else Idle)) as [Hw' Hc'].
    { destruct d; by simplify_eq. }
    rewrite Hc', Hw' in Hcount'. apply lookup_ge_None in Hw.
    split_and!; try done; try lia; [destruct d; simpl in Hcount'; lia | by apply Hzero].
  - intros d i j Hc Hw Hj. apply (wf_join s Hwf d i j Hc).
    apply lookup_ge_None in Hw. lia.
Qed.

(** ** Notifications are not lost *)

(** Workers that are neither blocked in [cv.wait] nor gone. *)
Definition awake_of (pc : wpc) : list unit :=
  match pc with
  | Waiting | Exited => []
  | _ => [tt]
  end.

Definition awake (s : state V) : nat := length (workers s ≫= awake_of).

Lemma awake_insert (ws : list wpc) w pc pc' :
  ws !! w = Some pc ->
  length (awake_of pc) + length (<[w := pc']> ws ≫= awake_of) =
  length (awake_of pc') + length (ws ≫= awake_of).
Proof.
  intros Hw. rewrite <-!length_app. by rewrite (bind_insert_perm awake_of ws w pc pc' Hw).
Qed.

Lemma waiting_insert (ws : list wpc) w pc' :
  pc' <> Waiting -> Waiting ∈ <[w := pc']> ws -> Waiting ∈ ws.
Proof.
  intros Hne [i Hi]%list_elem_of_lookup.
  apply list_lookup_insert_Some in Hi as [(? & ? & ?) | (? & Hi)]; [congruence|].
  by eapply list_elem_of_lookup_2.
Qed.

Lemma waiting_wake (ws : list wpc) : Waiting ∉ wake <$> ws.
Proof.
  intros [i Hi]%list_elem_of_lookup. rewrite list_lookup_fmap in Hi.
  apply fmap_Some in Hi as (pc & _ & Hpc). by destruct pc.
Qed.

Lemma length_filter_ne (l : list nat) h :
  NoDup l -> h ∈ l -> S (length (filter (λ x, x ≠ h) l)) = length l.
Proof.
  induction l as [|x l IH]; intros Hnd Hin; [by apply elem_of_nil in Hin|].
  apply NoDup_cons in Hnd as [Hx Hnd]. destruct (decide (x = h)) as [->|Hne].
  - rewrite filter_cons_False by naive_solver. by rewrite filter_ne_notin.
  - rewrite filter_cons_True by done. simpl. f_equal. apply IH; [done|].
    apply elem_of_cons in Hin as [?|?]; [congruence|done].
Qed.

(** Queued tasks are covered by awake workers and by the calls of
    [notify_one] that are still to come. *)
Definition covered (s : state V) : Prop :=
  Waiting ∈ workers s -> length (tasks s) <= length (returning s) + awake s.

Lemma step_covered e s s' : ids s -> covered s -> step e s = Some s' -> covered s'.
Proof.
  intros Hids Hcov H. apply step_trans in H. unfold covered, awake in *.
  destruct H as [f s Ha Hm | h s Ha Hin Hnw | h w s Ha Hin Hw | n s Hc | b s Hc Hm
    | s Hc Hm Hr | d s Hc | d i s Hc Hw | d i s Hc Hw | w s Hw Hm | w s Hw Hm
    | w s Hw Hp | w s Hw Hst Ht | w s Hw Hst Ht | w s Hw Hp | w h q s Hw Ht
    | w s Hw Ht | w h t s Hw Hh Hp | w h t r s Hw Hh Hp | w h s Hw | w s Hw ];
    try (destruct d); try (destruct b); unfold increaseSize; try case_decide;
    simpl; unfold notify_all; simpl; try done;
    try (intros Hin'%waiting_wake; done);
    try (intros Hin'; by apply elem_of_nil in Hin').
  all: try match goal with
       | |- context [<[?w := ?pc']> (workers ?s) ≫= awake_of] =>
           pose proof (awake_insert (workers s) w _ pc' Hw) as E; simpl in E
       end.
  all: try (pose proof (length_filter_ne (returning s) h (ids_returning_nodup s Hids) Hin) as F).
  all: try (rewrite ?Ht in *; simpl; intros Hin'; lia).
  all: try (intros Hin'%waiting_insert; [|done]; specialize (Hcov Hin');
            rewrite ?Ht in Hcov; simpl in Hcov; lia).
  - intros Hin'. specialize (Hcov Hin'). rewrite !length_app. simpl. lia.
  - intros [Hin'|Hin']%elem_of_app.
    + specialize (Hcov Hin'). rewrite bind_app, length_app. lia.
    + by apply elem_of_replicate in Hin' as [? _].
Qed.

Lemma reachable_covered n tr s : exec tr (ThreadPool n) = Some s -> covered s.
Proof.
  intros H. cut (inv s /\ covered s); [tauto|].
  eapply (exec_ind (λ _, True) (λ s, inv s /\ covered s)); [| |split|exact H].
  - intros e0 s1 s2 _ [Hinv Hcov] Hstep. split; [by eapply step_inv|].
    destruct Hinv as (? & ? & ?). by eapply step_covered.
  - by apply Forall_true.
  - apply inv_ThreadPool.
  - unfold covered. rewrite workers_ThreadPool. intros [? _]%elem_of_replicate. done.
Qed.

(** After [stopping] is set, workers wait only until line 108. *)
Definition stop_seen (s : state V) : Prop :=
  stopping s = true -> (exists d, caller s = InNotify d) \/ Waiting ∉ workers s.

Lemma step_stop_seen e s s' : stop_seen s -> step e s = Some s' -> stop_seen s'.
Proof.
  intros Hss H. apply step_trans in H. unfold stop_seen in *.
  destruct H as [f s Ha Hm | h s Ha Hin Hnw | h w s Ha Hin Hw | n s Hc | b s Hc Hm
    | s Hc Hm Hr | d s Hc | d i s Hc Hw | d i s Hc Hw | w s Hw Hm | w s Hw Hm
    | w s Hw Hp | w s Hw Hst Ht | w s Hw Hst Ht | w s Hw Hp | w h q s Hw Ht
    | w s Hw Ht | w h t s Hw Hh Hp | w h t r s Hw Hh Hp | w h s Hw | w s Hw ];
    try (destruct d); try (destruct b); unfold increaseSize; try case_decide;
    simpl; unfold notify_all; simpl; try done; eauto using waiting_wake;
    try (intros _; right; apply not_elem_of_nil);
    try congruence.
  all: try (intros Hst'; destruct (Hss Hst') as [[d' Hd]|Hnw']; [congruence|]; right;
            intros Hin'%waiting_insert; done).
  all: try (intros Hst'; destruct (Hss Hst') as [[d' Hd]|Hnw']; [eauto|]; right;
            intros Hin'%waiting_insert; done).
  - intros Hst'. destruct (Hss Hst') as [[d' Hd]|Hnw']; [congruence|]. right.
    intros [Hin'|Hin']%elem_of_app; [done|]. by apply elem_of_replicate in Hin' as [? _].
  - intros Hst'. destruct (Hss Hst') as [[d' Hd]|Hnw']; [congruence|by right].
  - intros Hst'. destruct (Hss Hst') as [[d' Hd]|Hnw']; [congruence|by right].
Qed.

Lemma reachable_stop_seen n tr s : exec tr (ThreadPool n) = Some s -> stop_seen s.
Proof.
  intros H. eapply (exec_ind (λ _, True) stop_seen); [| | |exact H].
  - intros e0 s1 s2 _. apply step_stop_seen.
  - by apply Forall_true.
  - unfold stop_seen.
    by destruct (fields_ThreadPool (V := V) n) as (_ & _ & -> & _).
Qed.

(** [stopping] is set whenever the owner is inside [shutdown]. *)
Definition stop_set (s : state V) : Prop := caller s <> Idle -> stopping s = true.

Lemma step_stop_set e s s' : stop_set s -> step e s = Some s' -> stop_set s'.
Proof.
  intros Hss H. apply step_trans in H. unfold stop_set in *.
  destruct H as [f s Ha Hm | h s Ha Hin Hnw | h w s Ha Hin Hw | n s Hc | b s Hc Hm
    | s Hc Hm Hr | d s Hc | d i s Hc Hw | d i s Hc Hw | w s Hw Hm | w s Hw Hm
    | w s Hw Hp | w s Hw Hst Ht | w s Hw Hst Ht | w s Hw Hp | w h q s Hw Ht
    | w s Hw Ht | w h t s Hw Hh Hp | w h t r s Hw Hh Hp | w h s Hw | w s Hw ];
    try (destruct d); try (destruct b); unfold increaseSize; try case_decide;
    simpl; unfold notify_all; simpl; try done;
    intros _; apply Hss; congruence.
Qed.

Lemma reachable_stop_set n tr s : exec tr (ThreadPool n) = Some s -> stop_set s.
Proof.
  intros H. eapply (exec_ind (λ _, True) stop_set); [| | |exact H].
  - intros e0 s1 s2 _. apply step_stop_set.
  - by apply Forall_true.
  - unfold stop_set.
    by destruct (fields_ThreadPool (V := V) n) as (_ & _ & _ & _ & _ & _ & -> & _).
Qed.

(** X4: no wake-up is lost.  In every reachable state in which some worker
    is blocked in [cv.wait], the tasks in the deque are at most the workers
    that are awake (neither blocked nor returned) plus the calls of [submit]
    that have enqueued and not yet called [notify_one]: a task never sits in
    the deque while every worker sleeps and no notification is on its way.
    And once [stopping] is set and [notify_all] of line 108 has run, no worker
    is blocked in [cv.wait], so the joins of line 109 never wait for a
    sleeping thread. *)
Theorem X4_no_lost_wakeup n tr s :
  exec tr (ThreadPool n) = Some s ->
  (Waiting ∈ workers s -> length (tasks s) <= length (returning s) + awake s) /\
  (Waiting ∈ workers s -> tasks s <> [] -> returning s = [] ->
     exists w pc, workers s !! w = Some pc /\ pc <> Waiting /\ pc <> Exited) /\
  (stopping s = true -> (forall d, caller s <> InNotify d) -> Waiting ∉ workers s) /\
  (forall d i, caller s = InJoin d i -> Waiting ∉ workers s).
Proof.
  intros H. pose proof (reachable_covered n tr s H) as Hcov.
  pose proof (reachable_stop_seen n tr s H) as Hss.
  split_and!.
  - exact Hcov.
  - intros Hin Ht Hr. specialize (Hcov Hin). rewrite Hr in Hcov. simpl in Hcov.
    assert (0 < awake s) as Hpos by (destruct (tasks s); [done | simpl in Hcov; lia]).
    unfold awake in Hpos. destruct (workers s ≫= awake_of) as [|u l] eqn:E; [simpl in Hpos; lia|].
    assert (u ∈ workers s ≫= awake_of) as Hu by (rewrite E; apply list_elem_of_here).
    apply list_elem_of_bind in Hu as (pc & Hpc & [w Hw]%list_elem_of_lookup).
    exists w, pc. split; [done|]. split; intros ->; by apply elem_of_nil in Hpc.
  - intros Hst Hc. destruct (Hss Hst) as [[d Hd]|Hnw]; [by destruct (Hc d)|done].
  - intros d i Hc. pose proof (reachable_stop_set n tr s H) as Hset.
    destruct (Hss (Hset ltac:(congruence))) as [[d' Hd]|Hnw]; [congruence|done].
Qed.



(** ** Shutdown that discards the queued tasks *)

(** After the owner has called [shutdown] on a pool that was never shut
    down before, in either mode; [D] are the tasks discarded by the call. *)
Record halting (D : list nat) (s : state V) : Prop := Halting {
  hl_stopping : stopping s = true;
  hl_discarded : discarded s = D;
  hl_exited w : workers s !! w = Some Exited -> tasks s = [];
  hl_phase :
    match caller s with
    | InNotify false | InJoin false _ => 1 <= length (workers s)
    | Idle => workers s = [] /\ tasks s = []
    | _ => False
    end
}.

Lemma begin_halting (b : bool) s :
  serving s -> halting (if b then @nil nat else tasks s) (shutdown_begin b false s).
Proof.
  intros [Hc Hst Hlen Hlive Hd Hj Hsp].
  destruct b; (split; simpl; rewrite ?Hd; try done; intros w Hw; by destruct (Hlive w)).
Qed.

Lemma step_halting D e s s' :
  wf s -> quiet e -> halting D s -> step e s = Some s' -> halting D s'.
Proof.
  intros Hwf He [Hst Hd Hex Hph] H. apply step_trans in H.
  destruct H as [f s Ha Hm | h s Ha Hin Hnw | h w s Ha Hin Hw | n s Hc | b s Hc Hm
    | s Hc Hm Hr | d s Hc | d i s Hc Hw | d i s Hc Hw | w s Hw Hm | w s Hw Hm
    | w s Hw Hp | w s Hw Hst' Ht | w s Hw Hst' Ht | w s Hw Hp | w h q s Hw Ht
    | w s Hw Ht | w h t s Hw Hh Hp | w h t r s Hw Hh Hp | w h s Hw | w s Hw ];
    try done;
    try (rewrite Hc in Hph; destruct d; [done|]);
    try (destruct (caller s) as [|[]|[] ?|] eqn:Hc; try done;
         try (destruct Hph as [Hnil _]; by rewrite Hnil in Hw));
    (split; simpl; unfold notify_all; simpl;
     rewrite ?Hc, ?length_insert, ?length_fmap; try done).
  all: try (intros w' Hw'; lookup_cases; simplify_eq/=; by eauto).
  all: try (intros w' Hw'; lookup_cases;
            match goal with x : wpc |- _ => destruct x; simplify_eq/=; by eauto end).
  all: try (intros w' Hw'; lookup_cases; simplify_eq/=;
            match goal with
            | H : workers _ !! _ = Some Exited |- _ => apply Hex in H; congruence
            end).
  all: try (split; [done|]; apply (Hex 0), (wf_join s Hwf _ _ 0 Hc);
            apply lookup_ge_None in Hw; lia).
Qed.

Lemma exec_halting D tr s s' :
  Forall quiet tr -> inv s -> halting D s -> exec tr s = Some s' -> inv s' /\ halting D s'.
Proof.
  intros Htr Hinv Hh H.
  eapply (exec_ind quiet (λ s, inv s /\ halting D s)); [|exact Htr|split; eassumption|exact H].
  intros e0 s1 s2 He [Hi Hl] Hstep. split; [by eapply step_inv|].
  destruct Hi as (? & ? & ?). by eapply step_halting.
Qed.

Lemma step_dequeued e s s' :
  step e s = Some s' -> exists l, dequeued s' = dequeued s ++ l.
Proof.
  intros H. apply step_trans in H.
  destruct H; try (destruct d); try (destruct b);
    unfold increaseSize; try case_decide; simpl;
    try (exists []; by rewrite app_nil_r); eauto.
Qed.

Lemma exec_dequeued tr s s' :
  exec tr s = Some s' -> exists l, dequeued s' = dequeued s ++ l.
Proof.
  revert s. induction tr as [|e0 tr IH]; intros s H; simpl in H.
  - simplify_eq. exists []. by rewrite app_nil_r.
  - destruct (step e0 s) as [s1|] eqn:Hs; [|done].
    destruct (step_dequeued e0 s s1 Hs) as [l1 E1]. destruct (IH s1 H) as [l2 E2].
    exists (l1 ++ l2). by rewrite E2, E1, app_assoc.
Qed.

Lemma exec_cons_Some e (tr : list (event V)) s s' :
  exec (e :: tr) s = Some s' -> exists s1, step e s = Some s1 /\ exec tr s1 = Some s'.
Proof.
  intros H. change (exec (e :: tr) s) with
    (match step e s with Some s1 => exec tr s1 | None => None end) in H.
  destruct (step e s) as [s1|]; [eauto | done].
Qed.

(** X5: [shutdown(false)] on a pool that was never shut down, with no
    member called afterwards.  When it returns, the worker set and the deque
    are empty and [getActiveWorkerCount] is 0; the tasks it discarded are
    exactly the tasks that were in the deque when it was called; every other
    task, in particular every task a worker had already popped at that
    moment, has been invoked and its future holds the result of its body;
    a discarded task was never invoked, and its future holds the
    broken-promise error once its call of [submit] has returned. *)
Theorem X5_immediate_shutdown n tr1 tr2 s1 s :
  Forall calm tr1 -> Forall quiet tr2 ->
  exec tr1 (ThreadPool n) = Some s1 ->
  exec (Shutdown false :: tr2) s1 = Some s ->
  caller s = Idle ->
  workers s = [] /\ getQueuedTaskCount s = 0 /\ getActiveWorkerCount s = 0%Z /\
  discarded s = tasks s1 /\
  dequeued s ≡ₚ started s /\
  (forall h, h ∈ dequeued s1 -> h ∈ started s) /\
  (forall h t, heap s !! h = Some t ->
     (h ∈ started s /\ (h ∉ tasks s1) /\ sstate t = Ready (body t tt)) \/
     (h ∈ tasks s1 /\ (h ∉ started s) /\ (h ∉ returning s -> sstate t = broken))).
Proof.
  intros Hcalm Hquiet H1 H Hc.
  destruct (exec_serving tr1 _ s1 Hcalm (inv_ThreadPool n) (serving_ThreadPool n) H1)
    as [Hinv1 Hsrv1].
  pose proof (exec_reach _ _ _ _ _ H1 H) as Hreach.
  apply exec_cons_Some in H as (s2 & Hs & H).
  pose proof (step_inv _ _ _ Hinv1 Hs) as Hinv2.
  assert (s2 = shutdown_begin false false s1) as ->.
  { simpl in Hs. case_match; by simplify_eq. }
  destruct (exec_halting _ tr2 _ s Hquiet Hinv2 (begin_halting false s1 Hsrv1) H)
    as (Hinv & [Hst Hd Hex Hph]).
  rewrite Hc in Hph. destruct Hph as [Hw Ht].
  destruct (X1_active_count n _ s Hreach) as (_ & _ & Hzero & _).
  destruct (reachable_order n _ s Hreach) as [Hperm _ _].
  assert (torun s = []) as Htr by (unfold torun; by rewrite Hw).
  rewrite Htr, app_nil_r in Hperm.
  split_and!; try done.
  - unfold getQueuedTaskCount. by rewrite Ht.
  - by apply Hzero.
  - intros h Hh. rewrite <-Hperm. destruct (exec_dequeued _ _ _ H) as [l ->].
    simpl. rewrite elem_of_app. by left.
  - intros h t Hh. destruct Hinv as (Hwf & Hids & Hlife).
    destruct (Hlife h t Hh) as [_ O2 O3].
    pose proof (lookup_lt_Some _ _ _ Hh) as Hlt. apply (ids_bound s h Hids) in Hlt.
    rewrite Ht, Htr, Hd in Hlt. simpl in Hlt. apply elem_of_app in Hlt as [Hs'|Hd'].
    + left. split_and!; [done| |by apply O2].
      intros Hin. rewrite <-Hd in Hin. by eapply ids_started_discarded.
    + right. split_and!; [done| |].
      * intros Hin. rewrite <-Hd in Hd'. by eapply ids_started_discarded.
      * intros Hret. rewrite <-Hd in Hd'. specialize (O3 Hd'). by rewrite decide_False in O3.
Qed.


(** ** Calling [shutdown] again, and the destructor after [shutdown] *)

Lemma shutdown_again_exec (b : bool) s :
  caller s = Idle -> workers s = [] -> tasksMutex s = None ->
  exec [Shutdown b; Owner; Owner] s =
  Some (with_caller Idle (with_workers []
          (with_caller (InJoin false 0) (notify_all (shutdown_begin b false s))))).
Proof.
  intros Hc Hw Hm.
  rewrite (exec_cons _ _ s (shutdown_begin b false s)) by by apply trans_step, t_shutdown.
  rewrite (exec_cons _ _ _ _ (trans_step _ _ _ (t_notify false (shutdown_begin b false s) eq_refl))).
  assert (workers (with_caller (InJoin false 0) (notify_all (shutdown_begin b false s))) !! 0
          = None) as H0.
  { simpl. unfold notify_all. destruct b; simpl; by rewrite Hw. }
  by rewrite (exec_cons _ _ _ _ (trans_step _ _ _
    (t_joined false 0 (with_caller (InJoin false 0) (notify_all (shutdown_begin b false s)))
       eq_refl H0))).
Qed.

Lemma destroy_after_exec s :
  caller s = Idle -> workers s = [] -> tasksMutex s = None -> returning s = [] ->
  exec [Destroy; Owner; Owner] s =
  Some (with_caller Destroyed (clear (with_workers []
          (with_caller (InJoin true 0) (notify_all (shutdown_begin true true s)))))).
Proof.
  intros Hc Hw Hm Hr.
  rewrite (exec_cons _ _ s (shutdown_begin true true s)) by by apply trans_step, t_destroy.
  rewrite (exec_cons _ _ _ _ (trans_step _ _ _ (t_notify true (shutdown_begin true true s) eq_refl))).
  assert (workers (with_caller (InJoin true 0) (notify_all (shutdown_begin true true s))) !! 0
          = None) as H0.
  { simpl. unfold notify_all. simpl. by rewrite Hw. }
  by rewrite (exec_cons _ _ _ _ (trans_step _ _ _
    (t_joined true 0 (with_caller (InJoin true 0) (notify_all (shutdown_begin true true s)))
       eq_refl H0))).
Qed.

(** X6: on a pool whose [shutdown] has returned (the worker set is empty
    and [stopping] is set), a second [shutdown(true)] runs through lines
    103-110 and leaves the state exactly as it was; so does a second
    [shutdown(false)] when the deque is empty.  The destructor of such a
    pool, once every call of [submit] has returned, joins nothing and ends
    with the same tasks, discarding what is still queued. *)
Theorem X6_shutdown_again n tr s :
  exec tr (ThreadPool n) = Some s ->
  caller s = Idle -> workers s = [] -> stopping s = true ->
  exec [Shutdown true; Owner; Owner] s = Some s /\
  (tasks s = [] -> exec [Shutdown false; Owner; Owner] s = Some s) /\
  (returning s = [] ->
     exists s', exec [Destroy; Owner; Owner] s = Some s' /\
       caller s' = Destroyed /\ workers s' = [] /\ tasks s' = [] /\
       discarded s' = discarded s ++ tasks s /\ started s' = started s /\
       joined s' = joined s /\ (tasks s = [] -> heap s' = heap s)).
Proof.
  intros H Hc Hw Hst. destruct (reachable_inv n tr s H) as (Hwf & _ & _).
  assert (tasksMutex s = None) as Hm.
  { destruct (tasksMutex s) as [w|] eqn:Hm; [|done].
    destruct (wf_held s Hwf w Hm) as (pc & Hpc & _). by rewrite Hw in Hpc. }
  split_and!.
  - rewrite (shutdown_again_exec true s Hc Hw Hm). f_equal. clear H Hwf.
    destruct s; simpl in *. by subst.
  - intros Ht. rewrite (shutdown_again_exec false s Hc Hw Hm). f_equal.
    clear H Hwf. destruct s; simpl in *. subst. unfold shutdown_begin, notify_all, clear.
    simpl. by rewrite app_nil_r.
  - intros Hr. eexists. rewrite (destroy_after_exec s Hc Hw Hm Hr).
    split; [reflexivity|]. simpl. split_and!; try done. by intros ->.
Qed.


(** ** Submitting to a pool that has been shut down *)

(** Events that neither add a worker nor destroy queued closures. *)
Definition idle (e : event V) : Prop :=
  match e with
  | IncreaseSize _ | Shutdown false | Destroy => False
  | _ => True
  end.

(** [shutdown] does not set [stopping] back, and [submit] does not look at
    it: without a worker the deque only grows. *)
Lemma step_stranded e s s' :
  idle e -> workers s = [] -> alive s = true -> step e s = Some s' ->
  workers s' = [] /\ alive s' = true /\ tasks s `prefix_of` tasks s' /\
  started s' = started s /\ dequeued s' = dequeued s /\ discarded s' = discarded s.
Proof.
  intros He Hw Ha H. apply step_trans in H. unfold alive in *.
  destruct H; try (destruct d); try (destruct b); try done; simpl;
    unfold notify_all; simpl; rewrite ?Hw in *; try done;
    try match goal with Hc : caller _ = _ |- _ => by rewrite Hc in Ha end.
  split_and!; try done. by apply prefix_app_r.
Qed.

Lemma exec_stranded tr s s' :
  Forall idle tr -> workers s = [] -> alive s = true -> exec tr s = Some s' ->
  workers s' = [] /\ tasks s `prefix_of` tasks s' /\ started s' = started s /\
  dequeued s' = dequeued s /\ discarded s' = discarded s.
Proof.
  intros Htr. revert s. induction Htr as [|e tr He _ IH]; intros s Hw Ha H; simpl in H.
  - by simplify_eq.
  - destruct (step e s) as [s1|] eqn:Hs; [|done].
    destruct (step_stranded e s s1 He Hw Ha Hs) as (Hw1 & Ha1 & Hp1 & Hs1 & Hd1 & Hx1).
    destruct (IH s1 Hw1 Ha1 H) as (Hw' & Hp' & Hs' & Hd' & Hx').
    split_and!; try congruence. by etrans.
Qed.

(** Until [shutdown] is called the pool has a worker. *)
Definition manned (s : state V) : Prop := stopping s = false -> 1 <= length (workers s).

Lemma step_manned e s s' : stop_set s -> manned s -> step e s = Some s' -> manned s'.
Proof.
  intros Hset Hman H. apply step_trans in H. unfold manned, stop_set in *.
  destruct H; try (destruct d); try (destruct b); unfold increaseSize; try case_decide;
    simpl; unfold notify_all; simpl;
    rewrite ?length_insert, ?length_fmap, ?length_app, ?length_replicate;
    try done; try (intros Hst; specialize (Hman Hst); lia).
  all: intros Hst; rewrite Hset in Hst; [done | by rewrite H].
Qed.

Lemma reachable_manned n tr s : exec tr (ThreadPool n) = Some s -> manned s.
Proof.
  intros H.
  cut (stop_set s /\ manned s); [tauto|].
  eapply (exec_ind (λ _, True) (λ s, stop_set s /\ manned s)); [| |  |exact H].
  - intros e s1 s2 _ [Hs Hm] Hstep. split; [by eapply step_stop_set | by eapply step_manned].
  - by apply Forall_true.
  - split.
    + intros Hc. by rewrite (proj1 (proj2 (proj2 (proj2 (proj2 (proj2 (proj2 (fields_ThreadPool n)))))))) in Hc.
    + intros _. rewrite workers_ThreadPool, length_replicate. case_decide; lia.
Qed.

(** X7: [submit] is accepted by a pool whose [shutdown] has returned: the
    task is allocated and queued.  As long as no worker is added by
    [increaseSize] and the deque is not cleared, it stays queued, it is not
    invoked, and [get] on its future blocks. *)
Theorem X7_submit_after_shutdown n tr1 s1 f :
  exec tr1 (ThreadPool n) = Some s1 ->
  caller s1 = Idle -> workers s1 = [] ->
  stopping s1 = true /\
  step (Submit f) s1 = Some (submit f s1).2 /\
  forall tr2 s, Forall idle tr2 -> exec (Submit f :: tr2) s1 = Some s ->
    workers s = [] /\ started s = started s1 /\
    exists t, heap s !! (submit f s1).1 = Some t /\ body t = f /\
      (submit f s1).1 ∈ tasks s /\ ((submit f s1).1 ∉ started s) /\
      future_get (sstate t) = None.
Proof.
  intros H1 Hc Hw. destruct (reachable_inv n tr1 s1 H1) as (Hwf & _ & _).
  assert (tasksMutex s1 = None) as Hm.
  { destruct (tasksMutex s1) as [w|] eqn:Hm; [|done].
    destruct (wf_held s1 Hwf w Hm) as (pc & Hpc & _). by rewrite Hw in Hpc. }
  assert (step (Submit f) s1 = Some (submit f s1).2) as Hsub.
  { apply trans_step, t_submit; [by unfold alive; rewrite Hc | done]. }
  split_and!; [|done|].
  { destruct (stopping s1) eqn:Hst; [done|].
    pose proof (reachable_manned n tr1 s1 H1 Hst) as Hl. rewrite Hw in Hl. simpl in Hl. lia. }
  intros tr2 s Htr2 H. pose proof (exec_reach _ _ _ _ _ H1 H) as Hreach.
  destruct (reachable_inv _ _ _ Hreach) as (_ & Hids & Hlife).
  pose proof H as H2. rewrite (exec_cons _ _ _ _ Hsub) in H2.
  destruct (exec_stranded tr2 (submit f s1).2 s Htr2 Hw
              ltac:(by unfold alive; simpl; rewrite Hc) H2) as (Hw' & Hp & Hs & Hd & Hx).
  assert ((submit f s1).1 ∈ tasks s) as Hin.
  { destruct Hp as [k ->]. simpl. rewrite !elem_of_app, list_elem_of_singleton. auto. }
  destruct (submitted_handle n tr1 s1 f tr2 s _ H1 H eq_refl) as (t & Ht & Hb & _).
  assert ((submit f s1).1 ∈ pend s) as Hpend by (unfold pend; rewrite elem_of_app; auto).
  split_and!; try done. exists t. split_and!; try done.
  - intros Hs'. by eapply ids_pend_started.
  - destruct (Hlife _ t Ht) as [O1 _ _]. destruct (O1 Hpend) as [-> _]. done.
Qed.


(** ** Termination of [shutdown] *)

(** An upper bound on the steps a worker needs to get from a control point to
    the [return] of line 73 when the deque stays empty; taking a task from
    the deque pays for one more iteration. *)
Definition rank (pc : wpc) : nat :=
  match pc with
  | Exited | AtTake => 0
  | AtStopCheck => 1
  | AtPred => 2
  | AtLock | Woken => 3
  | Waiting | Finishing _ => 4
  | Running _ => 5
  end.

(** Steps left to the owner inside [shutdown]. *)
Definition owner_rank (s : state V) : nat :=
  match caller s with
  | InNotify _ => S (S (length (workers s)))
  | InJoin _ i => S (length (workers s) - i)
  | _ => 0
  end.

Definition fuel (s : state V) : nat :=
  sum_list_with rank (workers s) + 6 * length (tasks s) + length (returning s) + owner_rank s.

Lemma rank_insert (ws : list wpc) w pc pc' :
  ws !! w = Some pc ->
  sum_list_with rank (<[w := pc']> ws) + rank pc = sum_list_with rank ws + rank pc'.
Proof.
  revert w. induction ws as [|x ws IH]; intros [|w] Hw; simplify_eq/=; [lia|].
  specialize (IH w Hw). lia.
Qed.

Lemma rank_wake (ws : list wpc) :
  sum_list_with rank (wake <$> ws) <= sum_list_with rank ws.
Proof. induction ws as [|[] ws IH]; csimpl; lia. Qed.

Lemma step_stopping e s s' : stopping s = true -> step e s = Some s' -> stopping s' = true.
Proof.
  intros Hst H. apply step_trans in H.
  destruct H; try (destruct d); try (destruct b); unfold increaseSize; try case_decide; done.
Qed.

(** Once [stopping] is set, every step of a worker, of the owner inside
    [shutdown] or of a returning [submit] uses up fuel. *)
Lemma step_fuel e s s' :
  wf s -> ids s -> quiet e -> stopping s = true -> step e s = Some s' -> fuel s' < fuel s.
Proof.
  intros Hwf Hids He Hst H. apply step_trans in H. unfold fuel, owner_rank.
  destruct H; try (destruct d); try done; try congruence;
    try (by match goal with Hw : workers _ !! _ = Some AtTake |- _ => destruct (wf_take s Hwf _ Hw) end);
    try match goal with
    | Hw : workers _ !! _ = Some Exited |- _ => pose proof (lookup_lt_Some _ _ _ Hw)
    end;
    simpl; unfold notify_all; simpl;
    rewrite ?length_insert, ?length_fmap;
    repeat match goal with
    | Hw : workers ?s !! ?w = Some ?pc |- context [sum_list_with rank (<[?w := ?pc']> (workers ?s))] =>
        let E := fresh "E" in
        pose proof (rank_insert (workers s) w pc pc' Hw) as E; simpl in E;
        generalize dependent (sum_list_with rank (<[w := pc']> (workers s))); intros
    | H : ?h ∈ returning ?s |- _ =>
        let E := fresh "E" in
        pose proof (length_filter_ne (returning s) h (ids_returning_nodup s Hids) H) as E;
        generalize dependent (length (filter (λ x, x ≠ h) (returning s))); intros;
        clear H
    | |- context [sum_list_with rank (wake <$> workers ?s)] =>
        pose proof (rank_wake (workers s));
        generalize dependent (sum_list_with rank (wake <$> workers s)); intros
    | H : caller ?s = _ |- _ => rewrite H; clear H
    | H : tasks ?s = _ |- _ => rewrite H; clear H
    end; simpl; try lia.
Qed.

Lemma exec_fuel tr s s' :
  inv s -> Forall quiet tr -> stopping s = true -> exec tr s = Some s' ->
  length tr + fuel s' <= fuel s.
Proof.
  intros Hinv Htr. revert s Hinv. induction Htr as [|e tr He _ IH]; intros s Hinv Hst H; simpl in H.
  - simplify_eq. simpl. lia.
  - destruct (step e s) as [s1|] eqn:Hs; [|done].
    pose proof (step_inv _ _ _ Hinv Hs) as Hinv1.
    destruct Hinv as (Hwf & Hids & _).
    pose proof (step_fuel e s s1 Hwf Hids He Hst Hs).
    specialize (IH s1 Hinv1 (step_stopping _ _ _ Hst Hs) H). simpl. lia.
Qed.

(** X8: once [stopping] is set, the threads of the pool can take only
    boundedly many steps as long as no member function is called anew: each
    step of a worker, of the owner inside [shutdown] (lines 108-110) or of a
    call of [submit] that is returning uses up at least one unit of [fuel],
    which counts six steps for every queued task.  So no schedule keeps
    [workerLoop] or [shutdown] running for ever. *)
Theorem X8_shutdown_bounded n tr s tr' s' :
  exec tr (ThreadPool n) = Some s -> stopping s = true ->
  Forall quiet tr' -> exec tr' s = Some s' ->
  stopping s' = true /\ length tr' + fuel s' <= fuel s /\
  length tr' <= 5 * length (workers s) + 6 * length (tasks s) + length (returning s) +
                S (S (length (workers s))).
Proof.
  intros H Hst Htr H'. pose proof (reachable_inv n tr s H) as Hinv.
  pose proof (exec_fuel tr' s s' Hinv Htr Hst H') as Hf.
  split_and!; [|done|].
  - eapply (exec_ind (λ _, True) (λ s, stopping s = true)); [| |exact Hst|exact H'].
    + intros e s1 s2 _. apply step_stopping.
    + by apply Forall_true.
  - assert (sum_list_with rank (workers s) <= 5 * length (workers s)) as Hr.
    { induction (workers s) as [|[] ws IH]; simpl; lia. }
    assert (owner_rank s <= S (S (length (workers s)))) as Ho.
    { unfold owner_rank. destruct (caller s); lia. }
    unfold fuel in Hf. lia.
Qed.

(** The owner is inside [shutdown], called by the destructor ([d]) or not. *)
Definition in_shutdown (d : bool) (s : state V) : Prop :=
  caller s = InNotify d \/ exists i, caller s = InJoin d i.

Lemma step_in_shutdown d e s s' :
  quiet e -> in_shutdown d s -> step e s = Some s' ->
  in_shutdown d s' \/ caller s' = (if d then Destroyed else Idle).
Proof.
  intros He Hin H. apply step_trans in H. unfold in_shutdown in *.
  destruct H; try done; simpl; auto.
  all: destruct Hin as [Hin|[i' Hin]]; rewrite Hin in *; simplify_eq;
    try (destruct d); simpl; eauto.
  destruct d0; auto.
Qed.

(** A worker that is neither blocked in [cv.wait] nor waiting for the mutex
    can take its next step. *)
Lemma worker_enabled s w pc :
  ids s -> workers s !! w = Some pc -> pc <> Waiting -> pc <> Exited ->
  (pc = AtLock \/ pc = Woken -> tasksMutex s = None) ->
  exists s', step (Worker w) s = Some s'.
Proof.
  intros Hids Hw Hnw Hne Hm. simpl. unfold workerLoop. rewrite Hw.
  destruct pc; try done.
  - rewrite Hm; eauto.
  - case_match; eauto.
  - rewrite Hm; eauto.
  - case_match; eauto.
  - case_match; eauto.
  - assert (h < length (heap s)) as [t Ht]%lookup_lt_is_Some.
    { apply (ids_bound s h Hids). rewrite !elem_of_app. right. left.
      apply elem_of_torun. eauto. }
    rewrite Ht. simpl. destruct (invoke t). eauto.
  - eauto.
Qed.

Lemma shutdown_can_step d s :
  inv s -> stop_seen s -> stop_set s -> in_shutdown d s ->
  exists e s', (e = Owner \/ exists w, e = Worker w) /\ step e s = Some s'.
Proof.
  intros (Hwf & Hids & _) Hseen Hset [Hc|[i Hc]].
  - exists Owner. eexists. split; [auto|]. apply trans_step. by apply t_notify.
  - destruct (workers s !! i) as [pc|] eqn:Hi.
    + destruct (decide (pc = Exited)) as [->|Hne].
      { exists Owner. eexists. split; [auto|]. apply trans_step. by eapply t_join. }
      assert (Waiting ∉ workers s) as Hnw.
      { destruct (Hseen (Hset ltac:(congruence))) as [[d' Hd]|Hnw]; [congruence|done]. }
      assert (pc <> Waiting) as Hne'.
      { intros ->. apply Hnw. eapply list_elem_of_lookup_2. eauto. }
      destruct (tasksMutex s) as [w'|] eqn:Hm.
      * destruct (wf_held s Hwf w' Hm) as (pc' & Hw' & C).
        destruct (worker_enabled s w' pc' Hids Hw') as [s' Hs'];
          [by intros -> | by intros -> | by intros [->| ->] |].
        exists (Worker w'), s'. eauto.
      * destruct (worker_enabled s i pc Hids Hi) as [s' Hs']; try done.
        exists (Worker i), s'. eauto.
    + exists Owner. eexists. split; [auto|]. apply trans_step. by eapply t_joined.
Qed.

(** Every state inside [shutdown] has a next step, and the steps run out. *)
Lemma shutdown_runs_out n d : forall m tr s,
  fuel s <= m -> exec tr (ThreadPool n) = Some s -> in_shutdown d s ->
  exists e s1, (e = Owner \/ exists w, e = Worker w) /\ step e s = Some s1 /\
    exists tr' s', Forall quiet tr' /\ length tr' <= fuel s /\
      exec tr' s = Some s' /\ caller s' = (if d then Destroyed else Idle).
Proof.
  induction m as [|m IH]; intros tr s Hm H Hin.
  all: pose proof (reachable_inv n tr s H) as Hinv.
  all: assert (stopping s = true) as Hst
         by (apply (reachable_stop_set n tr s H); destruct Hin as [Hc|[i Hc]]; congruence).
  all: destruct (shutdown_can_step d s Hinv (reachable_stop_seen n tr s H)
                   (reachable_stop_set n tr s H) Hin) as (e & s1 & He & Hs).
  all: assert (quiet e) as Hq by (destruct He as [->|[w ->]]; done).
  all: pose proof (step_fuel e s s1 (proj1 Hinv) (proj1 (proj2 Hinv)) Hq Hst Hs) as Hlt.
  - lia.
  - exists e, s1. split_and!; try done.
    assert (exec (tr ++ [e]) (ThreadPool n) = Some s1) as H1.
    { apply exec_app_Some. exists s. split; [done|]. simpl. by rewrite Hs. }
    destruct (step_in_shutdown d e s s1 Hq Hin Hs) as [Hin1|Hc1].
    + destruct (IH (tr ++ [e]) s1 ltac:(lia) H1 Hin1)
        as (_ & _ & _ & _ & tr' & s' & Hq' & Hl & H' & Hc').
      exists (e :: tr'), s'. split_and!; try done.
      * by constructor.
      * simpl. lia.
      * simpl. by rewrite Hs.
    + exists [e], s1. split_and!; try done.
      * by constructor.
      * simpl. lia.
      * simpl. by rewrite Hs.
Qed.

(** X9: while the owner is inside [shutdown] some thread can always take a
    step: the owner itself, the worker it is joining, or the worker that
    holds the mutex; no state is a deadlock.  With the bound on the number
    of steps this gives a schedule of at most [fuel s] steps that takes
    [shutdown] to its [return], from every state in which it is running. *)
Theorem X9_shutdown_progress n tr s d :
  exec tr (ThreadPool n) = Some s -> in_shutdown d s ->
  (exists e s1, (e = Owner \/ exists w, e = Worker w) /\ step e s = Some s1) /\
  (exists tr' s', Forall quiet tr' /\ length tr' <= fuel s /\ exec tr' s = Some s' /\
     caller s' = (if d then Destroyed else Idle)).
Proof.
  intros H Hin.
  destruct (shutdown_runs_out n d (fuel s) tr s ltac:(lia) H Hin) as (e & s1 & He & Hs & Hex).
  split; [|done]. eauto.
Qed.


(** ** The mutex *)

(** The steps of worker [w] from a control point inside the critical section
    of lines 71-81 to the point where it gives the mutex up. *)
Lemma critical_leaves s w pc :
  wf s -> workers s !! w = Some pc -> critical pc = true ->
  exists k s', k <= 2 /\ exec (replicate (S k) (Worker w)) s = Some s' /\
    tasksMutex s' = None /\ tasks s' `suffix_of` tasks s /\
    forall w', w' <> w -> workers s' !! w' = workers s !! w'.
Proof.
  intros Hwf Hw C.
  assert (w < length (workers s)) as Hlt by eauto using lookup_lt_Some.
  assert (forall s, workers s !! w = Some AtTake ->
            exists s', exec [Worker w] s = Some s' /\ tasksMutex s' = None /\
              tasks s' `suffix_of` tasks s /\
              forall w', w' <> w -> workers s' !! w' = workers s !! w') as Htake.
  { clear. intros s Hw. destruct (tasks s) as [|h q] eqn:Ht.
    - eexists. rewrite (exec_cons _ _ _ _ (trans_step _ _ _ (t_continue w s Hw Ht))).
      split; [done|]. simpl. split_and!; try done.
      + by rewrite Ht.
      + intros w' Hne. by rewrite list_lookup_insert_ne.
    - eexists. rewrite (exec_cons _ _ _ _ (trans_step _ _ _ (t_take w h q s Hw Ht))).
      split; [done|]. simpl. split_and!; try done.
      + by apply suffix_cons_r.
      + intros w' Hne. by rewrite list_lookup_insert_ne. }
  assert (forall s, w < length (workers s) -> workers s !! w = Some AtStopCheck ->
            exists k s', k <= 1 /\ exec (replicate (S k) (Worker w)) s = Some s' /\
              tasksMutex s' = None /\ tasks s' `suffix_of` tasks s /\
              forall w', w' <> w -> workers s' !! w' = workers s !! w') as Hcheck.
  { clear -Htake. intros s Hlt Hw.
    destruct (decide (stopping s = true /\ tasks s = [])) as [[Hst Ht]|Hn].
    - exists 0. eexists. simpl replicate.
      rewrite (exec_cons _ _ _ _ (trans_step _ _ _ (t_exit w s Hw Hst Ht))).
      split; [lia|]. split; [reflexivity|]. simpl. split_and!; try done.
      intros w' Hne. by rewrite list_lookup_insert_ne.
    - assert (stopping s = false \/ tasks s <> []) as Hor.
      { destruct (stopping s); [right; intros ?; by apply Hn | by left]. }
      destruct (Htake (goto w AtTake s)) as (s' & H' & Hm & Hsuf & Hoth).
      { simpl. by rewrite list_lookup_insert_eq. }
      exists 1, s'. simpl replicate.
      rewrite (exec_cons _ _ _ _ (trans_step _ _ _ (t_stay w s Hw Hor))).
      split; [lia|]. split; [exact H'|]. split_and!; try done.
      intros w' Hne. rewrite (Hoth w' Hne). simpl. by rewrite list_lookup_insert_ne. }
  destruct pc; try done.
  - destruct (decide (stopping s = true \/ tasks s <> [])) as [Hor|Hn].
    + destruct (Hcheck (goto w AtStopCheck s)) as (k & s' & Hk & H' & Hm & Hsuf & Hoth).
      { simpl. by rewrite length_insert. }
      { simpl. by rewrite list_lookup_insert_eq. }
      exists (S k), s'. change (replicate (S (S k)) (Worker w)) with (Worker w :: replicate (S k) (@Worker V w)).
      rewrite (exec_cons _ _ _ _ (trans_step _ _ _ (t_pred_pass w s Hw Hor))).
      split; [lia|]. split; [exact H'|]. split_and!; try done.
      intros w' Hne. rewrite (Hoth w' Hne). simpl. by rewrite list_lookup_insert_ne.
    + assert (stopping s = false /\ tasks s = []) as [Hst Ht].
      { destruct (stopping s); [destruct Hn; by left|].
        split; [done|]. destruct (tasks s); [done|]. destruct Hn. by right. }
      exists 0. eexists. simpl replicate.
      rewrite (exec_cons _ _ _ _ (trans_step _ _ _ (t_pred_wait w s Hw Hst Ht))).
      split; [lia|]. split; [reflexivity|]. simpl. split_and!; try done.
      intros w' Hne. by rewrite list_lookup_insert_ne.
  - destruct (Hcheck s Hlt Hw) as (k & s' & Hk & H' & Hm & Hsuf & Hoth).
    exists k, s'. split; [lia|]. split_and!; done.
  - destruct (Htake s Hw) as (s' & H' & Hm & Hsuf & Hoth).
    exists 0, s'. split; [lia|]. split_and!; done.
Qed.

(** X10: at most one worker is between the lock of line 71 and the end of
    the critical section, and it is the one recorded as holder of
    [tasksMutex]; a worker blocked in [cv.wait], running a task or returned
    does not hold it.  A step that changes the deque is taken by the holder,
    or by [submit], [shutdown] or the destructor while nobody holds the
    mutex.  The holder is never blocked: it can step, and after at most three
    steps of its own it has released the mutex. *)
Theorem X10_mutual_exclusion n tr s :
  exec tr (ThreadPool n) = Some s ->
  (forall w1 w2 pc1 pc2, workers s !! w1 = Some pc1 -> workers s !! w2 = Some pc2 ->
     critical pc1 = true -> critical pc2 = true -> w1 = w2) /\
  (forall w, tasksMutex s = Some w <-> exists pc, workers s !! w = Some pc /\ critical pc = true) /\
  (forall e s', step e s = Some s' -> tasks s' <> tasks s ->
     match e with
     | Worker w => tasksMutex s = Some w
     | _ => tasksMutex s = None
     end) /\
  (forall w, tasksMutex s = Some w ->
     exists k s', k <= 2 /\ exec (replicate (S k) (Worker w)) s = Some s' /\
       tasksMutex s' = None /\
       forall w', w' <> w -> workers s' !! w' = workers s !! w').
Proof.
  intros H. destruct (reachable_inv n tr s H) as (Hwf & Hids & _).
  split_and!.
  - intros. by eapply wf_exclusive.
  - intros w. split; [by apply wf_held|]. intros (pc & Hw & C). by eapply wf_owner.
  - intros e s' Hs Hne. apply step_trans in Hs.
    destruct Hs; try (destruct d); try (destruct b); unfold increaseSize in *;
      try case_decide; simpl in *; unfold notify_all in *; simpl in *; try done.
    + eapply all_exited_free; eauto using wf_join.
    + by eapply wf_owner.
  - intros w Hm. destruct (wf_held s Hwf w Hm) as (pc & Hw & C).
    destruct (critical_leaves s w pc Hwf Hw C) as (k & s' & Hk & H' & Hm' & _ & Hoth).
    eauto 10.
Qed.


(** ** Ownership of the packaged tasks *)

(** The task a worker holds in its local [task] (line 68), from the move of
    line 75 to the end of the iteration. *)
Definition held_of (pc : wpc) : list nat :=
  match pc with
  | Running h | Finishing h => [h]
  | _ => []
  end.

Definition held (s : state V) : list nat := workers s ≫= held_of.

(** The [shared_ptr]s to the packaged tasks: the local [taskPack] of every
    call of [submit] that has not returned, the closures in the deque, and
    the closures that workers have moved out of it. *)
Definition owners (s : state V) : list nat := returning s ++ tasks s ++ held s.

Definition occ (h : nat) (l : list nat) : nat := length (filter (λ x, x = h) l).

Lemma occ_app h l1 l2 : occ h (l1 ++ l2) = occ h l1 + occ h l2.
Proof. unfold occ. by rewrite filter_app, length_app. Qed.

Lemma occ_perm h l1 l2 : l1 ≡ₚ l2 -> occ h l1 = occ h l2.
Proof. intros Hp. unfold occ. by rewrite Hp. Qed.

Lemma occ_notin h l : h ∉ l -> occ h l = 0.
Proof.
  intros Hn. unfold occ. induction l as [|x l IH]; [done|].
  apply not_elem_of_cons in Hn as [Hne Hn].
  rewrite filter_cons_False by congruence. auto.
Qed.

Lemma occ_in h l : NoDup l -> h ∈ l -> occ h l = 1.
Proof.
  intros Hnd Hin. induction l as [|x l IH]; [by apply elem_of_nil in Hin|].
  apply NoDup_cons in Hnd as [Hx Hnd]. unfold occ in *.
  destruct (decide (x = h)) as [->|Hne].
  - rewrite filter_cons_True by done. simpl. f_equal. by apply (occ_notin h l).
  - rewrite filter_cons_False by done. apply IH; [done|].
    apply elem_of_cons in Hin as [?|?]; [congruence|done].
Qed.

Lemma occ_pos h l : 0 < occ h l <-> h ∈ l.
Proof.
  unfold occ. induction l as [|x l IH].
  - simpl. split; [lia|]. by intros ?%elem_of_nil.
  - rewrite elem_of_cons. destruct (decide (x = h)) as [->|Hne].
    + rewrite filter_cons_True by done. simpl. split; [auto|lia].
    + rewrite filter_cons_False by done. rewrite IH. naive_solver.
Qed.

Lemma occ_filter_ne h h' l :
  occ h' (filter (λ x, x ≠ h) l) = if decide (h' = h) then 0 else occ h' l.
Proof.
  unfold occ. induction l as [|x l IH]; [by case_decide|].
  destruct (decide (x = h)) as [->|Hne].
  - rewrite (filter_cons_False (λ x, x ≠ h)) by naive_solver. rewrite IH.
    case_decide; [done|]. by rewrite filter_cons_False by congruence.
  - rewrite (filter_cons_True (λ x, x ≠ h)) by done.
    destruct (decide (x = h')) as [->|Hne'].
    + rewrite decide_False in * by done.
      rewrite !(filter_cons_True (λ x, x = h')) by done. simpl. by rewrite IH.
    + rewrite !(filter_cons_False (λ x, x = h')) by done. apply IH.
Qed.

Lemma occ_held_insert h (ws : list wpc) w pc pc' :
  ws !! w = Some pc ->
  occ h (<[w := pc']> ws ≫= held_of) + occ h (held_of pc) =
  occ h (ws ≫= held_of) + occ h (held_of pc').
Proof.
  intros Hw. pose proof (bind_insert_perm held_of ws w pc pc' Hw) as Hp.
  apply (occ_perm h) in Hp. rewrite !occ_app in Hp. lia.
Qed.

Lemma held_wake (ws : list wpc) : (wake <$> ws) ≫= held_of = ws ≫= held_of.
Proof. induction ws as [|[] ws IH]; csimpl; by rewrite ?IH. Qed.

Lemma held_replicate k : replicate k AtLock ≫= held_of = [].
Proof. induction k; csimpl; by rewrite ?IHk. Qed.

Lemma held_all_exited (ws : list wpc) :
  (forall j pc, ws !! j = Some pc -> pc = Exited) -> ws ≫= held_of = [].
Proof.
  induction ws as [|pc ws IH]; intros Hall; [done|]. csimpl.
  rewrite (Hall 0 pc eq_refl). simpl. apply IH. intros j pc' Hj. by apply (Hall (S j)).
Qed.

Lemma elem_of_held s h :
  h ∈ held s <-> exists w, workers s !! w = Some (Running h) \/ workers s !! w = Some (Finishing h).
Proof.
  unfold held. rewrite list_elem_of_bind. split.
  - intros (pc & Hh & [w Hw]%list_elem_of_lookup).
    destruct pc; simpl in Hh; try (by apply elem_of_nil in Hh);
      apply list_elem_of_singleton in Hh as ->; eauto.
  - intros (w & [Hw|Hw]); eexists; (split; [|by eapply list_elem_of_lookup_2]);
      by apply list_elem_of_singleton.
Qed.

Lemma use_count_release (t : packaged_task V) : use_count (release t) = use_count t - 1.
Proof. unfold release, abandon. simpl. repeat case_match; done. Qed.

(** No owner refers to a task that is not allocated yet. *)
Lemma owners_bound s h : ids s -> h ∈ owners s -> h < length (heap s).
Proof.
  intros Hids. unfold owners. rewrite !elem_of_app. intros [Hr|[Ht|Hh]].
  - by apply (ids_returning s Hids).
  - apply (ids_bound s h Hids). rewrite !elem_of_app. auto.
  - apply elem_of_held in Hh as (w & [Hw|Hw]); apply (ids_bound s h Hids); rewrite !elem_of_app.
    + right. left. apply elem_of_torun. eauto.
    + right. right. left. by eapply ids_finishing.
Qed.

(** The use count of every task is the number of its owners. *)
Definition counted (s : state V) : Prop :=
  forall h t, heap s !! h = Some t -> use_count t = occ h (owners s).

Lemma occ_nil h : occ h [] = 0.
Proof. done. Qed.

Lemma occ_singleton h x : occ h [x] = if decide (x = h) then 1 else 0.
Proof. unfold occ. rewrite filter_singleton; [by case_decide | exact []]. Qed.

Lemma occ_cons h x l : occ h (x :: l) = occ h [x] + occ h l.
Proof. by rewrite <-occ_app. Qed.

Lemma step_counted e s s' :
  wf s -> ids s -> counted s -> step e s = Some s' -> counted s'.
Proof.
  intros Hwf Hids Hcnt H. apply step_trans in H.
  pose proof (ids_nodup s Hids) as Hnd. apply NoDup_app in Hnd as (Hndt & _ & _).
  pose proof (ids_returning_nodup s Hids) as Hndr.
  assert (occ (length (heap s)) (owners s) = 0) as Hfresh.
  { apply occ_notin. intros Hin%owners_bound; [lia|done]. }
  unfold owners, held in Hfresh. rewrite !occ_app in Hfresh.
  destruct H; try (destruct d); try (destruct b); unfold increaseSize; try case_decide;
    intros h' t' Hh'; unfold owners, held in *; simpl in *; unfold notify_all in *; simpl in *;
    rewrite ?held_wake, ?bind_app, ?held_replicate, ?app_nil_r in *;
    try match goal with
    | Hc : caller s = InJoin _ ?i, Hn : workers s !! ?i = None |- _ =>
        pose proof (held_all_exited (workers s) (all_exited s i Hwf ltac:(eauto) Hn)) as Hheld
    end;
    try match goal with
    | Ht : tasks s = _ :: _ |- _ => pose proof (Hcnt h' t') as Hcnt'; unfold owners, held in Hcnt'; rewrite Ht in Hcnt'
    end;
    rewrite ?occ_app;
    repeat match goal with
    | Hw : workers ?s !! ?w = Some ?pc |- context [occ ?h (<[?w := ?pc']> (workers ?s) ≫= held_of)] =>
        let E := fresh "E" in
        pose proof (occ_held_insert h (workers s) w pc pc' Hw) as E; simpl in E;
        generalize dependent (occ h (<[w := pc']> (workers s) ≫= held_of)); intros
    end;
    first
    [ apply lookup_app_Some in Hh' as [Hh'|[? Hh']]
    | apply list_lookup_insert_Some in Hh' as [(? & ? & ?)|(? & Hh')]
    | match type of Hh' with alter release ?h _ !! ?h' = _ =>
         destruct (decide (h = h')) as [->|?];
         [rewrite list_lookup_alter_eq in Hh'; apply fmap_Some in Hh' as (? & Hh' & ->)
         | rewrite list_lookup_alter_ne in Hh' by done] end
    | rewrite lookup_release_all in Hh' by done; case_decide; [apply fmap_Some in Hh' as (? & Hh' & ->)|]
    | idtac ];
    rewrite ?use_count_release; simplify_eq/=;
    try (rewrite (Hcnt _ _ Hh'); unfold owners, held; rewrite ?occ_app);
    rewrite ?occ_filter_ne, ?occ_nil, ?occ_singleton in *;
    repeat case_decide; simplify_eq/=; try lia.
  all: try (apply lookup_lt_Some in Hh'; lia).
  all: rewrite ?Hheld, ?occ_nil.
  all: repeat match goal with
       | Hin : ?h ∈ ?l, Hnd : NoDup ?l |- _ => rewrite (occ_in h l Hnd Hin) in *; clear Hin
       | Hin : ?h ∉ ?l |- _ => rewrite (occ_notin h l Hin) in *; clear Hin
       | Ht : tasks _ = _ :: _ |- _ => rewrite Ht, occ_cons, occ_singleton in *; clear Ht
       end.
  all: repeat case_decide; simplify_eq/=; try lia.
  all: repeat match goal with
       | Hh : heap _ !! ?h = Some ?t |- context [use_count ?t] =>
           rewrite (Hcnt h t Hh); unfold owners, held; rewrite ?occ_app
       end; try lia.
  - rewrite Nat.sub_diag in Hh'. simplify_eq/=. lia.
  - destruct (h' - length (heap s)) eqn:Hsub; simplify_eq/=; try lia.
Qed.

Lemma reachable_counted n tr s : exec tr (ThreadPool n) = Some s -> counted s.
Proof.
  intros H.
  cut (inv s /\ counted s); [tauto|].
  eapply (exec_ind (λ _, True) (λ s, inv s /\ counted s)); [| | |exact H].
  - intros e s1 s2 _ [Hi Hc] Hstep. split; [by eapply step_inv|].
    destruct Hi as (Hwf & Hids & _). by eapply step_counted.
  - by apply Forall_true.
  - split; [apply inv_ThreadPool|]. intros h t Hh.
    by rewrite (proj1 (proj2 (proj2 (proj2 (proj2 (fields_ThreadPool n)))))) in Hh.
Qed.

(** X11: the use count of every packaged task equals the number of
    [shared_ptr]s that refer to it: the local [taskPack] of a call of
    [submit] that has not returned, the closure in the deque, and the closure
    a worker has moved into its local [task].  So a task that a worker is
    about to invoke is alive and has not run; a future that is not ready
    still has an owner that will make it ready; and once every call of
    [submit] has returned, the deque is empty and no worker holds a task,
    every task has been freed and every future is ready. *)
Theorem X11_use_count n tr s :
  exec tr (ThreadPool n) = Some s ->
  (forall h t, heap s !! h = Some t -> use_count t = occ h (owners s)) /\
  (forall h, h ∈ owners s -> h < length (heap s)) /\
  (forall w h, workers s !! w = Some (Running h) ->
     exists t, heap s !! h = Some t /\ 1 <= use_count t /\ sstate t = Pending) /\
  (forall h t, heap s !! h = Some t -> sstate t = Pending -> 1 <= use_count t) /\
  (returning s = [] -> tasks s = [] -> held s = [] ->
     forall h t, heap s !! h = Some t ->
       use_count t = 0 /\ exists r, future_get (sstate t) = Some r).
Proof.
  intros H. pose proof (reachable_counted n tr s H) as Hcnt.
  pose proof (reachable_inv n tr s H) as Hinv. pose proof Hinv as (Hwf & Hids & Hlife).
  split_and!.
  - exact Hcnt.
  - intros h. by apply owners_bound.
  - intros w h Hw.
    assert (h ∈ torun s) as Hin by (apply elem_of_torun; eauto).
    assert (h < length (heap s)) as [t Ht]%lookup_lt_is_Some.
    { apply (ids_bound s h Hids). rewrite !elem_of_app. auto. }
    exists t. destruct (Hlife h t Ht) as [O1 _ _].
    destruct O1 as [E C]; [unfold pend; rewrite elem_of_app; auto|].
    split_and!; try done. rewrite C. case_decide; lia.
  - intros h t Ht E. destruct (Hlife h t Ht) as [O1 O2 O3].
    destruct (entry_cases s h t Hinv Ht) as [[Hp _]|[[Hs E']|[Hd E']]].
    + destruct (O1 Hp) as [_ ->]. case_decide; lia.
    + congruence.
    + specialize (O3 Hd). case_decide; [lia|]. rewrite E in O3. done.
  - intros Hr Ht Hh h t Hlook. split.
    + rewrite (Hcnt h t Hlook). unfold owners. by rewrite Hr, Ht, Hh.
    + destruct (entry_cases s h t Hinv Hlook) as [[Hp _]|[[Hs E']|[Hd E']]].
      * unfold pend in Hp. rewrite Ht in Hp. simpl in Hp.
        apply elem_of_torun in Hp as [w Hw].
        assert (h ∈ held s) as Hin by (apply elem_of_held; eauto).
        rewrite Hh in Hin. by apply elem_of_nil in Hin.
      * rewrite E'. simpl. eauto.
      * rewrite Hr in E'. rewrite decide_False in E' by apply not_elem_of_nil.
        rewrite E'. simpl. eauto.
Qed.


(** ** Branches that are never taken *)

(** X12: a worker that has passed the test of line 73 finds a task: the
    predicate of [cv.wait] still holds when the worker tests line 73, because
    it has held the mutex since, and the deque is not empty at line 74, so
    the [continue] of line 79 is never executed and the worker's next step
    pops the head of the deque.  Neither handler of lines 84-88 ever runs:
    nothing is written to [std::cerr]. *)
Theorem X12_dead_branches n tr s :
  exec tr (ThreadPool n) = Some s ->
  (forall w, workers s !! w = Some AtStopCheck -> stopping s = true \/ tasks s <> []) /\
  (forall w, workers s !! w = Some AtTake ->
     exists h q, tasks s = h :: q /\
       exists s', step (Worker w) s = Some s' /\ workers s' !! w = Some (Running h) /\
         tasks s' = q /\ dequeued s' = dequeued s ++ [h]) /\
  (forall w s', workers s !! w = Some AtTake -> step (Worker w) s = Some s' ->
     workers s' !! w <> Some AtLock) /\
  cerr s = [].
Proof.
  intros H. pose proof (reachable_inv n tr s H) as Hinv. pose proof Hinv as (Hwf & Hids & _).
  assert (forall w, workers s !! w = Some AtTake ->
            exists h q, tasks s = h :: q /\
              step (Worker w) s =
              Some (goto w (Running h)
                      (with_tasksMutex None
                        (with_dequeued (dequeued s ++ [h])
                          (with_activeWorkers (fetch_add1 (activeWorkers s))
                            (with_tasks q s)))))) as Htake.
  { intros w Hw. pose proof (wf_take s Hwf w Hw) as Hne.
    destruct (tasks s) as [|h q] eqn:Ht; [done|]. exists h, q. split; [done|].
    simpl. unfold workerLoop. by rewrite Hw, Ht. }
  split_and!.
  - intros w. by apply wf_stopcheck.
  - intros w Hw. destruct (Htake w Hw) as (h & q & Ht & Hs). exists h, q. split; [done|].
    eexists. split; [exact Hs|]. simpl. split_and!; try done.
    apply list_lookup_insert_eq. eauto using lookup_lt_Some.
  - intros w s' Hw Hs. destruct (Htake w Hw) as (h & q & Ht & Hs'). rewrite Hs' in Hs.
    simplify_eq. simpl. rewrite list_lookup_insert_eq by eauto using lookup_lt_Some. done.
  - rewrite (exec_cerr tr _ s (inv_ThreadPool n) H).
    by destruct (fields_ThreadPool (V := V) n) as (_ & _ & _ & _ & _ & _ & _ & -> & _).
Qed.


(** ** What a pool that was never shut down can still do *)





End More.


(** * The result of a task *)







(** * The test program [main] *)

(** [uint64_t] and [size_t] arithmetic wraps around. *)
Definition uint64 (z : Z) : Z := (z mod size_max_plus_1)%Z.

(** One iteration of the loop of lines 143-144: [acc += (k*i) & 0xFF]. *)
Definition work_step (i : Z) (acc : Z) (k : nat) : Z :=
  uint64 (acc + Z.land (uint64 (Z.of_nat k * i)) 255).

(** The body of the lambda of lines 141-146, for the captured [i] and
    [workIterations]. *)
Definition work (workIterations : nat) (i : Z) : Z :=
  foldl (work_step i) 0%Z (seq 0 workIterations).

Definition lambda (workIterations : nat) (i : nat) : unit -> outcome Z :=
  fun _ => Returns (work workIterations (Z.of_nat i)).

(** The callables submitted by the loop of lines 140-154. *)
Definition main_tasks (tasksCount workIterations : nat) : list (unit -> outcome Z) :=
  lambda workIterations <$> seq 0 tasksCount.

(** Lines 156-157: [sum += f.get()] over the futures in order. *)
Definition main_sum (vs : list Z) : Z := foldl (fun sum v => uint64 (sum + v)) 0%Z vs.

(** The low bytes the lambda adds up, without wrap-around. *)
Definition low_bytes (m n : nat) (i : Z) : Z :=
  total ((fun k : nat => (Z.of_nat k * i) mod 256)%Z <$> seq m n).

Lemma low_byte (x : Z) : Z.land (uint64 x) 255 = (x mod 256)%Z.
Proof.
  change 255%Z with (Z.ones 8). rewrite Z.land_ones by lia. unfold uint64, size_max_plus_1.
  apply Z.mod_mod_divide. exists (2 ^ 56)%Z. lia.
Qed.

Lemma low_bytes_S m n i :
  low_bytes m (S n) i = ((Z.of_nat m * i) mod 256 + low_bytes (S m) n i)%Z.
Proof. done. Qed.

Lemma work_loop (i : Z) n : forall m a,
  foldl (work_step i) (uint64 a) (seq m n) = uint64 (a + low_bytes m n i).
Proof.
  induction n as [|n IH]; intros m a.
  - unfold low_bytes. simpl. by rewrite Z.add_0_r.
  - rewrite low_bytes_S. cbn [seq foldl].
    assert (work_step i (uint64 a) m = uint64 (a + (Z.of_nat m * i) mod 256)) as ->.
    { unfold work_step. rewrite low_byte. unfold uint64. by rewrite Zplus_mod_idemp_l. }
    rewrite IH. f_equal. symmetry. apply Z.add_assoc.
Qed.

Lemma low_bytes_bound m n i : (0 <= low_bytes m n i <= 255 * Z.of_nat n)%Z.
Proof.
  revert m. induction n as [|n IH]; intros m; [unfold low_bytes; simpl; lia|].
  rewrite low_bytes_S.
  specialize (IH (S m)). pose proof (Z.mod_pos_bound (Z.of_nat m * i) 256). lia.
Qed.

Lemma low_bytes_periodic m n i : low_bytes m n (i mod 256) = low_bytes m n i.
Proof.
  unfold low_bytes. f_equal. apply list_fmap_ext. intros _ k _. simpl.
  by rewrite Zmult_mod_idemp_r.
Qed.

Lemma main_sum_total (vs : list Z) : main_sum vs = uint64 (total vs).
Proof.
  unfold main_sum.
  assert (forall a, foldl (fun sum v => uint64 (sum + v)) (uint64 a) vs = uint64 (a + total vs)) as Hgen.
  { induction vs as [|v vs IH]; intros a; simpl.
    - by rewrite Z.add_0_r.
    - assert (uint64 (uint64 a + v) = uint64 (a + v)) as ->.
      { unfold uint64. by rewrite Zplus_mod_idemp_l. }
      rewrite IH. f_equal. symmetry. apply Z.add_assoc. }
  apply (Hgen 0%Z).
Qed.

(** X13: the lambda of lines 141-146 returns the sum of the low bytes of
    [k*i] for [k < workIterations], reduced modulo [2^64]; the wrap-around of
    [k*i] does not change it.  The result is below [2^64], it is that sum
    itself as long as [255 * workIterations < 2^64], and it depends only on
    the low byte of [i]; for [i = 0] it is 0. *)
Theorem X13_work workIterations (i : Z) :
  work workIterations i = uint64 (low_bytes 0 workIterations i) /\
  (0 <= work workIterations i < size_max_plus_1)%Z /\
  ((255 * Z.of_nat workIterations < size_max_plus_1)%Z ->
     work workIterations i = low_bytes 0 workIterations i /\
     (0 <= work workIterations i <= 255 * Z.of_nat workIterations)%Z) /\
  work workIterations (i mod 256) = work workIterations i /\
  work workIterations 0 = 0%Z.
Proof.
  assert (forall j, work workIterations j = uint64 (low_bytes 0 workIterations j)) as Hw.
  { intros j. unfold work. apply (work_loop j workIterations 0 0%Z). }
  split; [|split; [|split; [|split]]].
  - apply Hw.
  - rewrite Hw. unfold uint64, size_max_plus_1. apply Z.mod_pos_bound. lia.
  - intros Hb. pose proof (low_bytes_bound 0 workIterations i) as Hlb.
    rewrite Hw. unfold uint64. rewrite Z.mod_small by lia. split; [done|lia].
  - by rewrite !Hw, low_bytes_periodic.
  - rewrite Hw. pose proof (low_bytes_bound 0 workIterations 0) as Hlb.
    assert (low_bytes 0 workIterations 0 = 0%Z) as ->; [|done].
    clear. generalize 0. induction workIterations as [|n IH]; intros m; [done|].
    by rewrite low_bytes_S, Z.mul_0_r, IH.
Qed.

Lemma main_tasks_outs tasksCount workIterations :
  Forall2 (fun (f : unit -> outcome Z) v => f tt = Returns v)
    (main_tasks tasksCount workIterations)
    ((fun i : nat => work workIterations (Z.of_nat i)) <$> seq 0 tasksCount).
Proof.
  unfold main_tasks. apply Forall2_fmap, Forall_Forall2_diag, Forall_true. done.
Qed.

(** X14: whatever the interleaving of [main] with the workers, when every
    [get] of lines 156-157 has returned, the values read are the results of
    the lambda for [i = 0 .. tasksCount-1] in this order, no [get] has
    thrown, and the number printed after [Sum =] is their sum modulo
    [2^64]. *)
Theorem X14_main_sum threads tasksCount workIterations tr s vs :
  exec tr (ThreadPool threads) = Some s ->
  submitted tr = main_tasks tasksCount workIterations ->
  read_all s = Some vs ->
  vs = (fun i : nat => work workIterations (Z.of_nat i)) <$> seq 0 tasksCount /\
  length (heap s) = tasksCount /\
  (forall h t, heap s !! h = Some t ->
     future_get (sstate t) = Some (Returns (work workIterations (Z.of_nat h)))) /\
  main_sum vs =
    uint64 (total ((fun i : nat => work workIterations (Z.of_nat i)) <$> seq 0 tasksCount)).
Proof.
  intros H Hsub Hread.
  pose proof (main_tasks_outs tasksCount workIterations) as Houts. rewrite <-Hsub in Houts.
  pose proof (reads_results threads tr s _ vs H Houts Hread) as ->.
  pose proof Hread as Hall. apply mapM_Some in Hall.
  assert (length (heap s) = tasksCount) as Hlen.
  { apply Forall2_length in Hall. by rewrite length_fmap, length_seq in Hall. }
  split_and!; try done.
  - intros h t Ht.
    destruct (Forall2_lookup_l _ _ _ _ _ Hall Ht) as (v & Hv & Hval).
    rewrite list_lookup_fmap in Hv. apply fmap_Some in Hv as (i & Hi & ->).
    apply lookup_seq in Hi as [-> _]. simpl in Hval.
    unfold value_of in Hval. destruct (future_get (sstate t)) as [[v|ex]|]; by simplify_eq.
  - apply main_sum_total.
Qed.

(** The calls made between the constructor and line 168 of [main], and the
    steps of the workers. *)
Definition main_event (e : event Z) : Prop :=
  match e with
  | IncreaseSize _ | Shutdown _ | Destroy | Owner => False
  | _ => True
  end.

Lemma step_main_workers e (s s' : state Z) :
  main_event e -> step e s = Some s' -> length (workers s') = length (workers s).
Proof.
  intros He H. apply step_trans in H.
  destruct H; try done; simpl; by rewrite ?length_insert.
Qed.

Lemma exec_main_workers tr (s s' : state Z) :
  Forall main_event tr -> exec tr s = Some s' -> length (workers s') = length (workers s).
Proof.
  intros Htr H.
  eapply (exec_ind main_event (fun s1 => length (workers s1) = length (workers s)));
    [|exact Htr|done|exact H].
  intros e s1 s2 He Hs Hstep. by rewrite (step_main_workers e s1 s2 He Hstep).
Qed.

(** X15: the rows [i,q,a] that [main] writes to [tests/stats.csv] (lines
    148-153).  While [main] is submitting, the pool keeps the number of
    workers the constructor created and [stopping] is not set; the queue
    length [q] read by [getQueuedTaskCount] is at most the number of tasks
    submitted so far, and the count [a] read by [getActiveWorkerCount] is the
    number of workers that are running a task, at most the number of
    workers. *)
Theorem X15_main_log threads tr s :
  exec tr (ThreadPool threads) = Some s -> Forall main_event tr ->
  (Z.of_nat threads < size_max_plus_1)%Z ->
  length (workers s) = (if decide (threads = 0) then 1 else threads) /\
  stopping s = false /\
  getQueuedTaskCount s <= length (submitted tr) /\
  getActiveWorkerCount s = Z.of_nat (active s) /\
  (0 <= getActiveWorkerCount s)%Z /\
  (getActiveWorkerCount s <= Z.of_nat (length (workers s)))%Z.
Proof.
  intros H Htr Hlt.
  assert (length (workers s) = (if decide (threads = 0) then 1 else threads)) as Hlen.
  { rewrite (exec_main_workers tr _ s Htr H), workers_ThreadPool. apply length_replicate. }
  assert (Forall calm tr) as Hcalm.
  { eapply Forall_impl; [exact Htr|]. by intros []. }
  destruct (exec_serving tr _ s Hcalm (inv_ThreadPool threads) (serving_ThreadPool threads) H)
    as [(Hwf & Hids & _) Hsrv].
  pose proof (exec_bodies _ _ _ H) as Hb.
  rewrite (proj1 (proj2 (proj2 (proj2 (proj2 (fields_ThreadPool threads)))))) in Hb.
  simpl in Hb. apply (f_equal length) in Hb. rewrite length_fmap in Hb.
  pose proof (ids_perm s Hids) as Hp. apply Permutation_length in Hp.
  rewrite !length_app, length_seq in Hp.
  pose proof (reachable_active threads tr s H) as Hact.
  pose proof (active_le (workers s)) as Hle. fold (active s) in Hle.
  unfold getQueuedTaskCount, getActiveWorkerCount.
  assert (activeWorkers s = Z.of_nat (active s)) as Hex.
  { rewrite Hact. apply Z.mod_small. unfold size_max_plus_1 in *.
    destruct (decide (threads = 0)); lia. }
  split; [done|]. split; [by destruct Hsrv|]. split; [lia|]. split; [done|].
  rewrite Hex. lia.
Qed.


(** * Concrete runs of the further properties *)

Definition finished_schedule : list (event Z) :=
  busy_schedule ++ Shutdown true :: drain_schedule.

Lemma X1_active_count_witness :
  getActiveWorkerCount (run 2 contended_schedule) = 2%Z.
Proof.
  assert (exec contended_schedule (ThreadPool 2) = Some (run 2 contended_schedule)) as Hrun
    by computed.
  destruct (X1_active_count 2 contended_schedule _ Hrun) as (H & _).
  rewrite H. computed.
Defined.


Lemma X3_threads_joined_witness :
  let s := run 2 finished_schedule in
  spawned s + join_pos s = joined s + length (workers s).
Proof.
  assert (exec finished_schedule (ThreadPool 2) = Some (run 2 finished_schedule)) as Hrun
    by computed.
  exact (proj1 (X3_threads_joined 2 finished_schedule _ Hrun)).
Defined.

Lemma X4_no_lost_wakeup_witness :
  let s := run 1 (spurious_schedule ++ [Worker 0]) in
  length (tasks s) <= length (returning s) + awake s.
Proof.
  assert (exec (spurious_schedule ++ [Worker 0]) (ThreadPool 1) =
          Some (run 1 (spurious_schedule ++ [Worker 0]))) as Hrun by computed.
  destruct (X4_no_lost_wakeup 1 _ _ Hrun) as (H & _).
  apply H. vm_compute. apply list_elem_of_here.
Defined.

(** Two tasks queued, then [shutdown(false)]: the worker finds the deque
    empty and returns, and the owner joins it. *)
Definition halt_schedule : list (event Z) :=
  [Owner; Worker 0; Worker 0; Worker 0; Owner; Owner].

Lemma X5_immediate_shutdown_witness :
  let s := run 1 (submit_schedule (squares 2) ++ Shutdown false :: halt_schedule) in
  workers s = [] /\ getQueuedTaskCount s = 0 /\ discarded s = [0; 1].
Proof.
  assert (exec (submit_schedule (squares 2)) (ThreadPool 1) =
          Some (run 1 (submit_schedule (squares 2)))) as Hrun1 by computed.
  assert (exec (Shutdown false :: halt_schedule) (run 1 (submit_schedule (squares 2))) =
          Some (run 1 (submit_schedule (squares 2) ++ Shutdown false :: halt_schedule)))
    as Hrun2 by computed.
  assert (caller (run 1 (submit_schedule (squares 2) ++ Shutdown false :: halt_schedule)) = Idle)
    as Hc by computed.
  assert (Forall quiet halt_schedule) as Hq by (repeat constructor).
  destruct (X5_immediate_shutdown 1 _ halt_schedule _ _ (submit_schedule_calm _) Hq
              Hrun1 Hrun2 Hc) as (A & B & _ & C & _).
  cbv zeta. split_and!; [exact A | exact B |]. rewrite C. computed.
Defined.

Lemma X6_shutdown_again_witness :
  exec [Shutdown true; Owner; Owner] (run 2 finished_schedule) = Some (run 2 finished_schedule).
Proof.
  assert (exec finished_schedule (ThreadPool 2) = Some (run 2 finished_schedule)) as Hrun
    by computed.
  assert (caller (run 2 finished_schedule) = Idle) as Hc by computed.
  assert (workers (run 2 finished_schedule) = []) as Hw by computed.
  assert (stopping (run 2 finished_schedule) = true) as Hst by computed.
  exact (proj1 (X6_shutdown_again 2 finished_schedule _ Hrun Hc Hw Hst)).
Defined.

Lemma X7_submit_after_shutdown_witness :
  let s := run 2 finished_schedule in
  step (Submit (bind_call sq 9%Z)) s = Some (submit (bind_call sq 9%Z) s).2.
Proof.
  assert (exec finished_schedule (ThreadPool 2) = Some (run 2 finished_schedule)) as Hrun
    by computed.
  assert (caller (run 2 finished_schedule) = Idle) as Hc by computed.
  assert (workers (run 2 finished_schedule) = []) as Hw by computed.
  exact (proj1 (proj2 (X7_submit_after_shutdown 2 finished_schedule _ (bind_call sq 9%Z)
                         Hrun Hc Hw))).
Defined.

Lemma X8_shutdown_bounded_witness :
  length drain_schedule + fuel (run 2 finished_schedule)
  <= fuel (run 2 (busy_schedule ++ [Shutdown true])).
Proof.
  assert (exec (busy_schedule ++ [Shutdown true]) (ThreadPool 2) =
          Some (run 2 (busy_schedule ++ [Shutdown true]))) as Hrun by computed.
  assert (stopping (run 2 (busy_schedule ++ [Shutdown true])) = true) as Hst by computed.
  assert (Forall quiet drain_schedule) as Hq by (repeat constructor).
  assert (exec drain_schedule (run 2 (busy_schedule ++ [Shutdown true])) =
          Some (run 2 finished_schedule)) as Hrun' by computed.
  exact (proj1 (proj2 (X8_shutdown_bounded 2 _ _ drain_schedule _ Hrun Hst Hq Hrun'))).
Defined.

Lemma X9_shutdown_progress_witness :
  exists tr' s', Forall quiet tr' /\
    length tr' <= fuel (run 2 (busy_schedule ++ [Shutdown true])) /\
    exec tr' (run 2 (busy_schedule ++ [Shutdown true])) = Some s' /\ caller s' = Idle.
Proof.
  assert (exec (busy_schedule ++ [Shutdown true]) (ThreadPool 2) =
          Some (run 2 (busy_schedule ++ [Shutdown true]))) as Hrun by computed.
  assert (in_shutdown false (run 2 (busy_schedule ++ [Shutdown true]))) as Hin
    by (left; computed).
  exact (proj2 (X9_shutdown_progress 2 _ _ false Hrun Hin)).
Defined.

Lemma X10_mutual_exclusion_witness :
  exists k s', k <= 2 /\
    exec (replicate (S k) (Worker 0)) (run 1 [Worker 0]) = Some s' /\
    tasksMutex s' = None.
Proof.
  assert (exec [Worker 0] (ThreadPool 1) = Some (run 1 [Worker 0])) as Hrun
    by computed.
  assert (tasksMutex (run 1 [Worker 0]) = Some 0) as Hm by computed.
  destruct (X10_mutual_exclusion 1 _ _ Hrun) as (_ & _ & _ & H).
  destruct (H 0 Hm) as (k & s' & Hk & Hs & Hfree & _). eauto.
Defined.

Lemma X11_use_count_witness :
  exists t, heap (run 2 contended_schedule) !! 0 = Some t /\
    use_count t = occ 0 (owners (run 2 contended_schedule)).
Proof.
  assert (exec contended_schedule (ThreadPool 2) = Some (run 2 contended_schedule)) as Hrun
    by computed.
  assert (is_Some (heap (run 2 contended_schedule) !! 0)) as [t Ht].
  { apply lookup_lt_is_Some. vm_compute. lia. }
  exists t. split; [exact Ht|].
  exact (proj1 (X11_use_count 2 contended_schedule _ Hrun) 0 t Ht).
Defined.

Lemma X13_work_witness : work 3 5 = 15%Z.
Proof. destruct (X13_work 3 5) as (H & _). rewrite H. computed. Defined.

(** [main] with one thread, two tasks and three iterations: both tasks are
    submitted, then the worker runs them. *)
Definition main_schedule : list (event Z) :=
  [Submit (lambda 3 0); Submit (lambda 3 1)] ++ replicate 12 (Worker 0).

Lemma X14_main_sum_witness : main_sum [0; 3]%Z = 3%Z.
Proof.
  assert (exec main_schedule (ThreadPool 1) = Some (run 1 main_schedule)) as Hrun by computed.
  assert (submitted main_schedule = main_tasks 2 3) as Hsub by reflexivity.
  assert (read_all (run 1 main_schedule) = Some [0; 3]%Z) as Hread by computed.
  destruct (X14_main_sum 1 2 3 main_schedule _ _ Hrun Hsub Hread) as (_ & _ & _ & H).
  rewrite H. computed.
Defined.

Lemma X15_main_log_witness :
  length (workers (run 2 contended_schedule)) = 2 /\
  getQueuedTaskCount (run 2 contended_schedule) <= 2.
Proof.
  assert (exec contended_schedule (ThreadPool 2) = Some (run 2 contended_schedule)) as Hrun
    by computed.
  assert (Forall main_event contended_schedule) as Hm by (repeat constructor).
  destruct (X15_main_log 2 contended_schedule _ Hrun Hm eq_refl) as (A & _ & B & _).
  split; [exact A | exact B].
Defined.

Lemma X12_dead_branches_witness :
  let s := run 1 [Submit (bind_call sq 2%Z); Worker 0; Worker 0; Worker 0] in
  exists h q, tasks s = h :: q /\
    exists s', step (Worker 0) s = Some s' /\ workers s' !! 0 = Some (Running h) /\
      tasks s' = q /\ dequeued s' = dequeued s ++ [h].
Proof.
  assert (exec [Submit (bind_call sq 2%Z); Worker 0; Worker 0; Worker 0] (ThreadPool 1) =
          Some (run 1 [Submit (bind_call sq 2%Z); Worker 0; Worker 0; Worker 0])) as Hrun
    by computed.
  assert (workers (run 1 [Submit (bind_call sq 2%Z); Worker 0; Worker 0; Worker 0]) !! 0 =
          Some AtTake) as Hw by computed.
  destruct (X12_dead_branches 1 _ _ Hrun) as (_ & H & _).
  exact (H 0 Hw).
Defined.
